(** * Bulk PageSpeed Insights scanner: the scan loop and the PageSpeed route

    A shallow embedding of
    - the [/api/pagespeed] route handler ([POST]): the extraction of the
      issue list from the Lighthouse audits;
    - the page component [Home]: [parseManualUrls], the initial result list,
      the scan loop [startPerformanceScanWithUrls], [stopScan],
      [rescanErrorUrls] and [rescanSingleUrl], with the React state they
      read and write and the buttons that reach them;
    - the [/api/parse-sitemap] route handler and [handleScan], its client;
    - [scanUrl], the client of the PageSpeed route;
    - the saved settings (the API key in [sessionStorage], the
      insecure-HTTPS switch in [localStorage]);
    - the summary counts, the object of [exportToJSON], the score colours
      and the selection toggles.

    Modelling conventions.
    - A JavaScript string is a [string]: a sequence of characters with code
      below 256.
    - A JavaScript number coming from JSON is kept abstract (a type
      [number]); the only operation the development needs on it is the test
      [x < 0.9] of the route.
    - [undefined] and a missing property are [None].
    - An [async] function is a task: it runs synchronously up to its next
      [await], where it is parked until the event it waits for (a backend
      response, a timer) is delivered.  React state is written through
      [setX]; a handler reads the state of the render that created it. *)

From Stdlib Require Import ZArith Ascii String.
From stdpp Require Import base option list strings pretty gmap.

Local Open Scope string_scope.
Local Open Scope Z_scope.
Local Open Scope list_scope.

(* ===================================================================== *)
(** ** JavaScript string helpers *)
(* ===================================================================== *)

Module Js.

(** White space removed by [String.prototype.trim], among the characters
    below 256: TAB, LF, VT, FF, CR, SPACE and NBSP. *)
Definition is_space (c : ascii) : bool :=
  let n := nat_of_ascii c in
  ((9 <=? n)%nat && (n <=? 13)%nat) || (n =? 32)%nat || (n =? 160)%nat.

Fixpoint trim_start (s : string) : string :=
  match s with
  | EmptyString => EmptyString
  | String c s' => if is_space c then trim_start s' else s
  end.

Fixpoint snoc (s : string) (c : ascii) : string :=
  match s with
  | EmptyString => String c EmptyString
  | String d s' => String d (snoc s' c)
  end.

Fixpoint rev (s : string) : string :=
  match s with
  | EmptyString => EmptyString
  | String c s' => snoc (rev s') c
  end.

(** [s.trim()] *)
Definition trim (s : string) : string :=
  rev (trim_start (rev (trim_start s))).

(** The separator class of the regular expression [/[\n,]+/]. *)
Definition is_sep (c : ascii) : bool :=
  let n := nat_of_ascii c in (n =? 10)%nat || (n =? 44)%nat.

(** [s.split(/[\n,]+/)]: the pieces between the maximal runs of
    separators.  [in_run] tells that the previous character was a
    separator; [cur] is the piece read so far.  A run at the start gives a
    leading empty piece, a run at the end a trailing one, as in
    JavaScript. *)
Fixpoint split_go (in_run : bool) (cur : string) (s : string) : list string :=
  match s with
  | EmptyString => [cur]
  | String c s' =>
      if is_sep c
      then (if in_run then split_go true EmptyString s'
            else cur :: split_go true EmptyString s')
      else split_go false (snoc cur c) s'
  end.

Definition split_seps (s : string) : list string :=
  split_go false EmptyString s.

(** [Boolean(s)] for a string: the empty string is falsy. *)
Definition truthy (s : string) : bool :=
  match s with EmptyString => false | _ => true end.

(** [Array.from(new Set(xs))]: a Set keeps its values in insertion order,
    and adding a value it already holds changes nothing. *)
Definition set_add (acc : list string) (x : string) : list string :=
  if decide (x ∈ acc) then acc else acc ++ [x].

Definition array_from_set (xs : list string) : list string :=
  foldl set_add [] xs.

(** [xs.findIndex(p)], [None] for the result -1. *)
Fixpoint findIndex {A} (p : A -> bool) (xs : list A) : option nat :=
  match xs with
  | [] => None
  | x :: xs' => if p x then Some 0%nat else S <$> findIndex p xs'
  end.

End Js.

(* ===================================================================== *)
(** ** The PageSpeed route: [POST] of [/api/pagespeed] *)
(* ===================================================================== *)

Module Route.

Inductive Strategy := mobile | desktop.

Record PageSpeedMetrics := {
  performance : Z;
  accessibility : Z;
  bestPractices : Z;
  seo : Z;
}.

Section WithNumber.

(** The JSON numbers, and the test [x < 0.9] on them. *)
Context {number : Type}.
Variable lt_0_9 : number -> bool.

Record FieldData := {
  fcp : option number;
  fid : option number;
  lcp : option number;
  cls : option number;
}.

(** The property [score] of an audit: missing ([undefined]), [null], or a
    number. *)
Inductive Score :=
| NoScore
| NullScore
| NumScore (x : number).

(** One entry of [lighthouseResult.audits]. *)
Record Audit := {
  audit_title : string;
  audit_description : string;
  audit_score : Score;
  audit_displayValue : option string;
}.

Record AuditIssue := {
  id : string;
  title : string;
  description : string;
  score : option number;
  displayValue : option string;
}.

Record PageSpeedResult := {
  url : string;
  strategy : Strategy;
  scores : PageSpeedMetrics;
  fieldData : FieldData;
  issues : list AuditIssue;
}.

Definition relevantAuditIds : list string := [
  "first-contentful-paint";
  "largest-contentful-paint";
  "cumulative-layout-shift";
  "total-blocking-time";
  "speed-index";
  "interactive";
  "server-response-time";
  "render-blocking-resources";
  "unminified-css";
  "unminified-javascript";
  "unused-css-rules";
  "unused-javascript";
  "uses-optimized-images";
  "uses-webp-images";
  "uses-responsive-images";
  "image-alt";
  "meta-description";
  "document-title";
  "crawlable-anchors"
].

(** [audit.score === null || audit.score < 0.9]; both tests are false of
    [undefined]. *)
Definition failed (a : Audit) : bool :=
  match audit_score a with
  | NoScore => false
  | NullScore => true
  | NumScore s => lt_0_9 s
  end.

(** [score: audit.score] in an issue; [null] is [None]. *)
Definition issueScore (sc : Score) : option number :=
  match sc with
  | NumScore s => Some s
  | _ => None
  end.

(** One turn of [for (const auditId of relevantAuditIds)]: the issue
    pushed for [auditId], if any. *)
Definition issue_of (audits : gmap string Audit) (auditId : string)
  : option AuditIssue :=
  match audits !! auditId with
  | Some audit =>
      if failed audit
      then Some {| id := auditId;
                   title := audit_title audit;
                   description := audit_description audit;
                   score := issueScore (audit_score audit);
                   displayValue := audit_displayValue audit |}
      else None
  | None => None
  end.

(** The loop, over any list of ids: [issues] grows at its end. *)
Fixpoint push_issues (audits : gmap string Audit) (ids : list string)
    (issues : list AuditIssue) : list AuditIssue :=
  match ids with
  | [] => issues
  | auditId :: ids' =>
      match issue_of audits auditId with
      | Some i => push_issues audits ids' (issues ++ [i])
      | None => push_issues audits ids' issues
      end
  end.

Definition extractIssues (audits : gmap string Audit) : list AuditIssue :=
  push_issues audits relevantAuditIds [].

(** What the route reads of the request and of the PageSpeed API. *)
Record Request := {
  req_url : string;
  req_apiKey : string;
  req_strategy : option Strategy;
}.

(** The reply of the PageSpeed API as the handler uses it.  A reply
    that is not [ok], one that carries [error] or a Lighthouse
    [runtimeError], and a network failure or a body without
    [lighthouseResult] (both end in the [catch]) are errors; otherwise
    the handler has the audits, and the scores and field data it
    computes from the categories and metrics, which are carried here
    as computed.  A message that is missing is carried as the empty
    string: the handler tests a message with [||] or passes it on to the
    page, which tests it with [||], and both are falsy. *)
Inductive Upstream :=
| UpNotOk (status : Z) (message : string)
| UpError (message : string)
| UpRuntimeError (message : string)
| UpThrows (message : string)
| UpData (sc : PageSpeedMetrics) (fd : FieldData) (audits : gmap string Audit).

Inductive Response :=
| RespError (status : Z) (message : string)
| RespOk (result : PageSpeedResult).

Definition POST (req : Request) (up : Upstream) : Response :=
  if negb (Js.truthy (req_url req)) || negb (Js.truthy (req_apiKey req))
  then RespError 400 "URL and API key are required"
  else
    match up with
    | UpNotOk st msg =>
        RespError st (if Js.truthy msg then msg
                      else "API request failed with status " +:+ pretty st)
    | UpError msg => RespError 500 msg
    | UpRuntimeError msg => RespError 500 msg
    | UpThrows msg =>
        RespError 500 (if Js.truthy msg then msg
                       else "Failed to run PageSpeed test")
    | UpData sc fd audits =>
        RespOk {| url := req_url req;
                  strategy := default mobile (req_strategy req);
                  scores := sc;
                  fieldData := fd;
                  issues := extractIssues audits |}
    end.

End WithNumber.

Arguments FieldData : clear implicits.
Arguments Score : clear implicits.
Arguments Audit : clear implicits.
Arguments AuditIssue : clear implicits.
Arguments PageSpeedResult : clear implicits.
Arguments Upstream : clear implicits.
Arguments Response : clear implicits.

End Route.

(* ===================================================================== *)
(** ** The page component [Home]: state, handlers and the scan loop *)
(* ===================================================================== *)

Module Page.

Inductive ScanStatus := pending | scanning | completed | failed.

Inductive InputMode := sitemap | manual.

Record UrlItem := {
  item_url : string;
  selected : bool;
}.

Section WithNumber.

Context {number : Type}.

(** What [scanUrl] returns: [{scores, fieldData, issues}] of the route's
    reply. *)
Record DeviceResult := {
  scores : Route.PageSpeedMetrics;
  fieldData : Route.FieldData number;
  issues : list (Route.AuditIssue number);
}.

(** [ScanResult]; the status ['error'] is [failed] here, next to the field
    [error]. *)
Record ScanResult := {
  url : string;
  status : ScanStatus;
  showIssues : option bool;
  mobile : option DeviceResult;
  desktop : option DeviceResult;
  error : option string;
}.

(** The state of the component that the scan handlers read and write: the
    [useState] cells and the ref [stopScanningRef]. *)
Record State := {
  urls : list UrlItem;
  urlInputMode : InputMode;
  isLoadingUrls : bool;
  isScanning : bool;
  scanResults : list ScanResult;
  currentScanIndex : option nat;
  currentScanDevice : option Route.Strategy;
  stopScanningRef : bool;
}.

Definition setUrls (v : list UrlItem) (s : State) : State :=
  {| urls := v; urlInputMode := urlInputMode s;
     isLoadingUrls := isLoadingUrls s; isScanning := isScanning s;
     scanResults := scanResults s; currentScanIndex := currentScanIndex s;
     currentScanDevice := currentScanDevice s;
     stopScanningRef := stopScanningRef s |}.

Definition setUrlInputMode (v : InputMode) (s : State) : State :=
  {| urls := urls s; urlInputMode := v;
     isLoadingUrls := isLoadingUrls s; isScanning := isScanning s;
     scanResults := scanResults s; currentScanIndex := currentScanIndex s;
     currentScanDevice := currentScanDevice s;
     stopScanningRef := stopScanningRef s |}.

Definition setIsLoadingUrls (v : bool) (s : State) : State :=
  {| urls := urls s; urlInputMode := urlInputMode s;
     isLoadingUrls := v; isScanning := isScanning s;
     scanResults := scanResults s; currentScanIndex := currentScanIndex s;
     currentScanDevice := currentScanDevice s;
     stopScanningRef := stopScanningRef s |}.

Definition setIsScanning (v : bool) (s : State) : State :=
  {| urls := urls s; urlInputMode := urlInputMode s;
     isLoadingUrls := isLoadingUrls s; isScanning := v;
     scanResults := scanResults s; currentScanIndex := currentScanIndex s;
     currentScanDevice := currentScanDevice s;
     stopScanningRef := stopScanningRef s |}.

(** [setScanResults(prev => f(prev))]; [setScanResults(v)] is the constant
    update. *)
Definition setScanResults (f : list ScanResult -> list ScanResult)
    (s : State) : State :=
  {| urls := urls s; urlInputMode := urlInputMode s;
     isLoadingUrls := isLoadingUrls s; isScanning := isScanning s;
     scanResults := f (scanResults s); currentScanIndex := currentScanIndex s;
     currentScanDevice := currentScanDevice s;
     stopScanningRef := stopScanningRef s |}.

Definition setCurrentScanIndex (v : option nat) (s : State) : State :=
  {| urls := urls s; urlInputMode := urlInputMode s;
     isLoadingUrls := isLoadingUrls s; isScanning := isScanning s;
     scanResults := scanResults s; currentScanIndex := v;
     currentScanDevice := currentScanDevice s;
     stopScanningRef := stopScanningRef s |}.

Definition setCurrentScanDevice (v : option Route.Strategy) (s : State)
  : State :=
  {| urls := urls s; urlInputMode := urlInputMode s;
     isLoadingUrls := isLoadingUrls s; isScanning := isScanning s;
     scanResults := scanResults s; currentScanIndex := currentScanIndex s;
     currentScanDevice := v;
     stopScanningRef := stopScanningRef s |}.

(** [stopScanningRef.current = v] *)
Definition setStopScanningRef (v : bool) (s : State) : State :=
  {| urls := urls s; urlInputMode := urlInputMode s;
     isLoadingUrls := isLoadingUrls s; isScanning := isScanning s;
     scanResults := scanResults s; currentScanIndex := currentScanIndex s;
     currentScanDevice := currentScanDevice s;
     stopScanningRef := v |}.

(** The state of the first render. *)
Definition initialState : State :=
  {| urls := []; urlInputMode := sitemap; isLoadingUrls := false;
     isScanning := false; scanResults := []; currentScanIndex := None;
     currentScanDevice := None; stopScanningRef := false |}.

(** *** The object updates of the handlers *)

(** [{ url: item.url, status: 'pending' }] *)
Definition pendingResult (u : string) : ScanResult :=
  {| url := u; status := pending; showIssues := None;
     mobile := None; desktop := None; error := None |}.

(** [{ ...result, status: 'scanning' }] *)
Definition markScanning (r : ScanResult) : ScanResult :=
  {| url := url r; status := scanning; showIssues := showIssues r;
     mobile := mobile r; desktop := desktop r; error := error r |}.

(** [{ ...result, status: 'completed', mobile: mobileResult,
       desktop: desktopResult, error: undefined }] *)
Definition markCompleted (m d : DeviceResult) (r : ScanResult) : ScanResult :=
  {| url := url r; status := completed; showIssues := showIssues r;
     mobile := Some m; desktop := Some d; error := None |}.

(** [{ ...result, status: 'error', error: error.message }] *)
Definition markError (message : string) (r : ScanResult) : ScanResult :=
  {| url := url r; status := failed; showIssues := showIssues r;
     mobile := mobile r; desktop := desktop r; error := Some message |}.

(** [result.status === 'error'
       ? { ...result, status: 'pending', error: undefined } : result] *)
Definition isError (r : ScanResult) : bool :=
  match status r with failed => true | _ => false end.

Definition resetIfError (r : ScanResult) : ScanResult :=
  if isError r
  then {| url := url r; status := pending; showIssues := showIssues r;
          mobile := mobile r; desktop := desktop r; error := None |}
  else r.

(** [{ url: r.url, status: 'pending' }] of [rescanSingleUrl] *)
Definition resetResult (r : ScanResult) : ScanResult :=
  pendingResult (url r).

(** [{ ...result, showIssues: !result.showIssues }] *)
Definition flipIssues (r : ScanResult) : ScanResult :=
  {| url := url r; status := status r;
     showIssues := Some (negb (default false (showIssues r)));
     mobile := mobile r; desktop := desktop r; error := error r |}.

(** [prev.map((result, idx) => idx === i ? f(result) : result)] *)
Definition updateAt (i : nat) (f : ScanResult -> ScanResult)
    (prev : list ScanResult) : list ScanResult :=
  alter f i prev.

(** [{ url, selected: true }] *)
Definition selectedItem (u : string) : UrlItem :=
  {| item_url := u; selected := true |}.

(** [parseManualUrls] *)
Definition parseManualUrls (value : string) : list string :=
  Js.array_from_set
    (filter (fun u => Js.truthy u = true) (Js.trim <$> Js.split_seps value)).

(** [initialResults] of [startPerformanceScan] and of
    [handleManualUrlsSubmit] *)
Definition initialResults (items : list UrlItem) : list ScanResult :=
  (fun item => pendingResult (item_url item)) <$> items.

(** *** Backend calls, timers and parked tasks *)

(** How an [await scanUrl(url, strategy)] ends: with the device result, or
    with a thrown [Error] and its message. *)
Inductive Outcome :=
| Returns (r : DeviceResult)
| Throws (message : string).

(** What the page does that the backend sees, in order: a request of
    [scanUrl], and the start of a 3000 ms pause. *)
Inductive Event :=
| EvCall (u : string) (strategy : Route.Strategy)
| EvPace.

(** The pause [await new Promise(resolve => setTimeout(resolve, 3000))]. *)
Definition paceMs : N := 3000.

(** An [async] handler parked at an [await].

    For the loop of [startPerformanceScanWithUrls]: [captured] is the
    [scanResults] of the render that created the handler (the list
    [findIndex] searches), [urlItem] is [urlsToScan[i]], [rest] is
    [urlsToScan] after index [i] (so [i < urlsToScan.length - 1] exactly
    when [rest] is not empty), [resultIndex], [mobileResult] are the local
    constants, and [deadline] is the time the timer was set for. *)
Inductive Task :=
| LoopMobile (captured : list ScanResult) (urlItem : UrlItem)
    (rest : list UrlItem) (resultIndex : nat)
| LoopPace1 (captured : list ScanResult) (urlItem : UrlItem)
    (rest : list UrlItem) (resultIndex : nat) (mobileResult : DeviceResult)
    (deadline : N)
| LoopDesktop (captured : list ScanResult) (urlItem : UrlItem)
    (rest : list UrlItem) (resultIndex : nat) (mobileResult : DeviceResult)
| LoopPace2 (captured : list ScanResult) (rest : list UrlItem) (deadline : N)
| SingleMobile (index : nat) (result : ScanResult)
| SinglePace (index : nat) (result : ScanResult) (mobileResult : DeviceResult)
    (deadline : N)
| SingleDesktop (index : nat) (result : ScanResult)
    (mobileResult : DeviceResult)
| ManualTimer (captured : list ScanResult) (urlItems : list UrlItem)
    (deadline : N)
| SitemapFetch.

(** What a piece of synchronous code leaves behind: the state, the events
    it emitted, and the task it parked, if it did not run to its end. *)
Definition Ran : Type := State * list Event * option Task.

(** After the loop: [setIsScanning(false); setCurrentScanDevice(null)]. *)
Definition afterLoop (s : State) : State :=
  setCurrentScanDevice None (setIsScanning false s).

(** [r.url === urlItem.url] *)
Definition hasUrl (u : string) (r : ScanResult) : bool :=
  bool_decide (url r = u).

(** The [for] loop of [startPerformanceScanWithUrls] from the top of the
    turn for the first item of [rest], up to the first [await]. *)
Fixpoint loopFrom (captured : list ScanResult) (rest : list UrlItem)
    (s : State) : Ran :=
  match rest with
  | [] => (afterLoop s, [], None)
  | urlItem :: rest' =>
      if stopScanningRef s then (afterLoop s, [], None)
      else
        match Js.findIndex (hasUrl (item_url urlItem)) captured with
        | None => loopFrom captured rest' s
        | Some resultIndex =>
            let s1 := setCurrentScanIndex (Some resultIndex) s in
            let s2 := setScanResults (updateAt resultIndex markScanning) s1 in
            let s3 := setCurrentScanDevice (Some Route.mobile) s2 in
            (s3, [EvCall (item_url urlItem) Route.mobile],
             Some (LoopMobile captured urlItem rest' resultIndex))
        end
  end.

(** [startPerformanceScanWithUrls(urlsToScan)], called from a handler whose
    render had [scanResults = captured]. *)
Definition startPerformanceScanWithUrls (captured : list ScanResult)
    (urlsToScan : list UrlItem) (s : State) : Ran :=
  loopFrom captured urlsToScan
    (setStopScanningRef false (setIsScanning true s)).

(** The [catch] of the loop, and the turn that follows it. *)
Definition loopCatch (captured : list ScanResult) (rest : list UrlItem)
    (resultIndex : nat) (message : string) (s : State) : Ran :=
  loopFrom captured rest
    (setScanResults (updateAt resultIndex (markError message)) s).

(** A parked task of the loop is resumed: by the end of its backend call
    ([Some o]), or by its timer ([None]), at time [now]. *)
Definition resumeLoop (now : N) (t : Task) (o : option Outcome) (s : State)
  : option Ran :=
  match t, o with
  | LoopMobile c urlItem rest i, Some (Returns m) =>
      Some (s, [EvPace], Some (LoopPace1 c urlItem rest i m (now + paceMs)%N))
  | LoopMobile c urlItem rest i, Some (Throws msg) =>
      Some (loopCatch c rest i msg s)
  | LoopPace1 c urlItem rest i m _, None =>
      if stopScanningRef s then Some (afterLoop s, [], None)
      else Some (setCurrentScanDevice (Some Route.desktop) s,
                 [EvCall (item_url urlItem) Route.desktop],
                 Some (LoopDesktop c urlItem rest i m))
  | LoopDesktop c urlItem rest i m, Some (Returns d) =>
      let s1 := setScanResults (updateAt i (markCompleted m d)) s in
      match rest with
      | [] => Some (loopFrom c rest s1)
      | _ :: _ => Some (s1, [EvPace], Some (LoopPace2 c rest (now + paceMs)%N))
      end
  | LoopDesktop c urlItem rest i m, Some (Throws msg) =>
      Some (loopCatch c rest i msg s)
  | LoopPace2 c rest _, None => Some (loopFrom c rest s)
  | _, _ => None
  end.

(** [rescanSingleUrl(index)] up to its first [await]; [None] when
    [scanResults[index]] is undefined. *)
Definition rescanSingleUrl (index : nat) (s : State) : option Ran :=
  match scanResults s !! index with
  | None => None
  | Some result =>
      let s1 := setIsScanning true s in
      let s2 := setStopScanningRef false s1 in
      let s3 := setCurrentScanIndex (Some index) s2 in
      let s4 := setScanResults (updateAt index resetResult) s3 in
      let s5 := setScanResults (updateAt index markScanning) s4 in
      let s6 := setCurrentScanDevice (Some Route.mobile) s5 in
      Some (s6, [EvCall (url result) Route.mobile],
            Some (SingleMobile index result))
  end.

(** The [catch] of [rescanSingleUrl] and the two lines after it. *)
Definition singleCatch (index : nat) (message : string) (s : State) : Ran :=
  (afterLoop (setScanResults (updateAt index (markError message)) s),
   [], None).

Definition resumeSingle (now : N) (t : Task) (o : option Outcome) (s : State)
  : option Ran :=
  match t, o with
  | SingleMobile index result, Some (Returns m) =>
      Some (s, [EvPace], Some (SinglePace index result m (now + paceMs)%N))
  | SingleMobile index result, Some (Throws msg) =>
      Some (singleCatch index msg s)
  | SinglePace index result m _, None =>
      if stopScanningRef s then Some (afterLoop s, [], None)
      else Some (setCurrentScanDevice (Some Route.desktop) s,
                 [EvCall (url result) Route.desktop],
                 Some (SingleDesktop index result m))
  | SingleDesktop index result m, Some (Returns d) =>
      Some (afterLoop (setScanResults (updateAt index (markCompleted m d)) s),
            [], None)
  | SingleDesktop index result m, Some (Throws msg) =>
      Some (singleCatch index msg s)
  | _, _ => None
  end.

(** [startPerformanceScan]; [None] when nothing is selected. *)
Definition startPerformanceScan (s : State) : option Ran :=
  let selectedUrls := filter (fun item => selected item = true) (urls s) in
  match selectedUrls with
  | [] => None
  | _ :: _ =>
      Some (startPerformanceScanWithUrls (scanResults s) selectedUrls
              (setScanResults (fun _ => initialResults selectedUrls) s))
  end.

(** [stopScan] *)
Definition stopScan (s : State) : State :=
  setIsScanning false (setStopScanningRef true s).

(** [rescanErrorUrls], the dialog confirmed; [None] when no result has the
    status ['error']. *)
Definition rescanErrorUrls (s : State) : option Ran :=
  let errorResults := filter (fun r => isError r = true) (scanResults s) in
  match errorResults with
  | [] => None
  | _ :: _ =>
      let urlsToRescan := (fun r => selectedItem (url r)) <$> errorResults in
      Some (startPerformanceScanWithUrls (scanResults s) urlsToRescan
              (setScanResults (fmap resetIfError) s))
  end.

(** [toggleIssues(index)] *)
Definition toggleIssues (index : nat) (s : State) : State :=
  setScanResults (updateAt index flipIssues) s.

(** The delay of the [setTimeout] that starts the scan of a manual list. *)
Definition manualDelayMs : N := 100.

(** [handleManualUrlsSubmit], dialogs confirmed, up to its [setTimeout];
    [None] when it returns after an [alert]. *)
Definition handleManualUrlsSubmit (now : N) (apiKey manualUrlsInput : string)
    (s : State) : option Ran :=
  if negb (Js.truthy (Js.trim apiKey)) then None
  else if negb (Js.truthy (Js.trim manualUrlsInput)) then None
  else
    match parseManualUrls manualUrlsInput with
    | [] => None
    | parsedUrls =>
        let s1 := setScanResults (fun _ => []) s in
        let s2 := setCurrentScanIndex None s1 in
        let urlItems := selectedItem <$> parsedUrls in
        let s3 := setUrls urlItems s2 in
        Some (s3, [],
              Some (ManualTimer (scanResults s) urlItems
                      (now + manualDelayMs)%N))
    end.

(** The callback of that [setTimeout]. *)
Definition resumeManual (t : Task) (s : State) : option Ran :=
  match t with
  | ManualTimer captured urlItems _ =>
      Some (startPerformanceScanWithUrls captured urlItems
              (setScanResults (fun _ => initialResults urlItems) s))
  | _ => None
  end.

(** [handleScan], dialog confirmed, up to its [await fetch]. *)
Definition handleScan (s : State) : Ran :=
  let s1 := setIsLoadingUrls true s in
  let s2 := setUrls [] s1 in
  let s3 := setScanResults (fun _ => []) s2 in
  let s4 := setCurrentScanIndex None s3 in
  (s4, [], Some SitemapFetch).

(** The rest of [handleScan]: the sitemap route answered with the list
    [Some us], or the request failed ([None]). *)
Definition resumeSitemap (t : Task) (reply : option (list string))
    (s : State) : option Ran :=
  match t with
  | SitemapFetch =>
      match reply with
      | Some (u :: us) =>
          Some (setIsLoadingUrls false
                  (setUrls (selectedItem <$> (u :: us)) s), [], None)
      | _ => Some (setIsLoadingUrls false s, [], None)
      end
  | _ => None
  end.

(** [toggleUrlSelection(index)] and [toggleSelectAll] *)
Definition toggleUrlSelection (index : nat) (s : State) : State :=
  setUrls (alter (fun item => {| item_url := item_url item;
                                 selected := negb (selected item) |})
             index (urls s)) s.

Definition toggleSelectAll (s : State) : State :=
  let allSelected := forallb selected (urls s) in
  setUrls ((fun item => {| item_url := item_url item;
                           selected := negb allSelected |}) <$> urls s) s.

(** *** The page as a transition system *)

(** The page with its parked tasks: the component state, the tasks by
    identifier, the next identifier, the clock (ms) and the events so
    far. *)
Record World := {
  state : State;
  tasks : list (nat * Task);
  nextId : nat;
  now : N;
  log : list Event;
}.

Definition initialWorld : World :=
  {| state := initialState; tasks := []; nextId := 0%nat; now := 0%N;
     log := [] |}.

(** What happens to the page: the user acts on a control, a backend call or
    the sitemap request of a parked task ends, a timer fires, time
    passes. *)
Inductive Input :=
| ClickStart
| ClickStop
| ClickRescanErrors
| ClickRetry (index : nat)
| ClickToggleIssues (index : nat)
| SubmitManual (apiKey manualUrlsInput : string)
| SubmitSitemap
| SelectMode (m : InputMode)
| ToggleUrl (index : nat)
| ToggleAll
| Respond (id : nat) (o : Outcome)
| SitemapReply (id : nat) (reply : option (list string))
| Fire (id : nat)
| Advance (ms : N).

(** *** Which controls the render offers *)

Definition isSitemap (m : InputMode) : bool :=
  match m with sitemap => true | manual => false end.

Definition nonEmpty {A} (l : list A) : bool :=
  match l with [] => false | _ :: _ => true end.

(** The section "Select URLs to Scan", with the button that calls
    [startPerformanceScan]: rendered when
    [urls.length > 0 && scanResults.length === 0 && urlInputMode === 'sitemap'];
    the button is disabled when [selectedCount === 0]. *)
Definition selectionShown (s : State) : bool :=
  nonEmpty (urls s) && negb (nonEmpty (scanResults s))
  && isSitemap (urlInputMode s).

Definition startOffered (s : State) : bool :=
  selectionShown s && nonEmpty (filter (fun item => selected item = true) (urls s)).

(** The results section is rendered when [scanResults.length > 0]; the
    Stop button in it when [isScanning]. *)
Definition stopOffered (s : State) : bool :=
  nonEmpty (scanResults s) && isScanning s.

(** "Rescan Errors":
    [!isScanning && scanResults.some(r => r.status === 'error')]. *)
Definition rescanErrorsOffered (s : State) : bool :=
  negb (isScanning s) && existsb isError (scanResults s).

(** "Retry" of a row: [result.status === 'error'] and [!isScanning]. *)
Definition retryOffered (index : nat) (s : State) : bool :=
  match scanResults s !! index with
  | Some r => isError r && negb (isScanning s)
  | None => false
  end.

(** The issues toggle of a row is in the cells rendered when the row has
    [result.mobile], or [result.desktop]. *)
Definition toggleIssuesOffered (index : nat) (s : State) : bool :=
  match scanResults s !! index with
  | Some r => bool_decide (is_Some (mobile r)) || bool_decide (is_Some (desktop r))
  | None => false
  end.

(** The submit button: [disabled={isLoadingUrls || !isFormValid ||
    isScanning}]; the form fields come with the input. *)
Definition submitOffered (s : State) : bool :=
  negb (isLoadingUrls s) && negb (isScanning s).

(** The two tabs: [disabled={isScanning || isLoadingUrls}]. *)
Definition modeOffered (s : State) : bool :=
  negb (isScanning s) && negb (isLoadingUrls s).

(** *** Steps *)

Fixpoint lookupTask (id : nat) (ts : list (nat * Task)) : option Task :=
  match ts with
  | [] => None
  | (k, t) :: ts' => if (k =? id)%nat then Some t else lookupTask id ts'
  end.

Fixpoint removeTask (id : nat) (ts : list (nat * Task)) : list (nat * Task) :=
  match ts with
  | [] => []
  | (k, t) :: ts' =>
      if (k =? id)%nat then removeTask id ts' else (k, t) :: removeTask id ts'
  end.

(** A handler was called and ran up to its first [await]: its task, if any,
    gets a fresh identifier. *)
Definition spawn (w : World) (r : Ran) : World :=
  let '(s, evs, ot) := r in
  {| state := s;
     tasks := match ot with
              | Some t => tasks w ++ [(nextId w, t)]
              | None => tasks w
              end;
     nextId := match ot with Some _ => S (nextId w) | None => nextId w end;
     now := now w;
     log := log w ++ evs |}.

(** The parked task [id] was resumed and ran up to its next [await]. *)
Definition continue (w : World) (id : nat) (r : Ran) : World :=
  let '(s, evs, ot) := r in
  {| state := s;
     tasks := match ot with
              | Some t => removeTask id (tasks w) ++ [(id, t)]
              | None => removeTask id (tasks w)
              end;
     nextId := nextId w;
     now := now w;
     log := log w ++ evs |}.

(** A handler that only writes the state. *)
Definition write (w : World) (s : State) : World :=
  {| state := s; tasks := tasks w; nextId := nextId w; now := now w;
     log := log w |}.

(** The deadline of a task parked on a timer. *)
Definition deadlineOf (t : Task) : option N :=
  match t with
  | LoopPace1 _ _ _ _ _ d | LoopPace2 _ _ d | SinglePace _ _ _ d
  | ManualTimer _ _ d => Some d
  | _ => None
  end.

(** The handler a timer resumes. *)
Definition resumeTimer (nw : N) (t : Task) (s : State) : option Ran :=
  match t with
  | LoopPace1 _ _ _ _ _ _ | LoopPace2 _ _ _ => resumeLoop nw t None s
  | SinglePace _ _ _ _ => resumeSingle nw t None s
  | ManualTimer _ _ _ => resumeManual t s
  | _ => None
  end.

(** The handler the end of a backend call resumes. *)
Definition resumeCall (nw : N) (t : Task) (o : Outcome) (s : State)
  : option Ran :=
  match t with
  | LoopMobile _ _ _ _ | LoopDesktop _ _ _ _ _ => resumeLoop nw t (Some o) s
  | SingleMobile _ _ | SingleDesktop _ _ _ => resumeSingle nw t (Some o) s
  | _ => None
  end.

(** One step of the page; [None] when the input cannot happen: the control
    is not offered, the handler returns at once after an [alert], the task
    is not parked on that kind of event, or its timer is not due. *)
Definition step (w : World) (i : Input) : option World :=
  let s := state w in
  match i with
  | ClickStart =>
      if startOffered s then spawn w <$> startPerformanceScan s else None
  | ClickStop =>
      if stopOffered s then Some (write w (stopScan s)) else None
  | ClickRescanErrors =>
      if rescanErrorsOffered s then spawn w <$> rescanErrorUrls s else None
  | ClickRetry index =>
      if retryOffered index s then spawn w <$> rescanSingleUrl index s
      else None
  | ClickToggleIssues index =>
      if toggleIssuesOffered index s then Some (write w (toggleIssues index s))
      else None
  | SubmitManual apiKey manualUrlsInput =>
      if submitOffered s && negb (isSitemap (urlInputMode s))
      then spawn w <$> handleManualUrlsSubmit (now w) apiKey manualUrlsInput s
      else None
  | SubmitSitemap =>
      if submitOffered s && isSitemap (urlInputMode s)
      then Some (spawn w (handleScan s))
      else None
  | SelectMode m =>
      if modeOffered s then Some (write w (setUrlInputMode m s)) else None
  | ToggleUrl index =>
      if selectionShown s then Some (write w (toggleUrlSelection index s))
      else None
  | ToggleAll =>
      if selectionShown s then Some (write w (toggleSelectAll s)) else None
  | Respond id o =>
      t ← lookupTask id (tasks w);
      continue w id <$> resumeCall (now w) t o s
  | SitemapReply id reply =>
      t ← lookupTask id (tasks w);
      continue w id <$> resumeSitemap t reply s
  | Fire id =>
      t ← lookupTask id (tasks w);
      d ← deadlineOf t;
      if (d <=? now w)%N then continue w id <$> resumeTimer (now w) t s
      else None
  | Advance ms =>
      Some {| state := s; tasks := tasks w; nextId := nextId w;
              now := (now w + ms)%N; log := log w |}
  end.

(** A sequence of steps. *)
Fixpoint steps (w : World) (ins : list Input) : option World :=
  match ins with
  | [] => Some w
  | i :: ins' => w' ← step w i; steps w' ins'
  end.

(** The inputs that start no handler: the environment of one run, the Stop
    button included. *)
Definition passive (i : Input) : bool :=
  match i with
  | ClickStop | Respond _ _ | Fire _ | Advance _ => true
  | _ => false
  end.

End WithNumber.

Arguments DeviceResult : clear implicits.
Arguments ScanResult : clear implicits.
Arguments State : clear implicits.
Arguments Outcome : clear implicits.
Arguments Task : clear implicits.
Arguments Ran : clear implicits.
Arguments World : clear implicits.
Arguments Input : clear implicits.

End Page.

(* ===================================================================== *)
(** ** The saved settings: the API key and the insecure-HTTPS switch *)
(* ===================================================================== *)

Module Settings.

(** [sessionStorage] and [localStorage], as maps from item names to
    strings; [getItem] of a missing item is [null], here [None]. *)
Record Browser := {
  sessionStorage : gmap string string;
  localStorage : gmap string string;
}.

(** The [useState] cells of the component that the settings handlers read
    and write. *)
Record KeyState := {
  apiKey : string;
  isApiKeySaved : bool;
  showApiKey : bool;
  allowInsecure : bool;
}.

Definition firstRender : KeyState :=
  {| apiKey := ""; isApiKeySaved := false; showApiKey := false;
     allowInsecure := false |}.

Definition apiKeyItem : string := "psi_api_key".
Definition allowInsecureItem : string := "psi_allow_insecure".

(** The effect run on mount. *)
Definition loadSaved (b : Browser) (k : KeyState) : KeyState :=
  let k1 :=
    match sessionStorage b !! apiKeyItem with
    | Some savedApiKey =>
        if Js.truthy savedApiKey
        then {| apiKey := savedApiKey; isApiKeySaved := true;
                showApiKey := showApiKey k;
                allowInsecure := allowInsecure k |}
        else k
    | None => k
    end in
  match localStorage b !! allowInsecureItem with
  | Some savedAllowInsecure =>
      if bool_decide (savedAllowInsecure = "true")
      then {| apiKey := apiKey k1; isApiKeySaved := isApiKeySaved k1;
              showApiKey := showApiKey k1; allowInsecure := true |}
      else k1
  | None => k1
  end.

(** [checked.toString()] *)
Definition toString (checked : bool) : string :=
  if checked then "true" else "false".

(** [handleSaveApiKey] *)
Definition handleSaveApiKey (p : Browser * KeyState) : Browser * KeyState :=
  let '(b, k) := p in
  if Js.truthy (Js.trim (apiKey k))
  then ({| sessionStorage := <[apiKeyItem := apiKey k]> (sessionStorage b);
           localStorage := localStorage b |},
        {| apiKey := apiKey k; isApiKeySaved := true;
           showApiKey := showApiKey k; allowInsecure := allowInsecure k |})
  else p.

(** [handleRemoveApiKey] *)
Definition handleRemoveApiKey (p : Browser * KeyState) : Browser * KeyState :=
  let '(b, k) := p in
  ({| sessionStorage := delete apiKeyItem (sessionStorage b);
      localStorage := localStorage b |},
   {| apiKey := ""; isApiKeySaved := false; showApiKey := false;
      allowInsecure := allowInsecure k |}).

(** [handleReplaceApiKey] *)
Definition handleReplaceApiKey (p : Browser * KeyState)
  : Browser * KeyState :=
  let '(b, k) := p in
  (b, {| apiKey := apiKey k; isApiKeySaved := false; showApiKey := true;
         allowInsecure := allowInsecure k |}).

(** [toggleAllowInsecure(checked)] *)
Definition toggleAllowInsecure (checked : bool) (p : Browser * KeyState)
  : Browser * KeyState :=
  let '(b, k) := p in
  ({| sessionStorage := sessionStorage b;
      localStorage :=
        <[allowInsecureItem := toString checked]> (localStorage b) |},
   {| apiKey := apiKey k; isApiKeySaved := isApiKeySaved k;
      showApiKey := showApiKey k; allowInsecure := checked |}).

(** The [onChange] of the key field:
    [setApiKey(e.target.value); if (isApiKeySaved) setIsApiKeySaved(false)]. *)
Definition typeApiKey (value : string) (p : Browser * KeyState)
  : Browser * KeyState :=
  let '(b, k) := p in
  (b, {| apiKey := value; isApiKeySaved := false;
         showApiKey := showApiKey k; allowInsecure := allowInsecure k |}).

(** The page is loaded again in the same tab: the state is that of a first
    render after the mount effect; the two storages stay. *)
Definition reload (p : Browser * KeyState) : Browser * KeyState :=
  (p.1, loadSaved p.1 firstRender).

(** What the user does with the settings. *)
Inductive Act :=
| TypeKey (value : string)
| SaveKey
| RemoveKey
| ReplaceKey
| SetInsecure (checked : bool)
| Reload.

Definition act (p : Browser * KeyState) (a : Act) : Browser * KeyState :=
  match a with
  | TypeKey value => typeApiKey value p
  | SaveKey => handleSaveApiKey p
  | RemoveKey => handleRemoveApiKey p
  | ReplaceKey => handleReplaceApiKey p
  | SetInsecure checked => toggleAllowInsecure checked p
  | Reload => reload p
  end.

(** The page opened in a browser with the storages [b], and then the
    actions [acts]. *)
Definition session (b : Browser) (acts : list Act) : Browser * KeyState :=
  foldl act (b, loadSaved b firstRender) acts.

End Settings.

(* ===================================================================== *)
(** ** The sitemap route: [POST] of [/api/parse-sitemap], and its client *)
(* ===================================================================== *)

Module SitemapRoute.

(** The body of the request; a missing [sitemapUrl] is [None]. *)
Record Request := {
  sitemapUrl : option string;
  allowInsecure : bool;
}.

(** The options the handler gives to [new Sitemapper]. *)
Record Config := {
  cfg_url : string;
  cfg_timeout : N;
  cfg_rejectUnauthorized : bool;
}.

(** How [await sitemapper.fetch()] ends: it throws an error with a
    message (empty when it has none), or gives [{ sites }], where [sites]
    may be missing. *)
Inductive Fetched :=
| FetchThrows (message : string)
| FetchSites (sites : option (list string)).

(** The JSON reply with its status: [{ error }], or [{ urls, count }]. *)
Inductive Response :=
| RespError (status : Z) (error : string)
| RespUrls (urls : list string) (count : nat).

Section WithWorld.

(** Whether [new URL(s)] returns, and what the Sitemapper fetches with
    given options. *)
Variable parsesAsUrl : string -> bool.
Variable fetch : Config -> Fetched.

Definition POST (req : Request) : Response :=
  match sitemapUrl req with
  | None => RespError 400 "Sitemap URL is required"
  | Some u =>
      if negb (Js.truthy u) then RespError 400 "Sitemap URL is required"
      else if negb (parsesAsUrl u)
      then RespError 400 "Invalid Sitemap URL format"
      else
        match fetch {| cfg_url := u; cfg_timeout := 30000;
                       cfg_rejectUnauthorized := negb (allowInsecure req) |}
        with
        | FetchThrows message =>
            RespError 500 (if Js.truthy message then message
                           else "Failed to parse sitemap")
        | FetchSites None => RespError 404 "No URLs found in the sitemap"
        | FetchSites (Some []) => RespError 404 "No URLs found in the sitemap"
        | FetchSites (Some sites) => RespUrls sites (length sites)
        end
  end.

End WithWorld.

(** What [handleScan] reads of the reply: [data.urls] when [response.ok],
    and nothing when the status is an error status. *)
Definition clientReply (resp : Response) : option (list string) :=
  match resp with
  | RespUrls urls _ => Some urls
  | RespError _ _ => None
  end.

End SitemapRoute.

(* ===================================================================== *)
(** ** The summary counts, the JSON export and the score colours *)
(* ===================================================================== *)

Module Report.

Import Page.

(** [getScoreColor] of the page, [getScoreBgColor], and the
    [getScoreColor] local to [exportToHTML], on the integer scores of
    [PageSpeedMetrics]. *)
Definition getScoreColor (score : Z) : string :=
  if 90 <=? score then "text-green-600 dark:text-green-400"
  else if 50 <=? score then "text-yellow-600 dark:text-yellow-400"
  else "text-red-600 dark:text-red-400".

Definition getScoreBgColor (score : Z) : string :=
  if 90 <=? score then "bg-green-100 dark:bg-green-900/20"
  else if 50 <=? score then "bg-yellow-100 dark:bg-yellow-900/20"
  else "bg-red-100 dark:bg-red-900/20".

Definition htmlScoreColor (score : Z) : string :=
  if 90 <=? score then "#10b981"
  else if 50 <=? score then "#f59e0b"
  else "#ef4444".

(** [===] on two statuses. *)
Definition sameStatus (a b : ScanStatus) : bool :=
  match a, b with
  | pending, pending | scanning, scanning | completed, completed
  | failed, failed => true
  | _, _ => false
  end.

(** [urls.filter(item => item.selected).length] *)
Definition selectedCount (items : list UrlItem) : nat :=
  length (filter (fun item => selected item = true) items).

Section WithNumber.

Context {number : Type}.

Local Abbreviation DeviceResult := (DeviceResult number).
Local Abbreviation ScanResult := (ScanResult number).
Local Abbreviation State := (State number).

(** [r.status === st] *)
Definition statusIs (st : ScanStatus) (r : ScanResult) : bool :=
  sameStatus st (status r).

(** [scanResults.filter(r => r.status === 'completed').length] and
    [scanResults.filter(r => r.status === 'error').length] *)
Definition completedCount (l : list ScanResult) : nat :=
  length (filter (fun r => statusIs completed r = true) l).

Definition errorCount (l : list ScanResult) : nat :=
  length (filter (fun r => statusIs failed r = true) l).

(** The number shown as "remaining":
    [scanResults.length - completedCount - errorCount], a subtraction of
    JavaScript numbers. *)
Definition remainingShown (l : list ScanResult) : Z :=
  Z.of_nat (length l) - Z.of_nat (completedCount l) - Z.of_nat (errorCount l).

(** One entry of [results] in the exported object; [null] and a missing
    property are [None]. *)
Record ExportedResult := {
  x_url : string;
  x_status : ScanStatus;
  x_mobile : option DeviceResult;
  x_desktop : option DeviceResult;
  x_error : option string;
}.

(** The object [exportData] of [exportToJSON]. *)
Record ExportData := {
  exportDate : string;
  x_sitemapUrl : string;
  totalScanned : nat;
  completedScans : nat;
  failedScans : nat;
  results : list ExportedResult;
}.

Definition exportResult (result : ScanResult) : ExportedResult :=
  {| x_url := url result;
     x_status := status result;
     x_mobile :=
       match mobile result with
       | Some m => Some {| scores := scores m; fieldData := fieldData m;
                           issues := issues m |}
       | None => None
       end;
     x_desktop :=
       match desktop result with
       | Some d => Some {| scores := scores d; fieldData := fieldData d;
                           issues := issues d |}
       | None => None
       end;
     x_error := error result |}.

(** [exportData]; [date] is [new Date().toISOString()]. *)
Definition exportToJSON (date scannedSitemapUrl : string)
    (scanResults : list ScanResult) : ExportData :=
  {| exportDate := date;
     x_sitemapUrl := scannedSitemapUrl;
     totalScanned := length scanResults;
     completedScans := completedCount scanResults;
     failedScans := errorCount scanResults;
     results := exportResult <$> scanResults |}.

End WithNumber.

Arguments ExportedResult : clear implicits.
Arguments ExportData : clear implicits.

End Report.

(* ===================================================================== *)
(** ** A retry against the PageSpeed route: [scanUrl] and [POST] *)
(* ===================================================================== *)

Module ScanCall.

Import Page.

Section WithNumber.

Context {number : Type}.

(** [response.ok]: the status is in the range 200-299. *)
Definition httpOk (status : Z) : bool :=
  (200 <=? status) && (status <=? 299).

(** The body [{ url, apiKey, strategy }] that [scanUrl] sends. *)
Definition requestOf (apiKey u : string) (strategy : Route.Strategy)
  : Route.Request :=
  {| Route.req_url := u; Route.req_apiKey := apiKey;
     Route.req_strategy := Some strategy |}.

(** [scanUrl], from the reply of the route on: it throws
    [data.error || 'Failed to scan URL'] when the reply is not [ok], and
    returns [{ scores, fieldData, issues }] of the reply otherwise.  An
    error body under an [ok] status, which [POST] sends only if the
    PageSpeed API itself answered a request that was not [ok] with such a
    status, is left out ([None]). *)
Definition scanUrl (resp : Route.Response number)
  : option (Outcome number) :=
  match resp with
  | Route.RespError status message =>
      if httpOk status then None
      else Some (Throws (if Js.truthy message then message
                         else "Failed to scan URL"))
  | Route.RespOk result =>
      Some (Returns {| scores := Route.scores result;
                       fieldData := Route.fieldData result;
                       issues := Route.issues result |})
  end.

(** The message of a failing reply of the PageSpeed API, as the route
    reads it. *)
Definition upstreamMessage (up : Route.Upstream number) : option string :=
  match up with
  | Route.UpNotOk _ message | Route.UpError message
  | Route.UpRuntimeError message | Route.UpThrows message => Some message
  | Route.UpData _ _ _ => None
  end.

(** A reply of the PageSpeed API that is not [ok] has a status outside
    200-299. *)
Definition upstreamSound (up : Route.Upstream number) : bool :=
  match up with
  | Route.UpNotOk status _ => negb (httpOk status)
  | _ => true
  end.

End WithNumber.

End ScanCall.

(* ===================================================================== *)
(** ** Facts about the helpers *)
(* ===================================================================== *)

Module JsFacts.

Import Js.

Lemma findIndex_Some {A} (p : A -> bool) xs i :
  findIndex p xs = Some i ->
  exists x, xs !! i = Some x /\ p x = true
            /\ forall j y, (j < i)%nat -> xs !! j = Some y -> p y = false.
Proof.
  revert i. induction xs as [|x xs IH]; intros i H; simpl in H; [done|].
  destruct (p x) eqn:Hp.
  - inversion H; subst. exists x. repeat split; auto. intros j y Hj. lia.
  - destruct (findIndex p xs) as [k|] eqn:Hk; simpl in H; [|done].
    inversion H; subst. destruct (IH k eq_refl) as (y & Hy & Hpy & Hlt).
    exists y. repeat split; auto.
    intros [|j] z Hj Hz; simpl in Hz.
    + by inversion Hz; subst.
    + apply (Hlt j); [lia|done].
Qed.

Lemma findIndex_None {A} (p : A -> bool) xs :
  findIndex p xs = None <-> Forall (fun x => p x = false) xs.
Proof.
  induction xs as [|x xs IH]; simpl.
  - split; [constructor|done].
  - destruct (p x) eqn:Hp.
    + split; [done|]. inversion 1; congruence.
    + destruct (findIndex p xs) eqn:Hk; simpl.
      * split; [done|]. inversion 1 as [|? ? ? H3]; subst. by apply IH in H3.
      * split; [|done]. intros _. constructor; [done|]. by apply IH.
Qed.

Lemma findIndex_is_Some {A} (p : A -> bool) xs x :
  x ∈ xs -> p x = true -> is_Some (findIndex p xs).
Proof.
  intros Hin Hp. destruct (findIndex p xs) eqn:H; [eauto|].
  apply findIndex_None in H. rewrite Forall_forall in H.
  specialize (H x Hin). congruence.
Qed.

Lemma findIndex_app_l {A} (p : A -> bool) xs ys i :
  findIndex p xs = Some i -> findIndex p (xs ++ ys) = Some i.
Proof.
  revert i. induction xs as [|x xs IH]; intros i H; simpl in *; [done|].
  destruct (p x); [done|].
  destruct (findIndex p xs) eqn:Hk; simpl in *; [|done].
  by rewrite (IH _ eq_refl).
Qed.

Lemma findIndex_app_r {A} (p : A -> bool) xs ys :
  findIndex p xs = None ->
  findIndex p (xs ++ ys) = (fun k => (length xs + k)%nat) <$> findIndex p ys.
Proof.
  induction xs as [|x xs IH]; intros H; simpl in *.
  - by destruct (findIndex p ys).
  - destruct (p x); [done|].
    destruct (findIndex p xs) eqn:Hk; simpl in *; [done|].
    rewrite IH by done. by destruct (findIndex p ys).
Qed.

Lemma findIndex_lt {A} (p : A -> bool) xs i :
  findIndex p xs = Some i -> (i < length xs)%nat.
Proof.
  intros H. destruct (findIndex_Some _ _ _ H) as (x & Hx & _).
  by eapply lookup_lt_Some.
Qed.

(** Position of the first occurrence of [u]. *)
Definition firstIndex (u : string) (us : list string) : option nat :=
  findIndex (fun v => bool_decide (v = u)) us.

Lemma firstIndex_elem u us : u ∈ us -> is_Some (firstIndex u us).
Proof.
  intros H. apply (findIndex_is_Some _ _ u H). by apply bool_decide_eq_true.
Qed.

Lemma firstIndex_not_elem u us : u ∉ us -> firstIndex u us = None.
Proof.
  intros H. apply findIndex_None, Forall_forall. intros v Hv.
  apply bool_decide_eq_false. intros ->. done.
Qed.

Lemma array_from_set_snoc us x :
  array_from_set (us ++ [x]) = set_add (array_from_set us) x.
Proof. unfold array_from_set. by rewrite foldl_app. Qed.

Lemma array_from_set_elem us u : u ∈ array_from_set us <-> u ∈ us.
Proof.
  induction us as [|x us IH] using rev_ind; [done|].
  rewrite array_from_set_snoc. unfold set_add.
  destruct (decide (x ∈ array_from_set us)) as [Hx|Hx].
  - rewrite IH, elem_of_app, list_elem_of_singleton.
    split; [auto|]. intros [?| ->]; [done|]. by apply IH.
  - rewrite !elem_of_app, IH. done.
Qed.

Lemma array_from_set_NoDup us : NoDup (array_from_set us).
Proof.
  induction us as [|x us IH] using rev_ind; [constructor|].
  rewrite array_from_set_snoc. unfold set_add.
  destruct (decide (x ∈ array_from_set us)) as [Hx|Hx]; [done|].
  apply NoDup_app. split; [done|]. split.
  - intros y Hy Hy'. apply list_elem_of_singleton in Hy'. by subst.
  - apply NoDup_singleton.
Qed.

(** The values of the Set come in the order of their first insertion. *)
Lemma array_from_set_order us i j u v :
  array_from_set us !! i = Some u ->
  array_from_set us !! j = Some v ->
  (i < j)%nat ->
  exists a b, firstIndex u us = Some a /\ firstIndex v us = Some b
              /\ (a < b)%nat.
Proof.
  revert i j u v. induction us as [|x us IH] using rev_ind; intros i j u v.
  - done.
  - rewrite array_from_set_snoc. unfold set_add.
    destruct (decide (x ∈ array_from_set us)) as [Hx|Hx].
    + intros Hi Hj Hlt. destruct (IH _ _ _ _ Hi Hj Hlt) as (a & b & Ha & Hb & ?).
      exists a, b. unfold firstIndex in *.
      by rewrite (findIndex_app_l _ _ _ _ Ha), (findIndex_app_l _ _ _ _ Hb).
    + intros Hi Hj Hlt.
      assert (Hu : array_from_set us !! i = Some u).
      { apply lookup_lt_Some in Hj. rewrite length_app in Hj. simpl in Hj.
        rewrite lookup_app_l in Hi by lia. done. }
      assert (Hue : u ∈ us).
      { apply array_from_set_elem. by eapply list_elem_of_lookup_2. }
      destruct (firstIndex_elem _ _ Hue) as [a Ha].
      destruct (decide (j < length (array_from_set us))%nat) as [Hjl|Hjl].
      * rewrite lookup_app_l in Hj by done.
        destruct (IH _ _ _ _ Hu Hj Hlt) as (a' & b & Ha' & Hb & ?).
        exists a', b. unfold firstIndex in *.
        by rewrite (findIndex_app_l _ _ _ _ Ha'), (findIndex_app_l _ _ _ _ Hb).
      * rewrite lookup_app_r in Hj by lia.
        apply list_lookup_singleton_Some in Hj as [_ <-].
        exists a, (length us). unfold firstIndex in *.
        rewrite (findIndex_app_l _ _ _ _ Ha).
        rewrite findIndex_app_r.
        2:{ apply firstIndex_not_elem. by rewrite <- array_from_set_elem. }
        simpl. rewrite bool_decide_eq_true_2 by done. simpl.
        split; [done|]. split; [f_equal; lia|]. by eapply findIndex_lt.
Qed.

End JsFacts.

(* ===================================================================== *)
(** ** The issue list of the PageSpeed route *)
(* ===================================================================== *)

Module RouteFacts.

Import Route.

Section WithNumber.

Context {number : Type} (lt_0_9 : number -> bool).

Lemma push_issues_omap (audits : gmap string (Audit number)) ids acc :
  push_issues lt_0_9 audits ids acc = acc ++ omap (issue_of lt_0_9 audits) ids.
Proof.
  revert acc. induction ids as [|a ids IH]; intros acc; simpl.
  - by rewrite app_nil_r.
  - destruct (issue_of lt_0_9 audits a); rewrite IH; [|done].
    by rewrite <- app_assoc.
Qed.

Lemma issue_of_Some (audits : gmap string (Audit number)) a i :
  issue_of lt_0_9 audits a = Some i ->
  id i = a /\ exists audit, audits !! a = Some audit
    /\ failed lt_0_9 audit = true
    /\ score i = issueScore (audit_score audit).
Proof.
  unfold issue_of. destruct (audits !! a) as [audit|]; [|done].
  destruct (failed lt_0_9 audit) eqn:Hf; [|done].
  intros [= <-]. simpl. eauto.
Qed.

Lemma omap_issue_ids_sublist (audits : gmap string (Audit number)) ids :
  sublist (id <$> omap (issue_of lt_0_9 audits) ids) ids.
Proof.
  induction ids as [|a ids IH]; simpl; [constructor|].
  destruct (issue_of lt_0_9 audits a) as [i|] eqn:Hi; simpl.
  - apply issue_of_Some in Hi as [-> _]. by constructor.
  - by constructor.
Qed.

Lemma omap_issue_failed (audits : gmap string (Audit number)) ids :
  Forall (fun i => score i = None \/ exists x, score i = Some x /\ lt_0_9 x = true)
    (omap (issue_of lt_0_9 audits) ids).
Proof.
  apply Forall_forall. intros i Hi.
  apply list_elem_of_omap in Hi as (a & _ & Hi).
  apply issue_of_Some in Hi as (_ & audit & _ & Hf & ->).
  unfold failed in Hf. destruct (audit_score audit) as [| |x]; simpl; eauto.
Qed.

(** C10.  Every successful reply of the route carries an issue list in
    which each issue has a score that is [null] or below 0.9 and an id among
    the relevant audit ids, of which there are 19; the ids of the issues
    follow the order of that list (they are a subsequence of it, so no id
    comes twice). *)
Theorem POST_issues_failed_relevant_in_order (req : Request)
    (up : Upstream number) (result : PageSpeedResult number) :
  POST lt_0_9 req up = RespOk result ->
  Forall (fun i => (score i = None \/ exists x, score i = Some x /\ lt_0_9 x = true)
                   /\ id i ∈ relevantAuditIds) (issues result)
  /\ sublist (id <$> issues result) relevantAuditIds
  /\ length relevantAuditIds = 19%nat.
Proof.
  unfold POST. destruct (_ || _); [done|].
  destruct up as [| | | |sc fd audits]; try done.
  intros [= <-]. cbn [issues]. unfold extractIssues.
  rewrite push_issues_omap, app_nil_l.
  pose proof (omap_issue_ids_sublist audits relevantAuditIds) as Hsub.
  pose proof (omap_issue_failed audits relevantAuditIds) as Hf.
  split; [|split; [exact Hsub|reflexivity]].
  apply Forall_forall. intros i Hi. split.
  - rewrite Forall_forall in Hf. by apply Hf.
  - eapply elem_of_sublist; [|exact Hsub]. apply list_elem_of_fmap. eauto.
Qed.

End WithNumber.

(** A run of the route on integers in hundredths ([x < 0.9] is [x < 90]):
    of four audits present, the one with score 1.00 and the one without
    score are no issues, and the two issues come in the order of the list
    of ids, not in the order of the keys. *)
Definition lt90 (x : Z) : bool := (x <? 90)%Z.

Definition sampleAudits : gmap string (Audit Z) :=
  <[ "speed-index" := {| audit_title := "Speed Index";
                         audit_description := "d1";
                         audit_score := NumScore 45%Z;
                         audit_displayValue := Some "6.1 s" |} ]>
  (<[ "image-alt" := {| audit_title := "Image alt";
                        audit_description := "d2";
                        audit_score := NumScore 100%Z;
                        audit_displayValue := None |} ]>
  (<[ "first-contentful-paint" :=
        {| audit_title := "FCP"; audit_description := "d3";
           audit_score := NullScore; audit_displayValue := None |} ]>
  (<[ "document-title" :=
        {| audit_title := "Title"; audit_description := "d4";
           audit_score := NoScore; audit_displayValue := None |} ]> ∅))).

Definition sampleRequest : Request :=
  {| req_url := "https://a.test/"; req_apiKey := "k"; req_strategy := None |}.

Definition sampleUpstream : Upstream Z :=
  UpData {| performance := 95; accessibility := 100; bestPractices := 92;
            seo := 100 |}
         {| fcp := None; fid := None; lcp := None; cls := None |}
         sampleAudits.

Definition sampleResult : PageSpeedResult Z :=
  {| url := "https://a.test/"; strategy := mobile;
     scores := {| performance := 95; accessibility := 100;
                  bestPractices := 92; seo := 100 |};
     fieldData := {| fcp := None; fid := None; lcp := None; cls := None |};
     issues := [ {| id := "first-contentful-paint"; title := "FCP";
                    description := "d3"; score := None;
                    displayValue := None |};
                 {| id := "speed-index"; title := "Speed Index";
                    description := "d1"; score := Some 45%Z;
                    displayValue := Some "6.1 s" |} ] |}.

Example POST_sample : POST lt90 sampleRequest sampleUpstream = RespOk sampleResult.
Proof. vm_compute. reflexivity. Qed.

(** The replies of the route to a failure of the PageSpeed API that carries
    no message. *)
Example POST_fallback_messages :
  POST lt90 sampleRequest (UpNotOk 429 "")
  = RespError 429 "API request failed with status 429"
  /\ POST lt90 sampleRequest (UpThrows "")
     = RespError 500 "Failed to run PageSpeed test"
  /\ POST lt90 sampleRequest (UpNotOk 403 "Forbidden")
     = RespError 403 "Forbidden".
Proof. vm_compute. done. Qed.

(** C10 on the sample reply. *)
Lemma POST_issues_witness :
  Forall (fun i => (score i = None \/ exists x, score i = Some x /\ lt90 x = true)
                   /\ id i ∈ relevantAuditIds) (issues sampleResult)
  /\ sublist (id <$> issues sampleResult) relevantAuditIds
  /\ length relevantAuditIds = 19%nat.
Proof.
  apply (POST_issues_failed_relevant_in_order lt90 sampleRequest sampleUpstream).
  vm_compute. reflexivity.
Defined.

End RouteFacts.

(* ===================================================================== *)
(** ** The initial result list of a manual URL list *)
(* ===================================================================== *)

Module StoreFacts.

Import Page JsFacts.

(** The URL strings of the text area, as [parseManualUrls] sees them before
    it removes duplicates: the trimmed, non-empty pieces. *)
Definition manualTokens (value : string) : list string :=
  filter (fun u => Js.truthy u = true) (Js.trim <$> Js.split_seps value).

(** The result list [handleManualUrlsSubmit] builds for a text. *)
Definition manualStore {number} (value : string) : list (ScanResult number) :=
  initialResults (selectedItem <$> parseManualUrls value).

Lemma manualStore_urls {number} value :
  url <$> @manualStore number value = Js.array_from_set (manualTokens value).
Proof.
  unfold manualStore, initialResults, parseManualUrls, manualTokens.
  rewrite <- !list_fmap_compose. simpl. apply list_fmap_id.
Qed.

(** For every text of the manual URL field, that list holds exactly one
    item per distinct URL string of the input, each of them pending with no
    result and no error, and the items come in the order of the first
    occurrence of their URL in the input. *)
Lemma manual_store_one_pending_item_per_url {number} (value : string) :
  let store : list (ScanResult number) := manualStore value in
  let input := manualTokens value in
  Forall (fun r => r = pendingResult (url r)) store
  /\ NoDup (url <$> store)
  /\ (forall u, u ∈ url <$> store <-> u ∈ input)
  /\ (forall i j ri rj, store !! i = Some ri -> store !! j = Some rj ->
        (i < j)%nat ->
        exists a b, firstIndex (url ri) input = Some a
                    /\ firstIndex (url rj) input = Some b /\ (a < b)%nat).
Proof.
  intros store input. subst store input.
  pose proof (@manualStore_urls number value) as Hurls.
  split; [|split; [|split]].
  - unfold manualStore, initialResults. apply Forall_forall. intros r Hr.
    apply list_elem_of_fmap in Hr as (item & -> & _). reflexivity.
  - rewrite Hurls. apply array_from_set_NoDup.
  - intros u. rewrite Hurls. apply array_from_set_elem.
  - intros i j ri rj Hi Hj Hlt.
    apply (array_from_set_order (manualTokens value) i j); [| |done].
    + rewrite <- Hurls, list_lookup_fmap, Hi. done.
    + rewrite <- Hurls, list_lookup_fmap, Hj. done.
Qed.

(** A text with separators of both kinds, blank pieces and repeated URLs. *)
Example manualStore_sample :
  @manualStore Z
    (" https://b.test/ ,https://a.test/" ++ String (ascii_of_nat 10) "" ++
     ",, https://b.test/,https://c.test/ ,https://a.test/,")%string
  = [ pendingResult "https://b.test/"; pendingResult "https://a.test/";
      pendingResult "https://c.test/" ].
Proof. vm_compute. reflexivity. Qed.

End StoreFacts.

(* ===================================================================== *)
(** ** Completed items carry both results and no error *)
(* ===================================================================== *)

Module CompletedFacts.

Import Page.

Section WithNumber.

Context {number : Type}.

Local Abbreviation ScanResult := (ScanResult number).
Local Abbreviation State := (State number).
Local Abbreviation World := (World number).
Local Abbreviation Ran := (Ran number).

(** A completed item has both device results and no error. *)
Definition completedOk (r : ScanResult) : Prop :=
  status r = completed ->
  is_Some (mobile r) /\ is_Some (desktop r) /\ error r = None.

Definition storeOk (s : State) : Prop := Forall completedOk (scanResults s).

Definition ranOk (r : Ran) : Prop := storeOk (r.1.1).

Lemma completedOk_pending u : completedOk (pendingResult u).
Proof. unfold completedOk. simpl. done. Qed.

Lemma completedOk_markScanning r : completedOk (markScanning r).
Proof. unfold completedOk. simpl. done. Qed.

Lemma completedOk_markError msg r : completedOk (markError msg r).
Proof. unfold completedOk. simpl. done. Qed.

Lemma completedOk_markCompleted m d r : completedOk (markCompleted m d r).
Proof. unfold completedOk. simpl. eauto. Qed.

Lemma completedOk_resetIfError r : completedOk r -> completedOk (resetIfError r).
Proof.
  unfold resetIfError. destruct (isError r); [|done].
  unfold completedOk. simpl. done.
Qed.

Lemma completedOk_resetResult r : completedOk (resetResult r).
Proof. apply completedOk_pending. Qed.

Lemma completedOk_flipIssues r : completedOk r -> completedOk (flipIssues r).
Proof. unfold completedOk. simpl. done. Qed.

Lemma storeOk_updateAt i f s :
  (forall r, completedOk r -> completedOk (f r)) ->
  storeOk s -> storeOk (setScanResults (updateAt i f) s).
Proof.
  unfold storeOk, updateAt. simpl. intros Hf H.
  apply Forall_alter; [done|]. intros x _. apply Hf.
Qed.

Lemma storeOk_initialResults items (s : State) :
  storeOk (setScanResults (fun _ => initialResults items) s).
Proof.
  unfold storeOk, initialResults. simpl. apply Forall_fmap, Forall_forall.
  intros item _. apply completedOk_pending.
Qed.

Lemma storeOk_afterLoop s : storeOk s -> storeOk (afterLoop s).
Proof. done. Qed.

Lemma loopFrom_ok c rest s : storeOk s -> ranOk (loopFrom c rest s).
Proof.
  revert s. induction rest as [|urlItem rest IH]; intros s Hs; simpl.
  - done.
  - destruct (stopScanningRef s); [done|].
    destruct (Js.findIndex _ c) as [i|]; [|by apply IH].
    unfold ranOk. simpl.
    apply (storeOk_updateAt i markScanning
             (setCurrentScanIndex (Some i) s)); [|done].
    intros r _. apply completedOk_markScanning.
Qed.

Lemma startPerformanceScanWithUrls_ok c us s :
  storeOk s -> ranOk (startPerformanceScanWithUrls c us s).
Proof. intros Hs. by apply loopFrom_ok. Qed.

Lemma loopCatch_ok c rest i msg s : storeOk s -> ranOk (loopCatch c rest i msg s).
Proof.
  intros Hs. apply loopFrom_ok, storeOk_updateAt; [|done].
  intros r _. apply completedOk_markError.
Qed.

Lemma resumeLoop_ok nw t o s r :
  storeOk s -> resumeLoop nw t o s = Some r -> ranOk r.
Proof.
  intros Hs. destruct t, o as [[m'|msg]|]; simpl; try done.
  - by intros [= <-].
  - intros [= <-]. by apply loopCatch_ok.
  - destruct (stopScanningRef s); by intros [= <-].
  - assert (storeOk (setScanResults
              (updateAt resultIndex (markCompleted mobileResult m')) s)).
    { apply storeOk_updateAt; [|done]. intros r' _.
      apply completedOk_markCompleted. }
    destruct rest; intros [= <-]; exact H.
  - intros [= <-]. by apply loopCatch_ok.
  - intros [= <-]. by apply loopFrom_ok.
Qed.

Lemma resumeSingle_ok nw t o s r :
  storeOk s -> resumeSingle nw t o s = Some r -> ranOk r.
Proof.
  intros Hs. destruct t, o as [[m'|msg]|]; simpl; try done.
  - by intros [= <-].
  - intros [= <-]. unfold singleCatch, ranOk. simpl.
    apply (storeOk_updateAt index (markError msg) s); [|done].
    intros r' _. apply completedOk_markError.
  - destruct (stopScanningRef s); by intros [= <-].
  - intros [= <-]. unfold ranOk. simpl.
    apply (storeOk_updateAt index (markCompleted mobileResult m') s); [|done].
    intros r' _. apply completedOk_markCompleted.
  - intros [= <-]. unfold singleCatch, ranOk. simpl.
    apply (storeOk_updateAt index (markError msg) s); [|done].
    intros r' _. apply completedOk_markError.
Qed.

Lemma rescanSingleUrl_ok i s r :
  storeOk s -> rescanSingleUrl i s = Some r -> ranOk r.
Proof.
  intros Hs. unfold rescanSingleUrl. destruct (scanResults s !! i); [|done].
  intros [= <-]. unfold ranOk, storeOk, updateAt. simpl.
  apply Forall_alter; [|intros; apply completedOk_markScanning].
  apply Forall_alter; [done|intros; apply completedOk_resetResult].
Qed.

Lemma rescanErrorUrls_ok s r :
  storeOk s -> rescanErrorUrls s = Some r -> ranOk r.
Proof.
  intros Hs. unfold rescanErrorUrls. destruct (filter _ _); [done|].
  intros [= <-]. apply startPerformanceScanWithUrls_ok.
  unfold storeOk. simpl. apply Forall_fmap.
  eapply Forall_impl; [exact Hs|]. intros x. apply completedOk_resetIfError.
Qed.

Lemma startPerformanceScan_ok s r : startPerformanceScan s = Some r -> ranOk r.
Proof.
  unfold startPerformanceScan. destruct (filter _ _) as [|it its]; [done|].
  intros [= <-]. apply startPerformanceScanWithUrls_ok.
  apply (storeOk_initialResults (it :: its)).
Qed.

Lemma handleManualUrlsSubmit_ok nw k v s r :
  handleManualUrlsSubmit nw k v s = Some r -> ranOk r.
Proof.
  unfold handleManualUrlsSubmit.
  destruct (negb _); [done|]. destruct (negb _); [done|].
  destruct (parseManualUrls v); [done|]. intros [= <-].
  unfold ranOk, storeOk. simpl. constructor.
Qed.

Lemma resumeTimer_ok nw t s r :
  storeOk s -> resumeTimer nw t s = Some r -> ranOk r.
Proof.
  intros Hs. destruct t; simpl; try done.
  - destruct (stopScanningRef s); by intros [= <-].
  - intros [= <-]. by apply loopFrom_ok.
  - destruct (stopScanningRef s); by intros [= <-].
  - intros [= <-]. apply startPerformanceScanWithUrls_ok, storeOk_initialResults.
Qed.

Lemma resumeCall_ok nw t o s r :
  storeOk s -> resumeCall nw t o s = Some r -> ranOk r.
Proof.
  intros Hs H. destruct t; unfold resumeCall in H; try done;
    first [ by apply (resumeLoop_ok _ _ _ _ _ Hs H)
          | by apply (resumeSingle_ok _ _ _ _ _ Hs H) ].
Qed.

Lemma resumeSitemap_ok t reply s r :
  storeOk s -> resumeSitemap t reply s = Some r -> ranOk r.
Proof.
  intros Hs. destruct t; simpl; try done.
  destruct reply as [[|u us]|]; by intros [= <-].
Qed.

Lemma spawn_state (w : World) r : state (spawn w r) = r.1.1.
Proof. by destruct r as [[s evs] ot]. Qed.

Lemma continue_state (w : World) id r : state (continue w id r) = r.1.1.
Proof. by destruct r as [[s evs] ot]. Qed.

Lemma step_storeOk (w w' : World) i :
  storeOk (state w) -> step w i = Some w' -> storeOk (state w').
Proof.
  intros Hs. destruct i; simpl.
  - destruct (startOffered _); [|done].
    destruct (startPerformanceScan _) as [r|] eqn:Hr; [|done].
    intros [= <-]. rewrite spawn_state. by eapply startPerformanceScan_ok.
  - destruct (stopOffered _); [|done]. by intros [= <-].
  - destruct (rescanErrorsOffered _); [|done].
    destruct (rescanErrorUrls _) as [r|] eqn:Hr; [|done].
    intros [= <-]. rewrite spawn_state. by eapply rescanErrorUrls_ok.
  - destruct (retryOffered _ _); [|done].
    destruct (rescanSingleUrl _ _) as [r|] eqn:Hr; [|done].
    intros [= <-]. rewrite spawn_state. by eapply rescanSingleUrl_ok.
  - destruct (toggleIssuesOffered _ _); [|done]. intros [= <-]. simpl.
    apply storeOk_updateAt; [|done]. intros r. apply completedOk_flipIssues.
  - destruct (_ && _); [|done].
    destruct (handleManualUrlsSubmit _ _ _ _) as [r|] eqn:Hr; [|done].
    intros [= <-]. rewrite spawn_state. by eapply handleManualUrlsSubmit_ok.
  - destruct (_ && _); [|done]. intros [= <-]. simpl.
    unfold storeOk. simpl. constructor.
  - destruct (modeOffered _); [|done]. by intros [= <-].
  - destruct (selectionShown _); [|done]. by intros [= <-].
  - destruct (selectionShown _); [|done]. by intros [= <-].
  - destruct (lookupTask _ _) as [t|]; [|done]. simpl.
    destruct (resumeCall _ _ _ _) as [r|] eqn:Hr; [|done].
    intros [= <-]. rewrite continue_state. by eapply resumeCall_ok.
  - destruct (lookupTask _ _) as [t|]; [|done]. simpl.
    destruct (resumeSitemap _ _ _) as [r|] eqn:Hr; [|done].
    intros [= <-]. rewrite continue_state. by eapply resumeSitemap_ok.
  - destruct (lookupTask _ _) as [t|]; [|done]. simpl.
    destruct (deadlineOf t) as [d|]; [|done]. simpl.
    destruct (d <=? now w)%N; [|done].
    destruct (resumeTimer _ _ _) as [r|] eqn:Hr; [|done].
    intros [= <-]. rewrite continue_state. by eapply resumeTimer_ok.
  - by intros [= <-].
Qed.

Lemma steps_storeOk (w w' : World) ins :
  storeOk (state w) -> steps w ins = Some w' -> storeOk (state w').
Proof.
  revert w. induction ins as [|i ins IH]; intros w Hs; simpl.
  - by intros [= <-].
  - destruct (step w i) as [w1|] eqn:H1; [|done]. simpl.
    apply IH. by eapply step_storeOk.
Qed.

(** C9.  In every state the page reaches from its first render, by any
    sequence of user actions (start, stop, retry of the failed items, retry
    of one item, and the other controls) interleaved in any way with the
    ends of backend calls and timers, every item whose status is completed
    has a mobile result and a desktop result and has no error. *)
Theorem completed_items_have_both_results (ins : list (Input number)) (w : World) :
  steps initialWorld ins = Some w ->
  forall r, r ∈ scanResults (state w) -> status r = completed ->
    is_Some (mobile r) /\ is_Some (desktop r) /\ error r = None.
Proof.
  intros Hsteps r Hr.
  assert (Hok : storeOk (state w)).
  { eapply steps_storeOk; [|exact Hsteps]. constructor. }
  unfold storeOk in Hok. rewrite Forall_forall in Hok. by apply Hok.
Qed.

End WithNumber.

End CompletedFacts.

(* ===================================================================== *)
(** ** One run of the scan loop *)
(* ===================================================================== *)

Module RunFacts.

Import Page JsFacts.

Section WithNumber.

Context {number : Type}.

Local Abbreviation ScanResult := (ScanResult number).
Local Abbreviation State := (State number).
Local Abbreviation World := (World number).
Local Abbreviation Task := (Task number).
Local Abbreviation Ran := (Ran number).
Local Abbreviation Input := (Input number).

(** *** The parked loop *)

(** The list the loop searches. *)
Definition capturedOf (t : Task) : option (list ScanResult) :=
  match t with
  | LoopMobile c _ _ _ | LoopPace1 c _ _ _ _ _ | LoopDesktop c _ _ _ _
  | LoopPace2 c _ _ => Some c
  | _ => None
  end.

(** The item in progress with its index, if the turn has not ended. *)
Definition currentOf (t : Task) : option (UrlItem * nat) :=
  match t with
  | LoopMobile _ it _ i | LoopPace1 _ it _ i _ _ | LoopDesktop _ it _ i _ =>
      Some (it, i)
  | _ => None
  end.

(** The items of later turns. *)
Definition restOf (t : Task) : list UrlItem :=
  match t with
  | LoopMobile _ _ rest _ | LoopPace1 _ _ rest _ _ _
  | LoopDesktop _ _ rest _ _ | LoopPace2 _ rest _ => rest
  | _ => []
  end.

(** The items whose turn has not ended. *)
Definition todoOf (t : Task) : list UrlItem :=
  match currentOf t with
  | Some (it, _) => it :: restOf t
  | None => restOf t
  end.

(** The index [findIndex] gives for an item. *)
Definition indexIn (c : list ScanResult) (it : UrlItem) : option nat :=
  Js.findIndex (hasUrl (item_url it)) c.

(** A loop over [c], parked with the index of its item as found in [c]. *)
Definition loopOver (c : list ScanResult) (t : Task) : Prop :=
  capturedOf t = Some c
  /\ forall it i, currentOf t = Some (it, i) -> indexIn c it = Some i.

(** The world holds one parked task, [t] under [id]. *)
Definition alone (id : nat) (t : Task) (w : World) : Prop :=
  tasks w = [(id, t)].

Definition advance (w : World) (ms : N) : World :=
  {| state := state w; tasks := tasks w; nextId := nextId w;
     now := (now w + ms)%N; log := log w |}.

Lemma indexIn_url c it i :
  indexIn c it = Some i -> exists r, c !! i = Some r /\ url r = item_url it.
Proof.
  intros H. apply findIndex_Some in H as (r & Hr & Hp & _).
  exists r. split; [done|]. unfold hasUrl in Hp.
  by apply bool_decide_eq_true in Hp.
Qed.

Lemma indexIn_inj c it it' i :
  indexIn c it = Some i -> indexIn c it' = Some i -> item_url it = item_url it'.
Proof.
  intros H H'. apply indexIn_url in H as (r & Hr & <-).
  apply indexIn_url in H' as (r' & Hr' & <-). congruence.
Qed.

(** With distinct URLs in [c], the index of an item is the position of the
    one result with its URL. *)
Lemma indexIn_NoDup c it i r :
  NoDup (url <$> c) -> c !! i = Some r -> url r = item_url it ->
  indexIn c it = Some i.
Proof.
  intros Hnd Hi Hu.
  assert (Hin : r ∈ c) by (by eapply list_elem_of_lookup_2).
  destruct (findIndex_is_Some (hasUrl (item_url it)) c r Hin) as [k Hk].
  { by apply bool_decide_eq_true. }
  unfold indexIn. rewrite Hk. f_equal.
  apply indexIn_url in Hk as (r' & Hr' & Hu').
  eapply (NoDup_lookup (url <$> c)); [done| |].
  - rewrite list_lookup_fmap, Hr'. simpl. by rewrite Hu'.
  - rewrite list_lookup_fmap, Hi. simpl. by rewrite Hu.
Qed.

(** *** What the loop does from the top of a turn *)

(** The state after the loop picked the item at [i]. *)
Definition picked (i : nat) (s : State) : State :=
  setCurrentScanDevice (Some Route.mobile)
    (setScanResults (updateAt i markScanning)
       (setCurrentScanIndex (Some i) s)).

Lemma loopFrom_nil c (s : State) : loopFrom c [] s = (afterLoop s, [], None).
Proof. done. Qed.

Lemma loopFrom_stopped c rest (s : State) :
  stopScanningRef s = true -> loopFrom c rest s = (afterLoop s, [], None).
Proof. intros H. destruct rest; simpl; [done|]. by rewrite H. Qed.

Lemma loopFrom_found c it rest i (s : State) :
  stopScanningRef s = false -> indexIn c it = Some i ->
  loopFrom c (it :: rest) s
  = (picked i s, [EvCall (item_url it) Route.mobile],
     Some (LoopMobile c it rest i)).
Proof. intros Hs Hi. simpl. unfold indexIn in Hi. by rewrite Hs, Hi. Qed.

(** In general the loop ends, or parks on the mobile call of the first item
    of [rest] that [findIndex] finds. *)
Lemma loopFrom_inv c rest (s : State) :
  loopFrom c rest s = (afterLoop s, [], None)
  \/ exists skipped it rest' i,
       rest = skipped ++ it :: rest' /\ indexIn c it = Some i
       /\ Forall (fun x => indexIn c x = None) skipped
       /\ stopScanningRef s = false
       /\ loopFrom c rest s
          = (picked i s, [EvCall (item_url it) Route.mobile],
             Some (LoopMobile c it rest' i)).
Proof.
  induction rest as [|it rest IH]; [by left|].
  destruct (stopScanningRef s) eqn:Hs.
  { left. by apply loopFrom_stopped. }
  destruct (indexIn c it) as [i|] eqn:Hi.
  - right. exists [], it, rest, i. repeat split; auto.
    by apply loopFrom_found.
  - assert (Heq : loopFrom c (it :: rest) s = loopFrom c rest s).
    { simpl. unfold indexIn in Hi. by rewrite Hs, Hi. }
    rewrite Heq. destruct IH as [IH|(sk & it' & rest' & i & -> & ? & ? & ? & ?)].
    + by left.
    + right. exists (it :: sk), it', rest', i. repeat split; auto.
Qed.

(** *** Steps of a world with one parked task *)

Lemma lookupTask_alone id (t : Task) k :
  lookupTask k [(id, t)] = (if (id =? k)%nat then Some t else None).
Proof. done. Qed.

Lemma continue_alone id t (w : World) s evs ot :
  alone id t w ->
  continue w id (s, evs, ot)
  = {| state := s;
       tasks := match ot with Some t' => [(id, t')] | None => [] end;
       nextId := nextId w; now := now w; log := log w ++ evs |}.
Proof.
  unfold alone, continue. intros ->. simpl. rewrite Nat.eqb_refl.
  by destruct ot.
Qed.

(** The passive steps of a world with one parked task. *)
Lemma alone_step id t (w w' : World) (i : Input) :
  alone id t w -> passive i = true -> step w i = Some w' ->
  match i with
  | ClickStop => w' = write w (stopScan (state w))
  | Advance ms => w' = advance w ms
  | Respond k o =>
      k = id /\ exists r, resumeCall (now w) t o (state w) = Some r
                          /\ w' = continue w id r
  | Fire k =>
      k = id /\ exists d r, deadlineOf t = Some d /\ (d <= now w)%N
                 /\ resumeTimer (now w) t (state w) = Some r
                 /\ w' = continue w id r
  | _ => False
  end.
Proof.
  intros Hal Hp Hstep. destruct i; simpl in Hp; try done; simpl in Hstep.
  - destruct (stopOffered _); [|done]. by inversion Hstep.
  - rewrite Hal, lookupTask_alone in Hstep.
    destruct (Nat.eqb_spec id id0) as [->|]; [|done]. simpl in Hstep.
    split; [done|].
    destruct (resumeCall _ _ _ _) as [r|]; [|done].
    exists r. split; [done|]. by inversion Hstep.
  - rewrite Hal, lookupTask_alone in Hstep.
    destruct (Nat.eqb_spec id id0) as [->|]; [|done]. simpl in Hstep.
    split; [done|].
    destruct (deadlineOf t) as [d|]; [|done]. simpl in Hstep.
    destruct (N.leb_spec d (now w)); [|done].
    destruct (resumeTimer _ _ _) as [r|]; [|done].
    exists d, r. repeat split; auto. by inversion Hstep.
  - by inversion Hstep.
Qed.

(** The passive steps of a world with no parked task. *)
Lemma idle_step (w w' : World) (i : Input) :
  tasks w = [] -> passive i = true -> step w i = Some w' ->
  tasks w' = [] /\ log w' = log w
  /\ scanResults (state w') = scanResults (state w).
Proof.
  intros Hts Hp Hstep. destruct i; simpl in Hp; try done; simpl in Hstep.
  - destruct (stopOffered _); [|done]. by inversion Hstep.
  - by rewrite Hts in Hstep.
  - by rewrite Hts in Hstep.
  - by inversion Hstep.
Qed.

(** *** Frame: a run writes only the results of its own items *)

(** [j] is the index the loop finds for one of the items [T]. *)
Definition touches (c : list ScanResult) (T : list UrlItem) (j : nat) : Prop :=
  exists it, it ∈ T /\ indexIn c it = Some j.

(** The calls among the events are for URLs of the items [T]. *)
Definition callsWithin (T : list UrlItem) (evs : list Event) : Prop :=
  forall u d, EvCall u d ∈ evs -> exists it, it ∈ T /\ item_url it = u.

(** What a piece of the loop may do when its remaining items are among
    [T]. *)
Definition ranFrame (c : list ScanResult) (T : list UrlItem) (s : State)
    (r : Ran) : Prop :=
  (forall j, ~ touches c T j -> scanResults (r.1.1) !! j = scanResults s !! j)
  /\ callsWithin T (r.1.2)
  /\ (forall t', r.2 = Some t' -> loopOver c t' /\ todoOf t' ⊆ T).

Lemma callsWithin_nil T : callsWithin T [].
Proof. intros u d H. by apply elem_of_nil in H. Qed.

Lemma callsWithin_pace T : callsWithin T [EvPace].
Proof. intros u d H. apply list_elem_of_singleton in H. done. Qed.

Lemma callsWithin_call T it d :
  it ∈ T -> callsWithin T [EvCall (item_url it) d].
Proof.
  intros Hit u d' H. apply list_elem_of_singleton in H. inversion H; subst.
  eauto.
Qed.

Lemma callsWithin_app T evs evs' :
  callsWithin T evs -> callsWithin T evs' -> callsWithin T (evs ++ evs').
Proof.
  intros H H' u d Hin. apply elem_of_app in Hin as [?|?]; eauto.
Qed.

Lemma updateAt_other i j f (l : list ScanResult) :
  i <> j -> updateAt i f l !! j = l !! j.
Proof. intros. unfold updateAt. by apply list_lookup_alter_ne. Qed.

Lemma touches_not c T it i j :
  it ∈ T -> indexIn c it = Some i -> ~ touches c T j -> i <> j.
Proof. intros Hit Hi Hj ->. apply Hj. by exists it. Qed.

Lemma loopFrom_frame c T rest (s : State) :
  rest ⊆ T -> ranFrame c T s (loopFrom c rest s).
Proof.
  intros Hsub.
  destruct (loopFrom_inv c rest s)
    as [->|(sk & it & rest' & i & -> & Hi & _ & _ & ->)].
  - split; [done|]. split; [apply callsWithin_nil|done].
  - assert (Hit : it ∈ T) by (apply Hsub; set_solver).
    split; [|split].
    + intros j Hj. simpl. apply updateAt_other. by eapply touches_not.
    + by apply callsWithin_call.
    + simpl. intros t' [= <-]. split.
      * split; [done|]. simpl. by intros ? ? [= <- <-].
      * unfold todoOf. simpl. intros x Hx. apply Hsub, elem_of_app. by right.
Qed.

Lemma loopCatch_frame c T rest i it msg (s : State) :
  it ∈ T -> indexIn c it = Some i -> rest ⊆ T ->
  ranFrame c T s (loopCatch c rest i msg s).
Proof.
  intros Hit Hi Hsub. unfold loopCatch.
  destruct (loopFrom_frame c T rest
              (setScanResults (updateAt i (markError msg)) s) Hsub)
    as (Hst & Hlog & Ht).
  split; [|done]. intros j Hj. rewrite (Hst j Hj). simpl.
  apply updateAt_other. by eapply touches_not.
Qed.

Lemma resumeLoop_frame c T nw t o (s : State) r :
  loopOver c t -> todoOf t ⊆ T -> resumeLoop nw t o s = Some r ->
  ranFrame c T s r.
Proof.
  intros [Hc Hcur] Hsub.
  destruct t, o as [[m'|msg]|]; simpl; try done;
    simpl in Hc; injection Hc as ->; unfold todoOf in Hsub; simpl in Hsub.
  - intros [= <-]. split; [done|]. split; [apply callsWithin_pace|].
    simpl. intros t' [= <-]. split; [|done]. split; [done|]. apply Hcur.
  - intros [= <-]. eapply loopCatch_frame; [|by apply Hcur|]; set_solver.
  - destruct (stopScanningRef s); intros [= <-].
    + split; [done|]. split; [apply callsWithin_nil|done].
    + split; [done|]. split; [apply callsWithin_call; set_solver|].
      simpl. intros t' [= <-]. split; [|done]. split; [done|]. apply Hcur.
  - assert (Hi : indexIn c urlItem = Some resultIndex) by by apply Hcur.
    assert (Hit : urlItem ∈ T) by set_solver.
    destruct rest as [|it2 rest]; intros [= <-].
    + split; [|split; [apply callsWithin_nil|done]].
      intros j Hj. simpl. apply updateAt_other. by eapply touches_not.
    + split; [|split; [apply callsWithin_pace|]].
      * intros j Hj. simpl. apply updateAt_other. by eapply touches_not.
      * simpl. intros t' [= <-].
        split; [|unfold todoOf; simpl; intros x Hx; apply Hsub;
                 by apply elem_of_cons; right].
        split; [done|]. simpl. done.
  - intros [= <-]. eapply loopCatch_frame; [|by apply Hcur|]; set_solver.
  - intros [= <-]. by apply loopFrom_frame.
Qed.

(** The frame of a run, against the results [l0] and the events [log0] it
    started from: the one task, if it is still parked, is the loop with its
    remaining items among [T]; the results outside the indices of [T] are
    those of [l0]; the calls since [log0] are for URLs of [T]. *)
Record Frame (c : list ScanResult) (id : nat) (T : list UrlItem)
    (l0 : list ScanResult) (log0 : list Event) (w : World) : Prop := {
  frame_tasks :
    tasks w = [] \/ exists t, alone id t w /\ loopOver c t /\ todoOf t ⊆ T;
  frame_store :
    forall j, ~ touches c T j -> scanResults (state w) !! j = l0 !! j;
  frame_log : exists evs, log w = log0 ++ evs /\ callsWithin T evs;
}.

Lemma resume_loopOver c nw t (s : State) :
  loopOver c t ->
  (forall o, resumeCall nw t o s = resumeLoop nw t (Some o) s)
  /\ resumeTimer nw t s = resumeLoop nw t None s.
Proof. intros [Hc _]. destruct t; simpl in Hc; try done. Qed.

Lemma Frame_continue c id T l0 log0 t (w : World) r :
  Frame c id T l0 log0 w -> alone id t w -> ranFrame c T (state w) r ->
  Frame c id T l0 log0 (continue w id r).
Proof.
  intros [_ Hst (evs & Hlog & Hev)] Hal (Hst' & Hev' & Ht').
  destruct r as [[s' evs'] ot]. rewrite (continue_alone id t w) by done.
  simpl in *. split; simpl.
  - destruct ot as [t'|]; [|by left]. right. exists t'.
    destruct (Ht' t' eq_refl). done.
  - intros j Hj. rewrite Hst' by done. by apply Hst.
  - exists (evs ++ evs'). rewrite Hlog, app_assoc. split; [done|].
    by apply callsWithin_app.
Qed.

Lemma Frame_step c id T l0 log0 (w w' : World) (i : Input) :
  Frame c id T l0 log0 w -> passive i = true -> step w i = Some w' ->
  Frame c id T l0 log0 w'.
Proof.
  intros HF Hp Hstep.
  destruct (frame_tasks _ _ _ _ _ _ HF) as [Hidle|(t & Hal & Hover & Hsub)].
  - destruct (idle_step w w' i Hidle Hp Hstep) as (Ht & Hl & Hs).
    destruct HF as [_ Hst Hlog]. split.
    + by left.
    + intros j Hj. rewrite Hs. by apply Hst.
    + by rewrite Hl.
  - pose proof (alone_step id t w w' i Hal Hp Hstep) as Hcase.
    destruct (resume_loopOver c (now w) t (state w) Hover) as [Hcall Htimer].
    destruct i; try done.
    + subst w'. destruct HF as [Ht Hst Hlog]. by split.
    + destruct Hcase as (-> & r & Hr & ->). rewrite Hcall in Hr.
      eapply Frame_continue; [done..|]. by eapply resumeLoop_frame.
    + destruct Hcase as (-> & d & r & _ & _ & Hr & ->). rewrite Htimer in Hr.
      eapply Frame_continue; [done..|]. by eapply resumeLoop_frame.
    + subst w'. destruct HF as [Ht Hst Hlog]. by split.
Qed.

Lemma Frame_steps c id T l0 log0 (w w' : World) (ins : list Input) :
  Frame c id T l0 log0 w -> forallb passive ins = true ->
  steps w ins = Some w' -> Frame c id T l0 log0 w'.
Proof.
  revert w. induction ins as [|i ins IH]; intros w HF Hp; simpl.
  - by intros [= <-].
  - simpl in Hp. apply andb_prop in Hp as [Hp1 Hp2].
    destruct (step w i) as [w1|] eqn:H1; [|done]. simpl.
    apply IH; [|done]. by eapply Frame_step.
Qed.


(** *** Retry of the failed items *)

(** The queue [rescanErrorUrls] builds. *)
Definition errorQueue (c : list ScanResult) : list UrlItem :=
  (fun r => selectedItem (url r)) <$> filter (fun r => isError r = true) c.

Lemma isError_failed (r : ScanResult) : isError r = true <-> status r = failed.
Proof. unfold isError. destruct (status r); split; done. Qed.

Lemma errorQueue_elem c it :
  it ∈ errorQueue c ->
  exists r, r ∈ c /\ status r = failed /\ item_url it = url r.
Proof.
  unfold errorQueue. intros H.
  apply list_elem_of_fmap in H as (r & -> & Hr).
  apply list_elem_of_filter in Hr as [He Hr]. exists r.
  split; [done|]. split; [by apply isError_failed|done].
Qed.

Lemma rescanErrorUrls_Some (s : State) (r : Ran) :
  rescanErrorUrls s = Some r ->
  r = startPerformanceScanWithUrls (scanResults s) (errorQueue (scanResults s))
        (setScanResults (fmap resetIfError) s).
Proof.
  unfold rescanErrorUrls, errorQueue.
  destruct (filter _ (scanResults s)); [done|]. by intros [= <-].
Qed.

(** With distinct URLs, the loop over the failed items finds only failed
    results. *)
Lemma errorQueue_touches c j r :
  NoDup (url <$> c) -> c !! j = Some r -> touches c (errorQueue c) j ->
  status r = failed.
Proof.
  intros Hnd Hj (it & Hit & Hi).
  apply errorQueue_elem in Hit as (r' & Hr' & Hf & Hu).
  apply list_elem_of_lookup_1 in Hr' as [k Hk].
  assert (Hi' : indexIn c it = Some k) by (by eapply indexIn_NoDup).
  rewrite Hi in Hi'. injection Hi' as ->. congruence.
Qed.

Lemma spawn_idle (w : World) s evs ot :
  tasks w = [] ->
  spawn w (s, evs, ot)
  = {| state := s;
       tasks := match ot with Some t => [(nextId w, t)] | None => [] end;
       nextId := match ot with Some _ => S (nextId w) | None => nextId w end;
       now := now w; log := log w ++ evs |}.
Proof. unfold spawn. intros ->. by destruct ot. Qed.

(** A run of [startPerformanceScanWithUrls] starts within its frame. *)
Lemma Frame_start c T l0 (w : World) (s : State) :
  tasks w = [] ->
  (forall j, ~ touches c T j -> scanResults s !! j = l0 !! j) ->
  Frame c (nextId w) T l0 (log w)
    (spawn w (startPerformanceScanWithUrls c T s)).
Proof.
  intros Hidle Hst. unfold startPerformanceScanWithUrls.
  set (s1 := setStopScanningRef false (setIsScanning true s)).
  destruct (loopFrom_frame c T T s1) as (Hst' & Hev & Ht); [done|].
  destruct (loopFrom c T s1) as [[s' evs] ot]. rewrite spawn_idle by done.
  simpl in *. split; simpl.
  - destruct ot as [t|]; [|by left]. right. exists t.
    destruct (Ht t eq_refl). done.
  - intros j Hj. rewrite Hst' by done. by apply Hst.
  - by exists evs.
Qed.

(** C1.  A retry of the failed items, started on a page with no run in
    progress whose results have distinct URLs: whatever the backend answers
    and whenever the user stops the run, every result that was not failed
    (a completed one in particular) stays exactly as it was, with its URL,
    status, mobile result, desktop result and error, at every moment of the
    run and after it; and every backend call of the run is for the URL of
    a result that was failed. *)
Theorem retry_failed_leaves_other_items (w w1 w' : World) (ins : list Input) :
  tasks w = [] ->
  NoDup (url <$> scanResults (state w)) ->
  step w ClickRescanErrors = Some w1 ->
  forallb passive ins = true ->
  steps w1 ins = Some w' ->
  (forall j r, scanResults (state w) !! j = Some r -> status r <> failed ->
     scanResults (state w') !! j = Some r)
  /\ exists evs, log w' = log w ++ evs
       /\ forall u d, EvCall u d ∈ evs ->
            exists r, r ∈ scanResults (state w) /\ status r = failed
                      /\ url r = u.
Proof.
  intros Hidle Hnd Hstep Hp Hsteps. simpl in Hstep.
  destruct (rescanErrorsOffered _); [|done].
  destruct (rescanErrorUrls (state w)) as [r0|] eqn:Hr0; [|done].
  apply rescanErrorUrls_Some in Hr0 as ->.
  simpl in Hstep. injection Hstep as <-.
  set (c := scanResults (state w)) in *.
  assert (HF : Frame c (nextId w) (errorQueue c) c (log w) w').
  { eapply Frame_steps; [|done|exact Hsteps].
    apply Frame_start; [done|]. intros j Hj. simpl. fold c.
    rewrite list_lookup_fmap. destruct (c !! j) as [r|] eqn:Hr; [|done].
    simpl. f_equal. unfold resetIfError.
    destruct (isError r) eqn:He; [|done].
    exfalso. apply Hj. exists (selectedItem (url r)). split.
    - unfold errorQueue. apply list_elem_of_fmap. exists r. split; [done|].
      apply list_elem_of_filter. split; [done|].
      by eapply list_elem_of_lookup_2.
    - by eapply indexIn_NoDup. }
  destruct HF as [_ Hst (evs & Hlog & Hev)]. split.
  - intros j r Hj Hnf. rewrite Hst; [done|].
    intros Ht. apply Hnf. by eapply errorQueue_touches.
  - exists evs. split; [done|]. intros u d Hin.
    destruct (Hev u d Hin) as (it & Hit & <-).
    apply errorQueue_elem in Hit as (r & ? & ? & ?). eauto.
Qed.


(** Without the assumption of distinct URLs: a retry of the failed items
    leaves every result whose URL is not the URL of a failed result. *)
Lemma retry_failed_leaves_other_urls (w w1 w' : World) (ins : list Input) :
  tasks w = [] ->
  step w ClickRescanErrors = Some w1 ->
  forallb passive ins = true ->
  steps w1 ins = Some w' ->
  forall j r, scanResults (state w) !! j = Some r ->
    (forall r', r' ∈ scanResults (state w) -> status r' = failed ->
       url r' <> url r) ->
    scanResults (state w') !! j = Some r.
Proof.
  intros Hidle Hstep Hp Hsteps j r Hj Hother. simpl in Hstep.
  destruct (rescanErrorsOffered _); [|done].
  destruct (rescanErrorUrls (state w)) as [r0|] eqn:Hr0; [|done].
  apply rescanErrorUrls_Some in Hr0 as ->.
  simpl in Hstep. injection Hstep as <-.
  set (c := scanResults (state w)) in *.
  assert (Hnt : forall k rk, c !! k = Some rk ->
            (forall r', r' ∈ c -> status r' = failed -> url r' <> url rk) ->
            ~ touches c (errorQueue c) k).
  { intros k rk Hk Hno (it & Hit & Hi).
    apply errorQueue_elem in Hit as (r' & Hr' & Hf & Hu).
    apply indexIn_url in Hi as (rk' & Hk' & Hu').
    apply (Hno r' Hr' Hf). congruence. }
  assert (HF : Frame c (nextId w) (errorQueue c)
                 (resetIfError <$> c) (log w) w').
  { eapply Frame_steps; [|done|exact Hsteps]. by apply Frame_start. }
  destruct HF as [_ Hst _]. rewrite Hst by (by eapply Hnt).
  rewrite list_lookup_fmap, Hj. simpl. f_equal.
  unfold resetIfError. destruct (isError r) eqn:He; [|done].
  exfalso. apply (Hother r); [by eapply list_elem_of_lookup_2| |done].
  by apply isError_failed.
Qed.

(** *** The events of a run that is neither stopped nor failing *)

(** The pause before the next item: [if (i < urlsToScan.length - 1)]. *)
Definition paceBefore (rest : list UrlItem) (evs : list Event) : list Event :=
  match rest with
  | [] => []
  | _ :: _ => EvPace :: evs
  end.

(** The events of a whole run over [queue]: for each item its mobile call,
    a pause, its desktop call and, unless it is the last item, a pause. *)
Fixpoint expectedEvents (queue : list UrlItem) : list Event :=
  match queue with
  | [] => []
  | it :: rest =>
      [EvCall (item_url it) Route.mobile; EvPace;
       EvCall (item_url it) Route.desktop]
      ++ paceBefore rest (expectedEvents rest)
  end.

(** The events still to come from a parked loop. *)
Definition futureEvents (t : Task) : list Event :=
  match t with
  | LoopMobile _ it rest _ =>
      [EvPace; EvCall (item_url it) Route.desktop]
      ++ paceBefore rest (expectedEvents rest)
  | LoopPace1 _ it rest _ _ _ =>
      [EvCall (item_url it) Route.desktop]
      ++ paceBefore rest (expectedEvents rest)
  | LoopDesktop _ _ rest _ _ => paceBefore rest (expectedEvents rest)
  | LoopPace2 _ rest _ => expectedEvents rest
  | _ => []
  end.

(** Every item has a result in the list the loop searches. *)
Definition allFound (c : list ScanResult) (queue : list UrlItem) : Prop :=
  Forall (fun it => is_Some (indexIn c it)) queue.

(** The inputs of a run in which nothing fails and nobody stops. *)
Definition smooth (i : Input) : bool :=
  match i with
  | Respond _ (Returns _) | Fire _ | Advance _ => true
  | _ => false
  end.

Lemma smooth_passive i : smooth i = true -> passive i = true.
Proof. by destruct i. Qed.

(** The run is on its way to the events [total]. *)
Definition onTrack (c : list ScanResult) (id : nat) (total : list Event)
    (w : World) : Prop :=
  (tasks w = [] /\ log w = total)
  \/ exists t, alone id t w /\ loopOver c t /\ allFound c (restOf t)
       /\ stopScanningRef (state w) = false
       /\ log w ++ futureEvents t = total.

Lemma loopFrom_onTrack c id t total rest (w : World) (s : State) :
  alone id t w -> allFound c rest -> stopScanningRef s = false ->
  log w ++ expectedEvents rest = total ->
  onTrack c id total (continue w id (loopFrom c rest s)).
Proof.
  intros Hal Hfound Hs Hlog. destruct rest as [|it rest].
  - rewrite loopFrom_nil, (continue_alone id t) by done. left. simpl.
    by rewrite app_nil_r in *.
  - inversion Hfound as [|? ? [i Hi] Hfound']; subst.
    rewrite (loopFrom_found c it rest i) by done.
    rewrite (continue_alone id t) by done. right.
    exists (LoopMobile c it rest i). repeat split; simpl; auto.
    + by intros ? ? [= <- <-].
    + by rewrite <- app_assoc.
Qed.

Lemma onTrack_step c id total (w w' : World) (i : Input) :
  onTrack c id total w -> smooth i = true -> step w i = Some w' ->
  onTrack c id total w'.
Proof.
  intros [[Hidle Hlog]|(t & Hal & Hover & Hfound & Hs & Hlog)] Hsm Hstep.
  - destruct (idle_step w w' i Hidle (smooth_passive i Hsm) Hstep)
      as (Ht & Hl & _).
    left. by rewrite Hl.
  - pose proof (alone_step id t w w' i Hal (smooth_passive i Hsm) Hstep)
      as Hcase.
    destruct (resume_loopOver c (now w) t (state w) Hover) as [Hcall Htimer].
    destruct Hover as [Hc Hcur].
    destruct i as [| | | | | | | | | |k [m'|msg]| |k|ms]; try done.
    + (* a backend call returns *)
      destruct Hcase as (-> & r & Hr & ->). rewrite Hcall in Hr.
      destruct t; simpl in Hr; try done; simpl in Hc; injection Hc as ->.
      * injection Hr as <-. rewrite (continue_alone id _ w) by done.
        right. eexists. repeat split; simpl; eauto.
        rewrite <- Hlog. simpl. by rewrite <- app_assoc.
      * simpl in Hfound, Hlog. destruct rest as [|it2 rest]; injection Hr as <-.
        -- rewrite (continue_alone id _ w) by done.
           left. simpl. by rewrite app_nil_r in *.
        -- rewrite (continue_alone id _ w) by done.
           right. eexists. repeat split; simpl; eauto.
           ++ done.
           ++ rewrite <- Hlog. simpl. by rewrite <- app_assoc.
    + (* a timer fires *)
      destruct Hcase as (-> & d & r & _ & _ & Hr & ->). rewrite Htimer in Hr.
      destruct t; simpl in Hr; try done; simpl in Hc; injection Hc as ->.
      * rewrite Hs in Hr. injection Hr as <-.
        rewrite (continue_alone id _ w) by done.
        right. eexists. repeat split; simpl; eauto.
        rewrite <- Hlog. simpl. by rewrite <- app_assoc.
      * injection Hr as <-. by eapply loopFrom_onTrack.
    + (* time passes *)
      subst w'. right. exists t. by repeat split.
Qed.

Lemma onTrack_steps c id total (w w' : World) (ins : list Input) :
  onTrack c id total w -> forallb smooth ins = true ->
  steps w ins = Some w' -> onTrack c id total w'.
Proof.
  revert w. induction ins as [|i ins IH]; intros w HT Hp; simpl.
  - by intros [= <-].
  - simpl in Hp. apply andb_prop in Hp as [Hp1 Hp2].
    destruct (step w i) as [w1|] eqn:H1; [|done]. simpl.
    apply IH; [|done]. by eapply onTrack_step.
Qed.

Lemma onTrack_start c queue (w : World) (s : State) :
  tasks w = [] -> allFound c queue ->
  onTrack c (nextId w) (log w ++ expectedEvents queue)
    (spawn w (startPerformanceScanWithUrls c queue s)).
Proof.
  intros Hidle Hfound. unfold startPerformanceScanWithUrls.
  destruct queue as [|it rest].
  - rewrite loopFrom_nil, spawn_idle by done. left. simpl.
    by rewrite !app_nil_r.
  - inversion Hfound as [|? ? [i Hi] Hfound']; subst.
    rewrite (loopFrom_found c it rest i) by done.
    rewrite spawn_idle by done. right.
    exists (LoopMobile c it rest i). repeat split; simpl; auto.
    + by intros ? ? [= <- <-].
    + by rewrite <- app_assoc.
Qed.

(** C3 (as amended).  A run of the loop, started from any handler (with
    the state [s] that handler has written) on a page with no run in
    progress, over a queue whose items all have a result in the list the
    loop searches, that nobody stops and in which every backend call
    returns: when the run has ended, the events of the run are exactly, for
    each item in queue order, its mobile call, a pause, its desktop call,
    and a pause before the next item; after the desktop call of the last
    item there is no pause. *)
Theorem smooth_run_events (c : list ScanResult) (queue : list UrlItem)
    (w w' : World) (s : State) (ins : list Input) :
  tasks w = [] ->
  allFound c queue ->
  forallb smooth ins = true ->
  steps (spawn w (startPerformanceScanWithUrls c queue s)) ins = Some w' ->
  tasks w' = [] ->
  log w' = log w ++ expectedEvents queue.
Proof.
  intros Hidle Hfound Hsm Hsteps Hend.
  destruct (onTrack_steps c (nextId w) _ _ w' ins
              (onTrack_start c queue w s Hidle Hfound) Hsm Hsteps)
    as [[_ Hlog]|(t & Hal & _)]; [done|].
  unfold alone in Hal. by rewrite Hend in Hal.
Qed.


(** *** Every item gets its turn when nobody stops the run *)

(** The URLs of the mobile calls among the events, in order. *)
Definition mobileCalls (evs : list Event) : list string :=
  omap (fun e => match e with
                 | EvCall u Route.mobile => Some u
                 | _ => None
                 end) evs.

Lemma mobileCalls_app evs evs' :
  mobileCalls (evs ++ evs') = mobileCalls evs ++ mobileCalls evs'.
Proof. apply omap_app. Qed.

(** The inputs of a run that nobody stops; the backend may fail. *)
Definition unstopped (i : Input) : bool :=
  match i with
  | Respond _ _ | Fire _ | Advance _ => true
  | _ => false
  end.

Lemma unstopped_passive i : unstopped i = true -> passive i = true.
Proof. by destruct i. Qed.

Lemma unstopped_all_passive (ins : list Input) :
  forallb unstopped ins = true -> forallb passive ins = true.
Proof.
  induction ins as [|i ins IH]; simpl; [done|].
  intros H. apply andb_prop in H as [H1 H2].
  by rewrite (unstopped_passive i H1), IH.
Qed.

(** The run is on its way to the mobile calls [total]. *)
Definition serving (c : list ScanResult) (id : nat) (total : list string)
    (w : World) : Prop :=
  (tasks w = [] /\ mobileCalls (log w) = total)
  \/ exists t, alone id t w /\ loopOver c t /\ allFound c (restOf t)
       /\ stopScanningRef (state w) = false
       /\ mobileCalls (log w) ++ (item_url <$> restOf t) = total.

Lemma loopFrom_serving c id t total rest (w : World) (s : State) :
  alone id t w -> allFound c rest -> stopScanningRef s = false ->
  mobileCalls (log w) ++ (item_url <$> rest) = total ->
  serving c id total (continue w id (loopFrom c rest s)).
Proof.
  intros Hal Hfound Hs Hlog. destruct rest as [|it rest].
  - rewrite loopFrom_nil, (continue_alone id t) by done. left. simpl.
    by rewrite app_nil_r in *.
  - inversion Hfound as [|? ? [i Hi] Hfound']; subst.
    rewrite (loopFrom_found c it rest i) by done.
    rewrite (continue_alone id t) by done. right.
    exists (LoopMobile c it rest i). repeat split; simpl; auto.
    + by intros ? ? [= <- <-].
    + rewrite mobileCalls_app. simpl. by rewrite <- app_assoc.
Qed.

Lemma serving_step c id total (w w' : World) (i : Input) :
  serving c id total w -> unstopped i = true -> step w i = Some w' ->
  serving c id total w'.
Proof.
  intros [[Hidle Hlog]|(t & Hal & Hover & Hfound & Hs & Hlog)] Hun Hstep.
  - destruct (idle_step w w' i Hidle (unstopped_passive i Hun) Hstep)
      as (Ht & Hl & _).
    left. by rewrite Hl.
  - pose proof (alone_step id t w w' i Hal (unstopped_passive i Hun) Hstep)
      as Hcase.
    destruct (resume_loopOver c (now w) t (state w) Hover) as [Hcall Htimer].
    destruct Hover as [Hc Hcur].
    destruct i as [| | | | | | | | | |k o| |k|ms]; try done.
    + (* a backend call ends *)
      destruct Hcase as (-> & r & Hr & ->). rewrite Hcall in Hr.
      destruct t, o as [m'|msg]; simpl in Hr; try done;
        simpl in Hc; injection Hc as ->; simpl in Hfound, Hlog.
      * injection Hr as <-. rewrite (continue_alone id _ w) by done.
        right. eexists. repeat split; simpl; eauto.
        rewrite mobileCalls_app. simpl. by rewrite app_nil_r.
      * injection Hr as <-. by eapply loopFrom_serving.
      * destruct rest as [|it2 rest]; injection Hr as <-.
        -- rewrite (continue_alone id _ w) by done.
           left. simpl. by rewrite app_nil_r in *.
        -- rewrite (continue_alone id _ w) by done.
           right. eexists. repeat split; simpl; eauto.
           ++ done.
           ++ rewrite mobileCalls_app. simpl. by rewrite app_nil_r.
      * injection Hr as <-. by eapply loopFrom_serving.
    + (* a timer fires *)
      destruct Hcase as (-> & d & r & _ & _ & Hr & ->). rewrite Htimer in Hr.
      destruct t; simpl in Hr; try done; simpl in Hc; injection Hc as ->.
      * rewrite Hs in Hr. injection Hr as <-.
        rewrite (continue_alone id _ w) by done.
        right. eexists. repeat split; simpl; eauto.
        rewrite mobileCalls_app. simpl. by rewrite app_nil_r.
      * injection Hr as <-. by eapply loopFrom_serving.
    + (* time passes *)
      subst w'. right. exists t. by repeat split.
Qed.

Lemma serving_steps c id total (w w' : World) (ins : list Input) :
  serving c id total w -> forallb unstopped ins = true ->
  steps w ins = Some w' -> serving c id total w'.
Proof.
  revert w. induction ins as [|i ins IH]; intros w HT Hp; simpl.
  - by intros [= <-].
  - simpl in Hp. apply andb_prop in Hp as [Hp1 Hp2].
    destruct (step w i) as [w1|] eqn:H1; [|done]. simpl.
    apply IH; [|done]. by eapply serving_step.
Qed.


(** *** A failing mobile call *)

Lemma Frame_of_ran c id T t (w : World) (s0 : State) (r : Ran) :
  alone id t w -> ranFrame c T s0 r ->
  Frame c id T (scanResults s0) (log w) (continue w id r).
Proof.
  intros Hal (Hst & Hev & Ht). destruct r as [[s' evs] ot].
  rewrite (continue_alone id t w) by done. simpl in *. split; simpl.
  - destruct ot as [t'|]; [|by left]. right. exists t'.
    destruct (Ht t' eq_refl). done.
  - done.
  - by exists evs.
Qed.

(** A later item with another URL has another index. *)
Lemma not_touches_current c it rest i :
  indexIn c it = Some i -> NoDup (item_url <$> it :: rest) ->
  ~ touches c rest i.
Proof.
  intros Hi Hnd (it' & Hit' & Hi').
  rewrite fmap_cons in Hnd. apply NoDup_cons in Hnd as [Hnotin _].
  apply Hnotin. rewrite (indexIn_inj c it it' i Hi Hi').
  apply list_elem_of_fmap. eauto.
Qed.

Lemma step_throws_mobile c id it rest i msg (w : World) :
  alone id (LoopMobile c it rest i) w ->
  step w (Respond id (Throws msg))
  = Some (continue w id (loopCatch c rest i msg (state w))).
Proof.
  intros Hal. simpl. rewrite Hal, lookupTask_alone, Nat.eqb_refl. done.
Qed.

(** *** Invariants of the state and the parked loop *)

(** The world holds the task [ot] under [id], or no task. *)
Definition parkedAs (id : nat) (ot : option Task) (w : World) : Prop :=
  tasks w = match ot with Some t => [(id, t)] | None => [] end.



(** *** The items of later turns are not written before their turn *)







(** *** After the Stop button *)







(** *** A run that nobody stops and in which nothing fails does end *)

Lemma steps_app (w : World) (ins1 ins2 : list Input) :
  steps w (ins1 ++ ins2) = steps w ins1 ≫= fun w1 => steps w1 ins2.
Proof.
  revert w. induction ins1 as [|i ins1 IH]; intros w; simpl; [done|].
  destruct (step w i) as [w1|]; simpl; [apply IH|done].
Qed.

Lemma steps_cons (w : World) (i : Input) (ins : list Input) :
  steps w (i :: ins) = step w i ≫= fun w1 => steps w1 ins.
Proof. done. Qed.

Lemma steps_nil (w : World) : steps w [] = Some w.
Proof. done. Qed.

Lemma step_advance (w : World) ms : step w (Advance ms) = Some (advance w ms).
Proof. done. Qed.

Lemma bind_Some {A B} (x : A) (f : A -> option B) : Some x ≫= f = f x.
Proof. done. Qed.

Lemma step_respond_alone id t (w : World) o r :
  alone id t w -> resumeCall (now w) t o (state w) = Some r ->
  step w (Respond id o) = Some (continue w id r).
Proof.
  intros Hal Hr. simpl. rewrite Hal, lookupTask_alone, Nat.eqb_refl. simpl.
  by rewrite Hr.
Qed.

Lemma step_fire_alone id t (w : World) d r :
  alone id t w -> deadlineOf t = Some d -> (d <= now w)%N ->
  resumeTimer (now w) t (state w) = Some r ->
  step w (Fire id) = Some (continue w id r).
Proof.
  intros Hal Hd Hle Hr. simpl. rewrite Hal, lookupTask_alone, Nat.eqb_refl.
  simpl. rewrite Hd. simpl.
  destruct (N.leb_spec d (now w)); [|lia]. by rewrite Hr.
Qed.

(** The inputs of such a run over [queue], for the loop parked as task
    [id]: each call returns [r0], each timer fires when it is due. *)
Fixpoint smoothInputs (id : nat) (r0 : DeviceResult number)
    (queue : list UrlItem) : list Input :=
  match queue with
  | [] => []
  | _ :: rest =>
      [Respond id (Returns r0); Advance paceMs; Fire id;
       Respond id (Returns r0)]
      ++ match rest with
         | [] => []
         | _ :: _ => [Advance paceMs; Fire id] ++ smoothInputs id r0 rest
         end
  end.

Lemma smoothInputs_smooth id r0 queue :
  forallb smooth (smoothInputs id r0 queue) = true.
Proof.
  induction queue as [|it rest IH]; [done|].
  simpl. destruct rest; [done|]. exact IH.
Qed.

(** One turn: the mobile call returns, the pause passes, the desktop call
    returns. *)
Lemma smooth_turn c id r0 it rest i (w : World) :
  alone id (LoopMobile c it rest i) w ->
  stopScanningRef (state w) = false ->
  exists w4,
    steps w [Respond id (Returns r0); Advance paceMs; Fire id;
             Respond id (Returns r0)] = Some w4
    /\ stopScanningRef (state w4) = false
    /\ match rest with
       | [] => tasks w4 = []
       | _ :: _ => alone id (LoopPace2 c rest (now w4 + paceMs)%N) w4
       end.
Proof.
  intros Hal Hs.
  set (w1 := continue w id
               (state w, [EvPace],
                Some (LoopPace1 c it rest i r0 (now w + paceMs)%N))).
  assert (H1 : step w (Respond id (Returns r0)) = Some w1)
    by (by eapply step_respond_alone).
  assert (Hal1 : alone id (LoopPace1 c it rest i r0 (now w + paceMs)%N) w1).
  { subst w1. by rewrite (continue_alone id _ w) by done. }
  set (w2 := advance w1 paceMs).
  assert (Hal2 : alone id (LoopPace1 c it rest i r0 (now w + paceMs)%N) w2)
    by done.
  assert (Hnow2 : now w2 = (now w + paceMs)%N).
  { subst w2 w1. by rewrite (continue_alone id _ w) by done. }
  assert (Hs2 : stopScanningRef (state w2) = false).
  { subst w2 w1. by rewrite (continue_alone id _ w) by done. }
  set (w3 := continue w2 id
               (setCurrentScanDevice (Some Route.desktop) (state w2),
                [EvCall (item_url it) Route.desktop],
                Some (LoopDesktop c it rest i r0))).
  assert (H3 : step w2 (Fire id) = Some w3).
  { eapply step_fire_alone; [done|done|lia|].
    unfold resumeTimer, resumeLoop. by rewrite Hs2. }
  assert (Hal3 : alone id (LoopDesktop c it rest i r0) w3).
  { subst w3. by rewrite (continue_alone id _ w2) by done. }
  assert (Hs3 : stopScanningRef (state w3) = false).
  { subst w3. by rewrite (continue_alone id _ w2) by done. }
  destruct rest as [|it2 rest].
  - exists (continue w3 id
              (loopFrom c []
                 (setScanResults (updateAt i (markCompleted r0 r0))
                    (state w3)))).
    split; [|split].
    + rewrite steps_cons, H1, bind_Some, steps_cons, step_advance, bind_Some.
      fold w2. rewrite steps_cons, H3, bind_Some, steps_cons.
      rewrite (step_respond_alone id _ w3 (Returns r0) _ Hal3 eq_refl).
      reflexivity.
    + rewrite loopFrom_nil, (continue_alone id _ w3) by done. done.
    + rewrite loopFrom_nil, (continue_alone id _ w3) by done. done.
  - exists (continue w3 id
              (setScanResults (updateAt i (markCompleted r0 r0)) (state w3),
               [EvPace],
               Some (LoopPace2 c (it2 :: rest) (now w3 + paceMs)%N))).
    split; [|split].
    + rewrite steps_cons, H1, bind_Some, steps_cons, step_advance, bind_Some.
      fold w2. rewrite steps_cons, H3, bind_Some, steps_cons.
      rewrite (step_respond_alone id _ w3 (Returns r0) _ Hal3 eq_refl).
      reflexivity.
    + rewrite (continue_alone id _ w3) by done. done.
    + rewrite (continue_alone id _ w3) by done. done.
Qed.

Lemma smooth_turns_complete c id r0 rest :
  forall it i (w : World),
    alone id (LoopMobile c it rest i) w ->
    stopScanningRef (state w) = false ->
    allFound c rest ->
    exists w', steps w (smoothInputs id r0 (it :: rest)) = Some w'
               /\ tasks w' = [].
Proof.
  induction rest as [|it2 rest IH]; intros it i w Hal Hs Hfound.
  - destruct (smooth_turn c id r0 it [] i w Hal Hs) as (w4 & H4 & _ & Hend).
    exists w4. split; [exact H4|exact Hend].
  - destruct (smooth_turn c id r0 it (it2 :: rest) i w Hal Hs)
      as (w4 & H4 & Hs4 & Hal4).
    inversion Hfound as [|? ? [i2 Hi2] Hfound']; subst.
    set (w5 := advance w4 paceMs).
    set (w6 := continue w5 id (loopFrom c (it2 :: rest) (state w5))).
    assert (H6 : step w5 (Fire id) = Some w6).
    { eapply step_fire_alone; [exact Hal4|done|simpl; lia|done]. }
    assert (Hal6 : alone id (LoopMobile c it2 rest i2) w6).
    { subst w6. rewrite (loopFrom_found c it2 rest i2) by done.
      by rewrite (continue_alone id _ w5) by done. }
    assert (Hs6 : stopScanningRef (state w6) = false).
    { subst w6. rewrite (loopFrom_found c it2 rest i2) by done.
      by rewrite (continue_alone id _ w5) by done. }
    destruct (IH it2 i2 w6 Hal6 Hs6 Hfound') as (w' & Hw' & Hend).
    exists w'. split; [|done].
    change (smoothInputs id r0 (it :: it2 :: rest))
      with ([Respond id (Returns r0); Advance paceMs; Fire id;
             Respond id (Returns r0)]
            ++ [Advance paceMs; Fire id]
            ++ smoothInputs id r0 (it2 :: rest)).
    rewrite steps_app, H4, bind_Some.
    rewrite steps_app, steps_cons, step_advance, bind_Some. fold w5.
    rewrite steps_cons, H6, bind_Some, steps_nil, bind_Some.
    exact Hw'.
Qed.

(** For every queue whose items are all found there are inputs, all
    smooth, that take the run to its end. *)
Lemma smooth_run_completes (c : list ScanResult) (queue : list UrlItem)
    (w : World) (s : State) (r0 : DeviceResult number) :
  tasks w = [] -> allFound c queue ->
  exists ins w',
    forallb smooth ins = true
    /\ steps (spawn w (startPerformanceScanWithUrls c queue s)) ins = Some w'
    /\ tasks w' = [].
Proof.
  intros Hidle Hfound. exists (smoothInputs (nextId w) r0 queue).
  destruct queue as [|it rest].
  - eexists. split; [done|]. split; [reflexivity|].
    unfold startPerformanceScanWithUrls.
    by rewrite loopFrom_nil, spawn_idle.
  - inversion Hfound as [|? ? [i Hi] Hfound']; subst.
    unfold startPerformanceScanWithUrls.
    rewrite (loopFrom_found c it rest i) by done.
    rewrite spawn_idle by done.
    destruct (smooth_turns_complete c (nextId w) r0 rest it i
                {| state := picked i
                              (setStopScanningRef false (setIsScanning true s));
                   tasks := [(nextId w, LoopMobile c it rest i)];
                   nextId := S (nextId w); now := now w;
                   log := log w ++ [EvCall (item_url it) Route.mobile] |})
      as (w' & Hw' & Hend); [done|done|done|].
    exists w'. split; [apply smoothInputs_smooth|]. done.
Qed.

(** A retry of the failed items that nobody stops and in which every call
    returns issues, for each failed item in order, its mobile call and its
    desktop call, and nothing else. *)
Lemma retry_failed_smooth_events (w w1 w' : World) (ins : list Input) :
  tasks w = [] ->
  step w ClickRescanErrors = Some w1 ->
  forallb smooth ins = true ->
  steps w1 ins = Some w' ->
  tasks w' = [] ->
  log w' = log w ++ expectedEvents (errorQueue (scanResults (state w))).
Proof.
  intros Hidle Hstep Hsm Hsteps Hend. simpl in Hstep.
  destruct (rescanErrorsOffered _); [|done].
  destruct (rescanErrorUrls (state w)) as [r0|] eqn:Hr0; [|done].
  apply rescanErrorUrls_Some in Hr0 as ->.
  simpl in Hstep. injection Hstep as <-.
  assert (Hfound : allFound (scanResults (state w))
                     (errorQueue (scanResults (state w)))).
  { apply Forall_forall. intros it Hit.
    apply errorQueue_elem in Hit as (r & Hr & _ & Hu).
    apply (findIndex_is_Some _ _ r Hr). by apply bool_decide_eq_true. }
  destruct (onTrack_steps _ (nextId w) _ _ w' ins
              (onTrack_start _ _ w _ Hidle Hfound) Hsm Hsteps)
    as [[_ Hlog]|(t & Hal & _)]; [done|].
  unfold alone in Hal. by rewrite Hend in Hal.
Qed.


(** *** After a failed call the next call follows at once *)

(** A call of the item in progress throws while a later item is waiting:
    in the same step the loop issues the mobile call of the next item,
    with no pause between the two calls. *)
Lemma throw_is_followed_by_next_call c id (t : Task) it it2 rest i i2 msg
    (w : World) :
  alone id t w ->
  (t = LoopMobile c it (it2 :: rest) i
   \/ exists m, t = LoopDesktop c it (it2 :: rest) i m) ->
  stopScanningRef (state w) = false ->
  indexIn c it2 = Some i2 ->
  exists w1, step w (Respond id (Throws msg)) = Some w1
    /\ log w1 = log w ++ [EvCall (item_url it2) Route.mobile]
    /\ alone id (LoopMobile c it2 rest i2) w1.
Proof.
  intros Hal Ht Hs Hi2.
  exists (continue w id (loopCatch c (it2 :: rest) i msg (state w))).
  split.
  - apply (step_respond_alone id t); [done|].
    by destruct Ht as [->|[m ->]].
  - unfold loopCatch. rewrite (loopFrom_found c it2 rest i2) by done.
    by rewrite (continue_alone id t w) by done.
Qed.


End WithNumber.

End RunFacts.

(* ===================================================================== *)
(** ** The pause between backend calls *)
(* ===================================================================== *)

Module PaceFacts.

Import Page RunFacts.

Section WithNumber.

Context {number : Type}.

Local Abbreviation ScanResult := (ScanResult number).
Local Abbreviation State := (State number).
Local Abbreviation World := (World number).
Local Abbreviation Task := (Task number).
Local Abbreviation Ran := (Ran number).
Local Abbreviation Input := (Input number).

(** The task is parked on the pause of 3000 ms, until [d]. *)
Definition pacing (t : Task) : option N :=
  match t with
  | LoopPace1 _ _ _ _ _ d | LoopPace2 _ _ d | SinglePace _ _ _ d => Some d
  | _ => None
  end.

Lemma lookupTask_app_l id (ts ts' : list (nat * Task)) t :
  lookupTask id ts = Some t -> lookupTask id (ts ++ ts') = Some t.
Proof.
  induction ts as [|[k t0] ts IH]; simpl; [done|].
  destruct (k =? id)%nat; [done|]. apply IH.
Qed.

Lemma lookupTask_app_None id (ts ts' : list (nat * Task)) :
  lookupTask id ts = None -> lookupTask id (ts ++ ts') = lookupTask id ts'.
Proof.
  induction ts as [|[k t0] ts IH]; simpl; [done|].
  destruct (k =? id)%nat; [done|]. apply IH.
Qed.

Lemma lookupTask_remove_ne id k (ts : list (nat * Task)) :
  k <> id -> lookupTask id (removeTask k ts) = lookupTask id ts.
Proof.
  intros Hne. induction ts as [|[k0 t0] ts IH]; simpl; [done|].
  destruct (Nat.eqb_spec k0 k) as [->|Hk].
  - destruct (Nat.eqb_spec k id); [done|]. apply IH.
  - simpl. destruct (k0 =? id)%nat; [done|]. apply IH.
Qed.

Lemma lookupTask_remove_eq id (ts : list (nat * Task)) :
  lookupTask id (removeTask id ts) = None.
Proof.
  induction ts as [|[k0 t0] ts IH]; simpl; [done|].
  destruct (Nat.eqb_spec k0 id) as [->|Hk]; [done|].
  simpl. destruct (Nat.eqb_spec k0 id); [done|]. apply IH.
Qed.

Lemma spawn_tasks (w : World) (r : Ran) :
  tasks (spawn w r)
  = tasks w ++ match r.2 with Some t => [(nextId w, t)] | None => [] end.
Proof. destruct r as [[s evs] [t|]]; simpl; [done|]. by rewrite app_nil_r. Qed.

Lemma spawn_now (w : World) (r : Ran) : now (spawn w r) = now w.
Proof. by destruct r as [[s evs] ot]. Qed.

Lemma continue_tasks (w : World) id (r : Ran) :
  tasks (continue w id r)
  = removeTask id (tasks w)
    ++ match r.2 with Some t => [(id, t)] | None => [] end.
Proof. destruct r as [[s evs] [t|]]; simpl; [done|]. by rewrite app_nil_r. Qed.

Lemma continue_now (w : World) id (r : Ran) : now (continue w id r) = now w.
Proof. by destruct r as [[s evs] ot]. Qed.

(** How a step changes the world: a handler is called and may park a
    task, a parked task is resumed, the state is written, or time
    passes. *)
Inductive StepShape (w : World) : World -> Prop :=
| ShapeSpawn (r : Ran) :
    (forall t, r.2 = Some t -> pacing t = None) ->
    StepShape w (spawn w r)
| ShapeWrite (s : State) : StepShape w (write w s)
| ShapeContinue (id : nat) (t : Task) (r : Ran) :
    lookupTask id (tasks w) = Some t ->
    (exists o, resumeCall (now w) t o (state w) = Some r)
    \/ (exists reply, resumeSitemap t reply (state w) = Some r)
    \/ (exists d, deadlineOf t = Some d /\ (d <= now w)%N
                  /\ resumeTimer (now w) t (state w) = Some r) ->
    StepShape w (continue w id r)
| ShapeAdvance (ms : N) : StepShape w (advance w ms).

(** A piece of the loop never parks on a pause: it parks on a mobile
    call. *)
Lemma loopFrom_not_pacing c rest (s : State) t :
  (loopFrom c rest s).2 = Some t -> pacing t = None.
Proof.
  destruct (loopFrom_inv c rest s)
    as [->|(sk & it & rest' & i & _ & _ & _ & _ & ->)]; [done|].
  simpl. by intros [= <-].
Qed.

Lemma startPerformanceScanWithUrls_not_pacing c us (s : State) t :
  (startPerformanceScanWithUrls c us s).2 = Some t -> pacing t = None.
Proof. apply loopFrom_not_pacing. Qed.

Lemma step_shape (w w' : World) (i : Input) :
  step w i = Some w' -> StepShape w w'.
Proof.
  destruct i; unfold step.
  - destruct (startOffered _); [|done].
    destruct (startPerformanceScan (state w)) as [r|] eqn:Hr; [|done].
    intros [= <-]. constructor. intros t Ht.
    unfold startPerformanceScan in Hr. destruct (filter _ _); [done|].
    injection Hr as <-.
    by apply startPerformanceScanWithUrls_not_pacing in Ht.
  - destruct (stopOffered _); [|done]. intros [= <-]. constructor.
  - destruct (rescanErrorsOffered _); [|done].
    destruct (rescanErrorUrls (state w)) as [r|] eqn:Hr; [|done].
    intros [= <-]. constructor. intros t Ht.
    apply rescanErrorUrls_Some in Hr as ->.
    by apply startPerformanceScanWithUrls_not_pacing in Ht.
  - destruct (retryOffered _ _); [|done].
    destruct (rescanSingleUrl index (state w)) as [r|] eqn:Hr; [|done].
    intros [= <-]. constructor. intros t Ht.
    unfold rescanSingleUrl in Hr. destruct (_ !! _); [|done].
    injection Hr as <-. simpl in Ht. by injection Ht as <-.
  - destruct (toggleIssuesOffered _ _); [|done]. intros [= <-]. constructor.
  - destruct (_ && _); [|done].
    destruct (handleManualUrlsSubmit _ _ _ _) as [r|] eqn:Hr; [|done].
    intros [= <-]. constructor. intros t Ht.
    unfold handleManualUrlsSubmit in Hr.
    destruct (negb _); [done|]. destruct (negb _); [done|].
    destruct (parseManualUrls _); [done|].
    injection Hr as <-. simpl in Ht. by injection Ht as <-.
  - destruct (_ && _); [|done]. intros [= <-].
    apply (ShapeSpawn w (handleScan (state w))).
    unfold handleScan. simpl. by intros t [= <-].
  - destruct (modeOffered _); [|done]. intros [= <-]. constructor.
  - destruct (selectionShown _); [|done]. intros [= <-]. constructor.
  - destruct (selectionShown _); [|done]. intros [= <-]. constructor.
  - destruct (lookupTask id (tasks w)) as [t|] eqn:Hl; [|done].
    cbn [mbind option_bind].
    destruct (resumeCall _ _ _ _) as [r|] eqn:Hr; [|done].
    intros [= <-]. econstructor; eauto.
  - destruct (lookupTask id (tasks w)) as [t|] eqn:Hl; [|done].
    cbn [mbind option_bind].
    destruct (resumeSitemap _ _ _) as [r|] eqn:Hr; [|done].
    intros [= <-]. econstructor; eauto.
  - destruct (lookupTask id (tasks w)) as [t|] eqn:Hl; [|done].
    cbn [mbind option_bind].
    destruct (deadlineOf t) as [d|] eqn:Hd; [|done].
    cbn [mbind option_bind].
    destruct (N.leb_spec d (now w)); [|done].
    destruct (resumeTimer _ _ _) as [r|] eqn:Hr; [|done].
    intros [= <-]. econstructor; [done|]. right. right. eauto.
  - intros [= <-]. apply ShapeAdvance.
Qed.

(** The clock never goes back. *)
Lemma step_now (w w' : World) (i : Input) :
  step w i = Some w' -> (now w <= now w')%N.
Proof.
  intros H. apply step_shape in H.
  destruct H; rewrite ?spawn_now, ?continue_now; simpl; lia.
Qed.

Lemma steps_now (w w' : World) (ins : list Input) :
  steps w ins = Some w' -> (now w <= now w')%N.
Proof.
  revert w. induction ins as [|i ins IH]; intros w; simpl.
  - intros [= <-]. lia.
  - destruct (step w i) as [w1|] eqn:H1; [|done]. simpl. intros H.
    apply step_now in H1. apply IH in H. lia.
Qed.

(** A task parked on the pause stays parked, whatever happens, until its
    timer is due. *)
Lemma pacing_step (w w' : World) (i : Input) id t d :
  lookupTask id (tasks w) = Some t -> pacing t = Some d ->
  step w i = Some w' ->
  lookupTask id (tasks w') = Some t \/ (d <= now w')%N.
Proof.
  intros Hl Hp Hstep. apply step_shape in Hstep.
  destruct Hstep as [r _|s|k t0 r H0 Hres|ms].
  - left. rewrite spawn_tasks. by apply lookupTask_app_l.
  - by left.
  - destruct (decide (k = id)) as [->|Hne].
    + rewrite Hl in H0. injection H0 as <-.
      destruct Hres as [[o Hr]|[[reply Hr]|(d0 & Hd0 & Hle & _)]].
      * by destruct t.
      * by destruct t.
      * right. rewrite continue_now.
        destruct t; simpl in Hp, Hd0; try done; congruence.
    + left. rewrite continue_tasks. apply lookupTask_app_l.
      by rewrite lookupTask_remove_ne.
  - by left.
Qed.

Lemma pacing_steps (ins : list Input) (w w' : World) id t d :
  lookupTask id (tasks w) = Some t -> pacing t = Some d ->
  steps w ins = Some w' ->
  lookupTask id (tasks w') = Some t \/ (d <= now w')%N.
Proof.
  revert w. induction ins as [|i ins IH]; intros w Hl Hp; simpl.
  - intros [= <-]. by left.
  - destruct (step w i) as [w1|] eqn:H1; [|done]. simpl. intros H.
    destruct (pacing_step w w1 i id t d Hl Hp H1) as [Hl1|Hd].
    + by apply (IH w1).
    + right. apply steps_now in H. lia.
Qed.

(** A pause that a resumed handler starts is set for 3000 ms from now. *)
Lemma resume_pacing nw (t0 : Task) (s : State) (r : Ran) t d :
  (exists o, resumeLoop nw t0 o s = Some r)
  \/ (exists o, resumeSingle nw t0 o s = Some r)
  \/ resumeManual t0 s = Some r ->
  r.2 = Some t -> pacing t = Some d -> d = (nw + paceMs)%N.
Proof.
  intros H Ht Hp.
  assert (Hlf : forall c rest s', r = loopFrom c rest s' -> False).
  { intros c rest s' ->. apply loopFrom_not_pacing in Ht. congruence. }
  destruct H as [[o H]|[[o H]|H]].
  - destruct t0, o as [[m'|msg]|]; simpl in H; try done.
    + injection H as <-. simpl in Ht. injection Ht as <-. simpl in Hp.
      congruence.
    + injection H as <-. exfalso; eapply Hlf; reflexivity.
    + destruct (stopScanningRef s); injection H as <-; simpl in Ht; [done|].
      injection Ht as <-. done.
    + destruct rest; injection H as <-; simpl in Ht; [done|].
      injection Ht as <-. simpl in Hp. congruence.
    + injection H as <-. exfalso; eapply Hlf; reflexivity.
    + injection H as <-. exfalso; eapply Hlf; reflexivity.
  - destruct t0, o as [[m'|msg]|]; simpl in H; try done.
    + injection H as <-. simpl in Ht. injection Ht as <-. simpl in Hp.
      congruence.
    + by injection H as <-.
    + destruct (stopScanningRef s); injection H as <-; simpl in Ht; [done|].
      injection Ht as <-. done.
    + by injection H as <-.
    + by injection H as <-.
  - destruct t0; simpl in H; try done. injection H as <-. exfalso; eapply Hlf; reflexivity.
Qed.

Lemma resumed_pacing (w : World) (t0 : Task) (r : Ran) t d :
  (exists o, resumeCall (now w) t0 o (state w) = Some r)
  \/ (exists reply, resumeSitemap t0 reply (state w) = Some r)
  \/ (exists d0, deadlineOf t0 = Some d0 /\ (d0 <= now w)%N
                 /\ resumeTimer (now w) t0 (state w) = Some r) ->
  r.2 = Some t -> pacing t = Some d -> d = (now w + paceMs)%N.
Proof.
  intros [[o H]|[[reply H]|(d0 & _ & _ & H)]] Ht Hp.
  - apply (resume_pacing (now w) t0 (state w) r t d); [|done|done].
    unfold resumeCall in H. destruct t0; try done;
      first [ left; exists (Some o); exact H
            | right; left; exists (Some o); exact H ].
  - destruct t0; simpl in H; try done.
    destruct reply as [[|u us]|]; injection H as <-; done.
  - apply (resume_pacing (now w) t0 (state w) r t d); [|done|done].
    unfold resumeTimer in H. destruct t0; try done;
      first [ left; exists None; exact H
            | right; left; exists None; exact H
            | right; right; exact H ].
Qed.

(** C5 (as amended).  Every pause of the pacer lasts its full 3000 ms,
    whether or not the Stop button is pressed before or during it: a task
    that a step parks on a pause has its timer set 3000 ms ahead, and after
    any further inputs whatever (the Stop button among them) it is still
    parked there, unless 3000 ms have passed since the pause began. *)
Theorem pace_wait_lasts_3000ms (w w1 w2 : World) (i : Input)
    (ins : list Input) (id : nat) (t : Task) (d : N) :
  step w i = Some w1 ->
  lookupTask id (tasks w) <> Some t ->
  lookupTask id (tasks w1) = Some t ->
  pacing t = Some d ->
  steps w1 ins = Some w2 ->
  d = (now w1 + paceMs)%N
  /\ (lookupTask id (tasks w2) = Some t \/ (now w1 + paceMs <= now w2)%N).
Proof.
  intros Hstep Hnew Hl Hp Hsteps.
  assert (Hd : d = (now w1 + paceMs)%N).
  { apply step_shape in Hstep.
    destruct Hstep as [r Hr|s|k t0 r H0 Hres|ms]; try done.
    - rewrite spawn_tasks in Hl.
      destruct (lookupTask id (tasks w)) as [t1|] eqn:H1.
      + rewrite (lookupTask_app_l _ _ _ _ H1) in Hl. congruence.
      + rewrite lookupTask_app_None in Hl by done.
        destruct (r.2) as [t'|] eqn:Hr2; simpl in Hl; [|done].
        destruct (nextId w =? id)%nat; [|done]. injection Hl as ->.
        specialize (Hr t eq_refl). congruence.
    - rewrite continue_tasks in Hl. rewrite continue_now.
      destruct (decide (k = id)) as [->|Hne].
      + rewrite lookupTask_app_None in Hl by apply lookupTask_remove_eq.
        destruct (r.2) as [t'|] eqn:Hr2; simpl in Hl; [|done].
        rewrite Nat.eqb_refl in Hl. injection Hl as ->.
        by eapply resumed_pacing.
      + destruct (lookupTask id (tasks w)) as [t1|] eqn:H1.
        * rewrite (lookupTask_app_l _ _ _ t1) in Hl; [congruence|].
          by rewrite lookupTask_remove_ne.
        * rewrite lookupTask_app_None in Hl
            by (by rewrite lookupTask_remove_ne).
          destruct (r.2) as [t'|]; simpl in Hl; [|done].
          destruct (Nat.eqb_spec k id); [done|done]. }
  split; [done|]. rewrite <- Hd. by eapply pacing_steps.
Qed.


End WithNumber.

End PaceFacts.

(* ===================================================================== *)
(** ** The controls that start a scan *)
(* ===================================================================== *)

Module GuardFacts.

Import Page.

(** While [isScanning] is set, the page offers none of the controls that
    start a scan: not "Rescan Errors", not "Retry" on a row, not the submit
    button of the form; and the "Start Performance Scan" button is not
    offered once there are results. *)
Lemma no_scan_control_while_scanning {number} (w : World number) :
  isScanning (state w) = true ->
  step w ClickRescanErrors = None
  /\ (forall index, step w (ClickRetry index) = None)
  /\ (forall apiKey text, step w (SubmitManual apiKey text) = None)
  /\ step w SubmitSitemap = None
  /\ (scanResults (state w) <> [] -> step w ClickStart = None).
Proof.
  intros Hs. unfold step.
  unfold rescanErrorsOffered, retryOffered, submitOffered, startOffered,
    selectionShown.
  rewrite Hs. simpl. repeat split.
  - intros index. destruct (scanResults (state w) !! index) as [r|]; [|done].
    by rewrite andb_false_r.
  - intros k v. by rewrite andb_false_r.
  - by rewrite andb_false_r.
  - intros Hne. destruct (scanResults (state w)); [done|].
    simpl. by rewrite andb_false_r.
Qed.

End GuardFacts.

(* ===================================================================== *)
(** ** The retry of one row: [rescanSingleUrl] *)
(* ===================================================================== *)

Module RetryOneFacts.

Import Page JsFacts RunFacts.

Section WithNumber.

Context {number : Type}.

Local Abbreviation DeviceResult := (DeviceResult number).
Local Abbreviation ScanResult := (ScanResult number).
Local Abbreviation State := (State number).
Local Abbreviation World := (World number).
Local Abbreviation Task := (Task number).
Local Abbreviation Ran := (Ran number).
Local Abbreviation Input := (Input number).

(** How far a retry of one row has come: parked on its mobile call, on the
    pause or on its desktop call, or ended. *)
Inductive Phase :=
| AtMobile
| AtPause (m : DeviceResult) (deadline : N)
| AtDesktop (m : DeviceResult)
| EndCompleted (m d : DeviceResult)
| EndFailedMobile (msg : string)
| EndFailedDesktop (m : DeviceResult) (msg : string)
| EndStopped (m : DeviceResult).

(** The task of a phase; [result] is the constant [scanResults[index]] of
    the handler. *)
Definition parkedIn (index : nat) (result : ScanResult) (ph : Phase)
  : option Task :=
  match ph with
  | AtMobile => Some (SingleMobile index result)
  | AtPause m d => Some (SinglePace index result m d)
  | AtDesktop m => Some (SingleDesktop index result m)
  | _ => None
  end.

(** The row while its calls are pending: [{ url, status: 'scanning' }]. *)
Definition retrying (u : string) : ScanResult :=
  markScanning (pendingResult u).

Definition rowIn (u : string) (ph : Phase) : ScanResult :=
  match ph with
  | EndCompleted m d => markCompleted m d (retrying u)
  | EndFailedMobile msg | EndFailedDesktop _ msg => markError msg (retrying u)
  | _ => retrying u
  end.

Definition eventsIn (u : string) (ph : Phase) : list Event :=
  match ph with
  | AtMobile | EndFailedMobile _ => [EvCall u Route.mobile]
  | AtPause _ _ | EndStopped _ => [EvCall u Route.mobile; EvPace]
  | AtDesktop _ | EndCompleted _ _ | EndFailedDesktop _ _ =>
      [EvCall u Route.mobile; EvPace; EvCall u Route.desktop]
  end.

(** What the phase has received is among the inputs [seen]. *)
Definition answeredIn (id : nat) (seen : list Input) (ph : Phase) : Prop :=
  match ph with
  | AtMobile => True
  | AtPause m _ | AtDesktop m => Respond id (Returns m) ∈ seen
  | EndStopped m => Respond id (Returns m) ∈ seen /\ ClickStop ∈ seen
  | EndCompleted m d =>
      Respond id (Returns m) ∈ seen /\ Respond id (Returns d) ∈ seen
  | EndFailedMobile msg => Respond id (Throws msg) ∈ seen
  | EndFailedDesktop m msg =>
      Respond id (Returns m) ∈ seen /\ Respond id (Throws msg) ∈ seen
  end.

(** The retry of the row [index], started as task [id] from the results
    [l0] and the events [log0], after the inputs [seen], in phase [ph]. *)
Record RetryRun (index : nat) (result : ScanResult) (l0 : list ScanResult)
    (log0 : list Event) (id : nat) (seen : list Input) (w : World)
    (ph : Phase) : Prop := {
  retry_tasks : parkedAs id (parkedIn index result ph) w;
  retry_row : scanResults (state w) !! index = Some (rowIn (url result) ph);
  retry_others :
    forall j, j <> index -> scanResults (state w) !! j = l0 !! j;
  retry_log : log w = log0 ++ eventsIn (url result) ph;
  retry_answers : answeredIn id seen ph;
  retry_flag : stopScanningRef (state w) = true -> ClickStop ∈ seen;
}.

Lemma answeredIn_more id seen i ph :
  answeredIn id seen ph -> answeredIn id (seen ++ [i]) ph.
Proof.
  destruct ph; simpl; rewrite ?elem_of_app; tauto.
Qed.

Lemma updateAt_same i f (l : list ScanResult) r :
  l !! i = Some r -> updateAt i f l !! i = Some (f r).
Proof. intros H. unfold updateAt. by rewrite list_lookup_alter_eq, H. Qed.

(** The click on "Retry". *)
Lemma retry_start (w w1 : World) index :
  tasks w = [] ->
  step w (ClickRetry index) = Some w1 ->
  exists r, scanResults (state w) !! index = Some r /\ status r = failed
    /\ isScanning (state w) = false
    /\ RetryRun index r (scanResults (state w)) (log w) (nextId w) [] w1
         AtMobile.
Proof.
  intros Hidle Hstep. simpl in Hstep. unfold retryOffered in Hstep.
  unfold rescanSingleUrl in Hstep.
  destruct (scanResults (state w) !! index) as [r|] eqn:Hr; [|done].
  destruct (isError r) eqn:He; [|done].
  destruct (isScanning (state w)) eqn:Hsc; [done|].
  simpl in Hstep. injection Hstep as <-. exists r.
  split; [done|]. split; [by apply isError_failed|]. split; [done|].
  split; simpl.
  - unfold parkedAs. simpl. by rewrite Hidle.
  - unfold updateAt. by rewrite !list_lookup_alter_eq, Hr.
  - intros j Hj. unfold updateAt. by rewrite !list_lookup_alter_ne.
  - done.
  - done.
  - done.
Qed.

(** A passive step of the page during, or after, the retry. *)
Lemma RetryRun_step index result l0 log0 id seen (w w' : World) ph
    (i : Input) :
  RetryRun index result l0 log0 id seen w ph -> passive i = true ->
  step w i = Some w' ->
  exists ph', RetryRun index result l0 log0 id (seen ++ [i]) w' ph'.
Proof.
  intros [Hts Hrow Hoth Hlog Hans Hflag] Hp Hstep.
  assert (Hflag' : stopScanningRef (state w) = true -> ClickStop ∈ seen ++ [i]).
  { intros H. apply elem_of_app. left. by apply Hflag. }
  assert (Hstop : ClickStop ∈ seen ++ [ClickStop]).
  { apply elem_of_app. right. by apply list_elem_of_singleton. }
  pose proof (answeredIn_more id seen i ph Hans) as Hans'.
  destruct (parkedIn index result ph) as [t|] eqn:Hpk.
  - pose proof (alone_step id t w w' i Hts Hp Hstep) as Hcase.
    destruct i as [| | | | | | | | | |k o| |k|ms]; try done.
    + (* Stop *)
      subst w'. exists ph. split; simpl; try done. by rewrite Hpk.
    + (* a backend call ends *)
      destruct Hcase as (-> & r & Hr & ->).
      assert (Hin : Respond id o ∈ seen ++ [Respond id o]).
      { apply elem_of_app. right. by apply list_elem_of_singleton. }
      destruct ph; simpl in Hpk; try done; injection Hpk as <-;
        simpl in Hr; try done; destruct o as [m'|msg]; injection Hr as <-;
        try unfold singleCatch; rewrite (continue_alone id _ w) by exact Hts.
      * exists (AtPause m' (now w + paceMs)%N). split; simpl; try done.
        by rewrite Hlog, <- app_assoc.
      * exists (EndFailedMobile msg). split; simpl; try done.
        -- by apply updateAt_same.
        -- intros j Hj. rewrite updateAt_other by done. by apply Hoth.
        -- by rewrite app_nil_r.
      * exists (EndCompleted m m'). split; simpl; try done.
        -- by apply updateAt_same.
        -- intros j Hj. rewrite updateAt_other by done. by apply Hoth.
        -- by rewrite app_nil_r.
      * exists (EndFailedDesktop m msg). split; simpl; try done.
        -- by apply updateAt_same.
        -- intros j Hj. rewrite updateAt_other by done. by apply Hoth.
        -- by rewrite app_nil_r.
    + (* a timer fires *)
      destruct Hcase as (-> & d & r & _ & _ & Hr & ->).
      destruct ph; simpl in Hpk; try done; injection Hpk as <-;
        simpl in Hr; try done.
      destruct (stopScanningRef (state w)) eqn:Hs; injection Hr as <-;
        try unfold singleCatch; rewrite (continue_alone id _ w) by exact Hts.
      * exists (EndStopped m). split; simpl; try done.
        -- by rewrite app_nil_r.
        -- split; [done|]. by apply Hflag'.
        -- intros _. by apply Hflag'.
      * exists (AtDesktop m). split; simpl; try done.
        -- by rewrite Hlog, <- app_assoc.
        -- by rewrite Hs.
    + (* time passes *)
      subst w'. exists ph. split; simpl; try done. by rewrite Hpk.
  - unfold parkedAs in Hts.
    destruct i as [| | | | | | | | | |k o| |k|ms]; try done;
      simpl in Hstep.
    + destruct (stopOffered _); [|done]. injection Hstep as <-.
      exists ph. split; simpl; try done. by rewrite Hpk.
    + by rewrite Hts in Hstep.
    + by rewrite Hts in Hstep.
    + injection Hstep as <-. exists ph. split; simpl; try done.
      by rewrite Hpk.
Qed.

Lemma RetryRun_steps index result l0 log0 id (ins : list Input) :
  forall seen (w w' : World) ph,
    RetryRun index result l0 log0 id seen w ph ->
    forallb passive ins = true -> steps w ins = Some w' ->
    exists ph', RetryRun index result l0 log0 id (seen ++ ins) w' ph'.
Proof.
  induction ins as [|i ins IH]; intros seen w w' ph HR Hp; simpl.
  - intros [= <-]. exists ph. by rewrite app_nil_r.
  - simpl in Hp. apply andb_prop in Hp as [Hp1 Hp2].
    destruct (step w i) as [w1|] eqn:H1; [|done]. simpl. intros Hsteps.
    destruct (RetryRun_step _ _ _ _ _ _ _ _ _ _ HR Hp1 H1) as (ph1 & HR1).
    destruct (IH _ _ _ _ HR1 Hp2 Hsteps) as (ph' & HR').
    exists ph'. by rewrite <- app_assoc in HR'.
Qed.

(** X1.  The retry of one row ("Retry"), started on a page with no task
    parked: whatever the backend answers and whenever the user stops, every
    other row stays exactly as it was at every moment of the retry and
    after it, and the events of the retry are a prefix of: the mobile call
    for the URL of the row, a pause, the desktop call for that URL. *)
Theorem retry_one_leaves_other_rows (w w1 w' : World) (index : nat)
    (ins : list Input) :
  tasks w = [] ->
  step w (ClickRetry index) = Some w1 ->
  forallb passive ins = true ->
  steps w1 ins = Some w' ->
  exists r, scanResults (state w) !! index = Some r /\ status r = failed
    /\ (forall j, j <> index ->
          scanResults (state w') !! j = scanResults (state w) !! j)
    /\ length (scanResults (state w')) = length (scanResults (state w))
    /\ exists evs, log w' = log w ++ evs
         /\ evs `prefix_of` [EvCall (url r) Route.mobile; EvPace;
                             EvCall (url r) Route.desktop].
Proof.
  intros Hidle Hstep Hp Hsteps.
  destruct (retry_start w w1 index Hidle Hstep) as (r & Hr & Hf & _ & HR).
  destruct (RetryRun_steps _ _ _ _ _ ins _ _ _ _ HR Hp Hsteps)
    as (ph & [_ Hrow Hoth Hlog _ _]).
  exists r. split; [done|]. split; [done|]. split; [done|]. split.
  - destruct (decide (length (scanResults (state w'))
                      = length (scanResults (state w)))) as [|Hne]; [done|].
    exfalso.
    assert (Hi : (index < length (scanResults (state w)))%nat)
      by (by eapply lookup_lt_Some).
    assert (Hi' : (index < length (scanResults (state w')))%nat)
      by (by eapply lookup_lt_Some).
    destruct (decide (length (scanResults (state w))
                      < length (scanResults (state w')))%nat) as [Hlt|Hge].
    + pose proof (Hoth (length (scanResults (state w))) ltac:(lia)) as H.
      rewrite (lookup_ge_None_2 (scanResults (state w))) in H by lia.
      apply lookup_ge_None_1 in H. lia.
    + pose proof (Hoth (length (scanResults (state w'))) ltac:(lia)) as H.
      rewrite (lookup_ge_None_2 (scanResults (state w'))) in H by lia.
      symmetry in H. apply lookup_ge_None_1 in H. lia.
  - exists (eventsIn (url r) ph). split; [done|].
    destruct ph; simpl;
      first [ by exists [EvPace; EvCall (url r) Route.desktop]
            | by exists [EvCall (url r) Route.desktop]
            | by exists [] ].
Qed.

(** X2.  The same retry, when it has ended.  The row has the URL it had
    and nothing else of what it held before (no stored issues toggle, no
    earlier device result), and it is in one of three states: completed with
    the two results the backend returned for it and no error; failed with
    the message of the call that threw, and with no device result (the
    mobile result is not kept when the desktop call throws); or, when Stop
    was pressed before the end of the pause, still marked as scanning, with
    no result and no error. *)
Theorem retry_one_outcome (w w1 w' : World) (index : nat)
    (ins : list Input) :
  tasks w = [] ->
  step w (ClickRetry index) = Some w1 ->
  forallb passive ins = true ->
  steps w1 ins = Some w' ->
  tasks w' = [] ->
  exists r r', scanResults (state w) !! index = Some r
    /\ scanResults (state w') !! index = Some r'
    /\ url r' = url r /\ showIssues r' = None
    /\ ((exists m d, Respond (nextId w) (Returns m) ∈ ins
           /\ Respond (nextId w) (Returns d) ∈ ins
           /\ status r' = completed /\ mobile r' = Some m
           /\ desktop r' = Some d /\ error r' = None)
        \/ (exists msg, Respond (nextId w) (Throws msg) ∈ ins
              /\ status r' = failed /\ mobile r' = None
              /\ desktop r' = None /\ error r' = Some msg)
        \/ (ClickStop ∈ ins /\ status r' = scanning /\ mobile r' = None
            /\ desktop r' = None /\ error r' = None)).
Proof.
  intros Hidle Hstep Hp Hsteps Hend.
  destruct (retry_start w w1 index Hidle Hstep) as (r & Hr & Hf & _ & HR).
  destruct (RetryRun_steps _ _ _ _ _ ins _ _ _ _ HR Hp Hsteps)
    as (ph & [Hts Hrow _ _ Hans _]).
  exists r, (rowIn (url r) ph). split; [done|]. split; [done|].
  unfold parkedAs in Hts. rewrite Hend in Hts. simpl in Hans.
  destruct ph; simpl in Hts; try done; simpl in Hans; simpl.
  - destruct Hans. split; [done|]. split; [done|]. left. by exists m, d.
  - split; [done|]. split; [done|]. right. left. by exists msg.
  - destruct Hans. split; [done|]. split; [done|]. right. left.
    by exists msg.
  - destruct Hans. split; [done|]. split; [done|]. right. by right.
Qed.

End WithNumber.

End RetryOneFacts.

(* ===================================================================== *)
(** ** After the Stop button: no further backend call *)
(* ===================================================================== *)

Module StopFacts.

Import Page JsFacts RunFacts.

Section WithNumber.

Context {number : Type}.

Local Abbreviation ScanResult := (ScanResult number).
Local Abbreviation State := (State number).
Local Abbreviation World := (World number).
Local Abbreviation Task := (Task number).
Local Abbreviation Ran := (Ran number).
Local Abbreviation Input := (Input number).

(** The task is parked on a backend call. *)
Definition callTask (t : Task) : bool :=
  match t with
  | LoopMobile _ _ _ _ | LoopDesktop _ _ _ _ _ | SingleMobile _ _
  | SingleDesktop _ _ _ => true
  | _ => false
  end.

(** The task is parked on a 3000 ms pause. *)
Definition paceTask (t : Task) : bool :=
  match t with
  | LoopPace1 _ _ _ _ _ _ | LoopPace2 _ _ _ | SinglePace _ _ _ _ => true
  | _ => false
  end.

(** The task is the scan loop or the retry of one row. *)
Definition scanTask (t : Task) : bool := callTask t || paceTask t.

(** The flag is set, and since then the one scan task, if it is still
    parked, has started at most one pause and issued no call. *)
Definition quiet (log0 : list Event) (id : nat) (w : World) : Prop :=
  stopScanningRef (state w) = true
  /\ ((tasks w = [] /\ (log w = log0 \/ log w = log0 ++ [EvPace]))
      \/ (exists t, alone id t w /\ callTask t = true /\ log w = log0)
      \/ (exists t, alone id t w /\ paceTask t = true
            /\ (log w = log0 \/ log w = log0 ++ [EvPace]))).

Lemma quiet_step log0 id (w w' : World) (i : Input) :
  quiet log0 id w -> passive i = true -> step w i = Some w' ->
  quiet log0 id w'.
Proof.
  intros [Hs [[Hidle Hlog]|[(t & Hal & Ht & Hlog)|(t & Hal & Ht & Hlog)]]]
    Hp Hstep.
  - (* no task *)
    destruct i as [| | | | | | | | | |k o| |k|ms]; try done;
      simpl in Hstep.
    + destruct (stopOffered _); [|done]. injection Hstep as <-.
      split; [done|]. by left.
    + by rewrite Hidle in Hstep.
    + by rewrite Hidle in Hstep.
    + injection Hstep as <-. split; [done|]. by left.
  - (* parked on a call *)
    pose proof (alone_step id t w w' i Hal Hp Hstep) as Hcase.
    destruct i as [| | | | | | | | | |k o| |k|ms]; try done.
    + subst w'. split; [done|]. right. left. by exists t.
    + destruct Hcase as (-> & r & Hr & ->).
      destruct t; try done; simpl in Hr; destruct o as [m'|msg];
        try (destruct rest as [|it2 rest]);
        injection Hr as <-;
        try unfold loopCatch; try unfold singleCatch;
        rewrite ?loopFrom_nil; rewrite ?loopFrom_stopped by exact Hs;
        rewrite (continue_alone id _ w) by exact Hal;
        (split; [exact Hs|]); simpl; rewrite ?app_nil_r.
      * right. right. eexists. split; [reflexivity|]. split; [done|].
        right. by rewrite Hlog.
      * right. right. eexists. split; [reflexivity|]. split; [done|].
        right. by rewrite Hlog.
      * left. split; [done|]. by left.
      * left. split; [done|]. by left.
      * left. split; [done|]. by left.
      * right. right. eexists. split; [reflexivity|]. split; [done|].
        right. by rewrite Hlog.
      * left. split; [done|]. by left.
      * left. split; [done|]. by left.
      * right. right. eexists. split; [reflexivity|]. split; [done|].
        right. by rewrite Hlog.
      * left. split; [done|]. by left.
      * left. split; [done|]. by left.
      * left. split; [done|]. by left.
    + destruct Hcase as (-> & d & r & Hd & _). by destruct t.
    + subst w'. split; [done|]. right. left. by exists t.
  - (* parked on a pause *)
    pose proof (alone_step id t w w' i Hal Hp Hstep) as Hcase.
    destruct i as [| | | | | | | | | |k o| |k|ms]; try done.
    + subst w'. split; [done|]. right. right. by exists t.
    + destruct Hcase as (-> & r & Hr & _). by destruct t.
    + destruct Hcase as (-> & d & r & _ & _ & Hr & ->).
      destruct t; try done; simpl in Hr; rewrite ?Hs in Hr;
        injection Hr as <-;
        rewrite ?loopFrom_stopped by exact Hs;
        rewrite (continue_alone id _ w) by exact Hal;
        (split; [exact Hs|]); simpl; rewrite ?app_nil_r;
        left; split; done.
    + subst w'. split; [done|]. right. right. by exists t.
Qed.

Lemma quiet_steps log0 id (ins : list Input) :
  forall (w w' : World),
    quiet log0 id w -> forallb passive ins = true ->
    steps w ins = Some w' -> quiet log0 id w'.
Proof.
  induction ins as [|i ins IH]; intros w w' HQ Hp; simpl.
  - by intros [= <-].
  - simpl in Hp. apply andb_prop in Hp as [Hp1 Hp2].
    destruct (step w i) as [w1|] eqn:H1; [|done]. simpl.
    apply IH; [|done]. by eapply quiet_step.
Qed.

(** X3.  The scan loop, or the retry of one row, is the one task parked,
    on a call or on a pause, and the user presses Stop.  From then on, as
    long as no handler is started, whatever the pending call answers and
    whenever the timers fire, the page issues no backend call any more: the
    only event that can still follow is the start of one pause (the one
    after the call that was pending). *)
Theorem no_call_after_stop (id : nat) (t : Task) (w w1 w' : World)
    (ins : list Input) :
  alone id t w ->
  scanTask t = true ->
  step w ClickStop = Some w1 ->
  forallb passive ins = true ->
  steps w1 ins = Some w' ->
  log w' = log w \/ log w' = log w ++ [EvPace].
Proof.
  intros Hal Ht Hstop Hp Hsteps.
  simpl in Hstop. destruct (stopOffered _); [|done]. injection Hstop as <-.
  assert (HQ : quiet (log w) id (write w (stopScan (state w)))).
  { split; [done|]. right. unfold scanTask in Ht.
    destruct (callTask t) eqn:Hc.
    - left. by exists t.
    - right. exists t. split; [done|]. split; [done|]. by left. }
  destruct (quiet_steps _ _ ins _ _ HQ Hp Hsteps)
    as [_ [[_ H]|[(t' & _ & _ & H)|(t' & _ & _ & H)]]]; auto.
Qed.

End WithNumber.

End StopFacts.

(* ===================================================================== *)
(** ** The rows of the result list *)
(* ===================================================================== *)

Module RowFacts.

Import Page JsFacts.

Section WithNumber.

Context {number : Type}.

Local Abbreviation DeviceResult := (DeviceResult number).
Local Abbreviation ScanResult := (ScanResult number).
Local Abbreviation State := (State number).
Local Abbreviation World := (World number).
Local Abbreviation Task := (Task number).
Local Abbreviation Ran := (Ran number).
Local Abbreviation Input := (Input number).

(** The URLs of the rows, in order. *)
Definition rowUrls (s : State) : list string := url <$> scanResults s.

(** The inputs whose handler replaces the result list: "Start Performance
    Scan" and the two submits. *)
Definition replaces (i : Input) : bool :=
  match i with
  | ClickStart | SubmitManual _ _ | SubmitSitemap => true
  | _ => false
  end.

(** The task is not the timer of a manual submit (whose callback replaces
    the result list). *)
Definition notManualTimer (t : Task) : Prop :=
  match t with ManualTimer _ _ _ => False | _ => True end.

Definition noManualTimer (w : World) : Prop :=
  Forall (fun kt => notManualTimer kt.2) (tasks w).

(** What a handler that keeps the rows leaves behind. *)
Definition keepsRows (s : State) (r : Ran) : Prop :=
  rowUrls (r.1.1) = rowUrls s
  /\ match r.2 with Some t => notManualTimer t | None => True end.

Lemma urls_updateAt i f (l : list ScanResult) :
  (forall r, url (f r) = url r) ->
  url <$> updateAt i f l = url <$> l.
Proof.
  intros Hf. unfold updateAt. apply list_eq. intros j.
  rewrite !list_lookup_fmap. destruct (decide (i = j)) as [->|Hne].
  - rewrite list_lookup_alter_eq. destruct (l !! j); simpl; [|done].
    by rewrite Hf.
  - by rewrite list_lookup_alter_ne.
Qed.

(** Reads the URLs of a state written by the setters. *)
Ltac rows_simpl :=
  unfold keepsRows, rowUrls; cbn [fst snd]; simpl;
  rewrite ?urls_updateAt by done.

Lemma loopFrom_keeps c rest (s : State) : keepsRows s (loopFrom c rest s).
Proof.
  revert s. induction rest as [|urlItem rest IH]; intros s; simpl.
  - done.
  - destruct (stopScanningRef s); [done|].
    destruct (Js.findIndex _ c) as [i|]; [|by apply IH].
    by rows_simpl.
Qed.

Lemma loopCatch_keeps c rest i msg (s : State) :
  keepsRows s (loopCatch c rest i msg s).
Proof.
  unfold loopCatch.
  destruct (loopFrom_keeps c rest
              (setScanResults (updateAt i (markError msg)) s)) as [H1 H2].
  split; [|done]. rewrite H1. by rows_simpl.
Qed.

Lemma resumeLoop_keeps nw t o (s : State) r :
  resumeLoop nw t o s = Some r -> keepsRows s r.
Proof.
  destruct t, o as [[m'|msg]|]; simpl; try done.
  - by intros [= <-].
  - intros [= <-]. apply loopCatch_keeps.
  - destruct (stopScanningRef s); by intros [= <-].
  - destruct rest; intros [= <-]; by rows_simpl.
  - intros [= <-]. apply loopCatch_keeps.
  - intros [= <-]. apply loopFrom_keeps.
Qed.

Lemma resumeSingle_keeps nw t o (s : State) r :
  resumeSingle nw t o s = Some r -> keepsRows s r.
Proof.
  destruct t, o as [[m'|msg]|]; simpl; try done.
  - by intros [= <-].
  - intros [= <-]. by rows_simpl.
  - destruct (stopScanningRef s); by intros [= <-].
  - intros [= <-]. by rows_simpl.
  - intros [= <-]. by rows_simpl.
Qed.

Lemma rescanSingleUrl_keeps i (s : State) r :
  rescanSingleUrl i s = Some r -> keepsRows s r.
Proof.
  unfold rescanSingleUrl. destruct (scanResults s !! i); [|done].
  intros [= <-]. by rows_simpl.
Qed.

Lemma rescanErrorUrls_keeps (s : State) r :
  rescanErrorUrls s = Some r -> keepsRows s r.
Proof.
  unfold rescanErrorUrls. destruct (filter _ _); [done|].
  intros [= <-]. unfold startPerformanceScanWithUrls.
  match goal with
  | |- keepsRows _ (loopFrom ?c ?q ?s1) =>
      destruct (loopFrom_keeps c q s1) as [H1 H2]
  end.
  split; [|done]. rewrite H1. unfold rowUrls. simpl.
  rewrite <- list_fmap_compose. apply list_fmap_ext. intros _ x _. simpl.
  unfold resetIfError. by destruct (isError x).
Qed.

Lemma resumeCall_keeps nw t o (s : State) r :
  resumeCall nw t o s = Some r -> keepsRows s r.
Proof.
  intros H. destruct t; unfold resumeCall in H; try done;
    first [ by apply (resumeLoop_keeps _ _ _ _ _ H)
          | by apply (resumeSingle_keeps _ _ _ _ _ H) ].
Qed.

Lemma resumeTimer_keeps nw t (s : State) r :
  notManualTimer t -> resumeTimer nw t s = Some r -> keepsRows s r.
Proof.
  intros Ht H. destruct t; unfold resumeTimer in H; try done;
    first [ by apply (resumeLoop_keeps _ _ _ _ _ H)
          | by apply (resumeSingle_keeps _ _ _ _ _ H) ].
Qed.

Lemma resumeSitemap_keeps t reply (s : State) r :
  resumeSitemap t reply s = Some r -> keepsRows s r.
Proof.
  destruct t; simpl; try done.
  destruct reply as [[|u us]|]; by intros [= <-].
Qed.

Lemma lookupTask_elem id (ts : list (nat * Task)) t :
  lookupTask id ts = Some t -> (id, t) ∈ ts.
Proof.
  induction ts as [|[k t'] ts IH]; simpl; [done|].
  destruct (Nat.eqb_spec k id) as [->|].
  - intros [= ->]. apply list_elem_of_here.
  - intros H. apply list_elem_of_further. by apply IH.
Qed.

Lemma removeTask_Forall (P : nat * Task -> Prop) id ts :
  Forall P ts -> Forall P (removeTask id ts).
Proof.
  induction 1 as [|[k t] ts Hx Hts IH]; simpl; [constructor|].
  destruct (k =? id)%nat; [done|]. by constructor.
Qed.

Lemma spawn_keeps (w : World) r :
  noManualTimer w -> keepsRows (state w) r ->
  noManualTimer (spawn w r) /\ rowUrls (state (spawn w r)) = rowUrls (state w).
Proof.
  intros Hw [H1 H2]. destruct r as [[s evs] [t|]]; simpl in *.
  - split; [|done]. unfold noManualTimer. simpl. apply Forall_app.
    split; [done|]. by constructor.
  - done.
Qed.

Lemma continue_keeps (w : World) id r :
  noManualTimer w -> keepsRows (state w) r ->
  noManualTimer (continue w id r)
  /\ rowUrls (state (continue w id r)) = rowUrls (state w).
Proof.
  intros Hw [H1 H2]. destruct r as [[s evs] [t|]]; simpl in *.
  - split; [|done]. unfold noManualTimer. simpl. apply Forall_app.
    split; [by apply removeTask_Forall|]. by constructor.
  - split; [|done]. by apply removeTask_Forall.
Qed.

Lemma keeps_step (w w' : World) (i : Input) :
  noManualTimer w -> replaces i = false -> step w i = Some w' ->
  noManualTimer w' /\ rowUrls (state w') = rowUrls (state w).
Proof.
  intros Hw Hi. destruct i; simpl in Hi; try done; simpl.
  - destruct (stopOffered _); [|done]. by intros [= <-].
  - destruct (rescanErrorsOffered _); [|done].
    destruct (rescanErrorUrls _) as [r|] eqn:Hr; [|done].
    intros [= <-]. apply spawn_keeps; [done|]. by apply rescanErrorUrls_keeps.
  - destruct (retryOffered _ _); [|done].
    destruct (rescanSingleUrl _ _) as [r|] eqn:Hr; [|done].
    intros [= <-]. apply spawn_keeps; [done|].
    by eapply rescanSingleUrl_keeps.
  - destruct (toggleIssuesOffered _ _); [|done]. intros [= <-].
    split; [done|]. by rows_simpl.
  - destruct (modeOffered _); [|done]. by intros [= <-].
  - destruct (selectionShown _); [|done]. by intros [= <-].
  - destruct (selectionShown _); [|done]. by intros [= <-].
  - destruct (lookupTask _ _) as [t|]; [|done]. simpl.
    destruct (resumeCall _ _ _ _) as [r|] eqn:Hr; [|done].
    intros [= <-]. apply continue_keeps; [done|]. by eapply resumeCall_keeps.
  - destruct (lookupTask _ _) as [t|]; [|done]. simpl.
    destruct (resumeSitemap _ _ _) as [r|] eqn:Hr; [|done].
    intros [= <-]. apply continue_keeps; [done|].
    by eapply resumeSitemap_keeps.
  - destruct (lookupTask _ _) as [t|] eqn:Ht; [|done]. simpl.
    destruct (deadlineOf t) as [d|]; [|done]. simpl.
    destruct (d <=? now w)%N; [|done].
    destruct (resumeTimer _ _ _) as [r|] eqn:Hr; [|done].
    intros [= <-]. apply continue_keeps; [done|].
    eapply resumeTimer_keeps; [|done].
    apply lookupTask_elem in Ht. unfold noManualTimer in Hw.
    rewrite Forall_forall in Hw. apply (Hw _ Ht).
  - by intros [= <-].
Qed.

(** X4.  On a page where no timer of a manual submit is pending, as long
    as the user neither submits a form nor presses "Start Performance
    Scan": whatever else happens (runs of the loop, even several at once,
    retries of the failed rows or of one row, stops, toggles, answers of
    the backend in any order, timers), the result list keeps its rows: the
    same URLs in the same order, none added, none dropped. *)
Theorem rows_are_kept (w w' : World) (ins : list Input) :
  noManualTimer w ->
  existsb replaces ins = false ->
  steps w ins = Some w' ->
  url <$> scanResults (state w') = url <$> scanResults (state w).
Proof.
  revert w. induction ins as [|i ins IH]; intros w Hw Hins; simpl.
  - by intros [= <-].
  - simpl in Hins. apply orb_false_elim in Hins as [Hi Hins].
    destruct (step w i) as [w1|] eqn:H1; [|done]. simpl. intros Hsteps.
    destruct (keeps_step w w1 i Hw Hi H1) as [Hw1 Hu].
    fold (rowUrls (state w)). rewrite <- Hu. by apply IH.
Qed.

End WithNumber.

End RowFacts.

(* ===================================================================== *)
(** ** The scan loop: a failing desktop call, and the end of a run *)
(* ===================================================================== *)

Module LoopEndFacts.

Import Page JsFacts RunFacts RowFacts.

Section WithNumber.

Context {number : Type}.

Local Abbreviation DeviceResult := (DeviceResult number).
Local Abbreviation ScanResult := (ScanResult number).
Local Abbreviation State := (State number).
Local Abbreviation World := (World number).
Local Abbreviation Task := (Task number).
Local Abbreviation Ran := (Ran number).
Local Abbreviation Input := (Input number).

Lemma step_throws_desktop c id it rest i m msg (w : World) :
  alone id (LoopDesktop c it rest i m) w ->
  step w (Respond id (Throws msg))
  = Some (continue w id (loopCatch c rest i msg (state w))).
Proof.
  intros Hal. simpl. rewrite Hal, lookupTask_alone, Nat.eqb_refl. done.
Qed.


(** *** Every item of a run that nobody stops ends completed or failed *)

(** The result is completed with both device results, or failed with the
    message of a call of task [id] that threw, among the inputs [seen]. *)
Definition finished (id : nat) (seen : list Input) (r : ScanResult) : Prop :=
  (status r = completed /\ is_Some (mobile r) /\ is_Some (desktop r)
   /\ error r = None)
  \/ (status r = failed
      /\ exists msg, error r = Some msg /\ Respond id (Throws msg) ∈ seen).

Lemma finished_more id seen i r :
  finished id seen r -> finished id (seen ++ [i]) r.
Proof.
  intros [H|(Hf & msg & He & Hin)]; [by left|]. right. split; [done|].
  exists msg. split; [done|]. apply elem_of_app. by left.
Qed.

(** The row at [j] holds a finished result. *)
Definition finishedAt (id : nat) (seen : list Input) (s : State) (j : nat)
  : Prop :=
  exists r, scanResults s !! j = Some r /\ finished id seen r.

(** A run of the loop over [queue], as task [id], that nobody has stopped:
    the results have the URLs of the list the loop searches, and every row
    of an item of the queue is finished or is the row of an item whose turn
    has not ended. *)
Definition closing (c : list ScanResult) (queue : list UrlItem) (id : nat)
    (seen : list Input) (w : World) : Prop :=
  stopScanningRef (state w) = false
  /\ url <$> scanResults (state w) = url <$> c
  /\ ((tasks w = [] /\ isScanning (state w) = false
       /\ forall j, touches c queue j -> finishedAt id seen (state w) j)
      \/ exists t, alone id t w /\ loopOver c t /\ allFound c (restOf t)
           /\ forall j, touches c queue j ->
                touches c (todoOf t) j \/ finishedAt id seen (state w) j).

Lemma finishedAt_more id seen i (s : State) j :
  finishedAt id seen s j -> finishedAt id (seen ++ [i]) s j.
Proof. intros (r & Hr & H). exists r. split; [done|]. by apply finished_more. Qed.

(** The row [i] is rewritten with a finished result: the finished rows
    stay finished. *)
Lemma finishedAt_updateAt id seen (s : State) i f j :
  (forall r, finished id seen (f r)) ->
  finishedAt id seen s j ->
  finishedAt id seen (setScanResults (updateAt i f) s) j.
Proof.
  intros Hf (r & Hr & H). simpl. unfold finishedAt. simpl.
  destruct (decide (i = j)) as [->|Hne].
  - exists (f r). split; [|done]. unfold updateAt.
    by rewrite list_lookup_alter_eq, Hr.
  - exists r. split; [|done]. by rewrite updateAt_other.
Qed.

Lemma finishedAt_here id seen (s : State) i f :
  is_Some (scanResults s !! i) ->
  (forall r, finished id seen (f r)) ->
  finishedAt id seen (setScanResults (updateAt i f) s) i.
Proof.
  intros [r Hr] Hf. exists (f r). split; [|done]. simpl. unfold updateAt.
  by rewrite list_lookup_alter_eq, Hr.
Qed.

Lemma row_exists (c : list ScanResult) it i (l : list ScanResult) :
  url <$> l = url <$> c -> indexIn c it = Some i -> is_Some (l !! i).
Proof.
  intros Hu Hi. apply lookup_lt_is_Some.
  apply findIndex_lt in Hi.
  assert (Hlen : length (url <$> l) = length (url <$> c)) by by rewrite Hu.
  rewrite !length_fmap in Hlen. lia.
Qed.

(** The loop goes on from the top of a turn, all remaining items found. *)
Lemma loopFrom_closing c queue id seen t rest (w : World) (s : State) :
  alone id t w -> allFound c rest ->
  stopScanningRef s = false ->
  url <$> scanResults s = url <$> c ->
  (forall j, touches c queue j ->
     touches c rest j \/ finishedAt id seen s j) ->
  closing c queue id seen (continue w id (loopFrom c rest s)).
Proof.
  intros Hal Hfound Hs Hu Hq. destruct rest as [|it rest].
  - rewrite loopFrom_nil, (continue_alone id t) by done.
    split; [done|]. split; [done|]. left. simpl. split; [done|].
    split; [done|]. intros j Hj. destruct (Hq j Hj) as [(x & Hx & _)|H].
    + by apply elem_of_nil in Hx.
    + done.
  - inversion Hfound as [|? ? [i Hi] Hfound']; subst.
    rewrite (loopFrom_found c it rest i) by done.
    rewrite (continue_alone id t) by done.
    split; [done|]. split.
    { simpl. rewrite urls_updateAt; done. }
    right. exists (LoopMobile c it rest i). simpl.
    split; [done|]. split.
    { split; [done|]. simpl. by intros ? ? [= <- <-]. }
    split; [done|]. intros j Hj. destruct (Hq j Hj) as [H|(r & Hr & H)].
    + by left.
    + destruct (decide (i = j)) as [->|Hne].
      * left. exists it. split; [|done]. unfold todoOf. simpl.
        by apply list_elem_of_here.
      * right. exists r. split; [|done]. simpl.
        by rewrite updateAt_other.
Qed.

Lemma touches_cons (c : list ScanResult) it rest j :
  touches c (it :: rest) j -> indexIn c it = Some j \/ touches c rest j.
Proof.
  intros (x & Hx & Hj). apply elem_of_cons in Hx as [->|Hx]; [by left|].
  right. by exists x.
Qed.

Lemma closing_step c queue id seen (w w' : World) (i : Input) :
  closing c queue id seen w -> unstopped i = true -> step w i = Some w' ->
  closing c queue id (seen ++ [i]) w'.
Proof.
  intros (Hs & Hu & [(Hidle & Hsc & Hfin)|(t & Hal & Hover & Hfound & Hq)])
    Hun Hstep.
  - destruct i as [| | | | | | | | | |k o| |k|ms]; try done;
      simpl in Hstep.
    + by rewrite Hidle in Hstep.
    + by rewrite Hidle in Hstep.
    + injection Hstep as <-. split; [done|]. split; [done|]. left.
      split; [done|]. split; [done|]. intros j Hj.
      by apply finishedAt_more, Hfin.
  - pose proof (alone_step id t w w' i Hal (unstopped_passive i Hun) Hstep)
      as Hcase.
    destruct (resume_loopOver c (now w) t (state w) Hover) as [Hcall Htimer].
    assert (Hq' : forall j, touches c queue j ->
              touches c (todoOf t) j
              \/ finishedAt id (seen ++ [i]) (state w) j).
    { intros j Hj. destruct (Hq j Hj); [by left|].
      right. by apply finishedAt_more. }
    destruct Hover as [Hc Hcur].
    destruct i as [| | | | | | | | | |k o| |k|ms]; try done.
    + (* a backend call ends *)
      destruct Hcase as (-> & r & Hr & ->). rewrite Hcall in Hr.
      assert (Hin : Respond id o ∈ seen ++ [Respond id o]).
      { apply elem_of_app. right. by apply list_elem_of_singleton. }
      assert (Hcatch : forall it rest i0 msg,
                o = Throws msg -> currentOf t = Some (it, i0) ->
                restOf t = rest ->
                closing c queue id (seen ++ [Respond id o])
                  (continue w id (loopCatch c rest i0 msg (state w)))).
      { intros it rest i0 msg -> Hcu Hre. unfold loopCatch.
        assert (Hfail : forall r0 : ScanResult,
                  finished id (seen ++ [Respond id (Throws msg)])
                    (markError msg r0)).
        { intros r0. right. split; [done|]. by exists msg. }
        eapply loopFrom_closing; [done|by rewrite <- Hre|done| |].
        - simpl. by rewrite urls_updateAt.
        - intros j Hj. destruct (Hq' j Hj) as [Ht|Hf].
          + unfold todoOf in Ht. rewrite Hcu, Hre in Ht.
            apply touches_cons in Ht as [Hj'|Ht]; [|by left].
            right. rewrite (Hcur _ _ Hcu) in Hj'. injection Hj' as <-.
            apply finishedAt_here; [|done].
            eapply row_exists; [done|]. by apply Hcur.
          + right. by apply finishedAt_updateAt. }
      destruct t, o as [m'|msg]; simpl in Hr; try done;
        simpl in Hc; injection Hc as ->; simpl in Hfound.
      * injection Hr as <-. rewrite (continue_alone id _ w) by done.
        split; [done|]. split; [done|]. right. eexists.
        split; [reflexivity|]. split; [by split|]. split; [done|]. done.
      * injection Hr as <-. by eapply Hcatch.
      * assert (Hdone : forall r0 : ScanResult,
                  finished id (seen ++ [Respond id (Returns m')])
                    (markCompleted mobileResult m' r0)).
        { intros r0. left. simpl. eauto. }
        assert (Hq2 : forall j, touches c queue j ->
                  touches c rest j
                  \/ finishedAt id (seen ++ [Respond id (Returns m')])
                       (setScanResults
                          (updateAt resultIndex
                             (markCompleted mobileResult m')) (state w)) j).
        { intros j Hj. destruct (Hq' j Hj) as [Ht|Hf].
          - unfold todoOf in Ht. simpl in Ht.
            apply touches_cons in Ht as [Hj'|Ht]; [|by left].
            right. rewrite (Hcur _ _ eq_refl) in Hj'. injection Hj' as <-.
            apply finishedAt_here; [|done].
            eapply row_exists; [done|]. by apply Hcur.
          - right. by apply finishedAt_updateAt. }
        destruct rest as [|it2 rest]; injection Hr as <-.
        -- apply (loopFrom_closing c queue id _ _ [] w
                    (setScanResults
                       (updateAt resultIndex (markCompleted mobileResult m'))
                       (state w)) Hal); [done|done| |done].
           simpl. by rewrite urls_updateAt.
        -- rewrite (continue_alone id _ w) by done.
           split; [done|]. split.
           { simpl. by rewrite urls_updateAt. }
           right. eexists. split; [reflexivity|].
           split; [by split|]. split; [done|]. done.
      * injection Hr as <-. by eapply Hcatch.
    + (* a timer fires *)
      destruct Hcase as (-> & d & r & _ & _ & Hr & ->). rewrite Htimer in Hr.
      destruct t; simpl in Hr; try done; simpl in Hc; injection Hc as ->;
        simpl in Hfound.
      * rewrite Hs in Hr. injection Hr as <-.
        rewrite (continue_alone id _ w) by done.
        split; [done|]. split; [done|]. right. eexists.
        split; [reflexivity|]. split; [by split|]. split; [done|]. done.
      * injection Hr as <-. by eapply loopFrom_closing.
    + (* time passes *)
      subst w'. split; [done|]. split; [done|]. right. exists t.
      by repeat split.
Qed.

Lemma closing_steps c queue id (ins : list Input) :
  forall seen (w w' : World),
    closing c queue id seen w -> forallb unstopped ins = true ->
    steps w ins = Some w' -> closing c queue id (seen ++ ins) w'.
Proof.
  induction ins as [|i ins IH]; intros seen w w' HC Hp; simpl.
  - intros [= <-]. by rewrite app_nil_r.
  - simpl in Hp. apply andb_prop in Hp as [Hp1 Hp2].
    destruct (step w i) as [w1|] eqn:H1; [|done]. simpl. intros Hsteps.
    pose proof (closing_step _ _ _ _ _ _ _ HC Hp1 H1) as HC1.
    pose proof (IH _ _ _ HC1 Hp2 Hsteps) as HC'.
    by rewrite <- app_assoc in HC'.
Qed.

Lemma closing_start c queue (w : World) (s : State) :
  tasks w = [] -> allFound c queue ->
  url <$> scanResults s = url <$> c ->
  closing c queue (nextId w) []
    (spawn w (startPerformanceScanWithUrls c queue s)).
Proof.
  intros Hidle Hfound Hu. unfold startPerformanceScanWithUrls.
  destruct queue as [|it rest].
  - rewrite loopFrom_nil, spawn_idle by done.
    split; [done|]. split; [done|]. left. simpl. split; [done|].
    split; [done|]. intros j (x & Hx & _). by apply elem_of_nil in Hx.
  - inversion Hfound as [|? ? [i Hi] Hfound']; subst.
    rewrite (loopFrom_found c it rest i) by done.
    rewrite spawn_idle by done.
    split; [done|]. split.
    { simpl. by rewrite urls_updateAt. }
    right. exists (LoopMobile c it rest i). simpl.
    split; [done|]. split.
    { split; [done|]. simpl. by intros ? ? [= <- <-]. }
    split; [done|]. intros j Hj. by left.
Qed.

(** X6.  A run of the loop, started from any handler (with the state [s]
    that handler has written) on a page with no task parked, over a queue
    whose items all have a result in the list the loop searches, the
    results of [s] having the same URLs in the same order as that list;
    nobody stops the run.  When the run has ended, [isScanning] is off and
    the row of every item of the queue has the URL of the item and is
    either completed, with a mobile and a desktop result and no error, or
    failed with the message of a call of the run that threw.  (So when no
    call throws, every item is completed.) *)
Theorem unstopped_run_settles_every_item (c : list ScanResult)
    (queue : list UrlItem) (w w' : World) (s : State) (ins : list Input) :
  tasks w = [] ->
  allFound c queue ->
  url <$> scanResults s = url <$> c ->
  forallb unstopped ins = true ->
  steps (spawn w (startPerformanceScanWithUrls c queue s)) ins = Some w' ->
  tasks w' = [] ->
  isScanning (state w') = false
  /\ forall it j, it ∈ queue -> indexIn c it = Some j ->
       exists r, scanResults (state w') !! j = Some r
         /\ url r = item_url it
         /\ ((status r = completed /\ is_Some (mobile r)
              /\ is_Some (desktop r) /\ error r = None)
             \/ (status r = failed
                 /\ exists msg, error r = Some msg
                      /\ Respond (nextId w) (Throws msg) ∈ ins)).
Proof.
  intros Hidle Hfound Hu Hun Hsteps Hend.
  destruct (closing_steps c queue (nextId w) ins [] _ w'
              (closing_start c queue w s Hidle Hfound Hu) Hun Hsteps)
    as (_ & Hu' & [(_ & Hsc & Hfin)|(t & Hal & _)]).
  - split; [done|]. intros it j Hit Hj.
    destruct (Hfin j) as (r & Hr & H); [by exists it|].
    exists r. split; [done|]. split; [|done].
    apply indexIn_url in Hj as (rc & Hrc & <-).
    assert (H1 : (url <$> scanResults (state w')) !! j = Some (url r))
      by (by rewrite list_lookup_fmap, Hr).
    rewrite Hu', list_lookup_fmap, Hrc in H1. simpl in H1. congruence.
  - unfold alone in Hal. by rewrite Hend in Hal.
Qed.

(** *** Runs in which every call returns are runs that nobody stops *)

Lemma smooth_all_unstopped (ins : list Input) :
  forallb smooth ins = true -> forallb unstopped ins = true.
Proof.
  induction ins as [|i ins IH]; simpl; [done|].
  intros H. apply andb_prop in H as [H1 H2]. rewrite IH by done.
  by destruct i as [| | | | | | | | | |k [m|msg]| |k|ms].
Qed.

Lemma smooth_no_throw (ins : list Input) id msg :
  forallb smooth ins = true -> Respond id (Throws msg) ∉ ins.
Proof.
  intros H Hin. rewrite forallb_forall in H.
  apply list_elem_of_In in Hin. by apply H in Hin.
Qed.

(** *** The rows the loop writes are the rows of its items *)


(** A device result, to answer a call with. *)
Definition anyResult : DeviceResult :=
  {| scores := {| Route.performance := 0; Route.accessibility := 0;
                  Route.bestPractices := 0; Route.seo := 0 |};
     fieldData := {| Route.fcp := None; Route.fid := None;
                     Route.lcp := None; Route.cls := None |};
     issues := [] |}.






(** *** A call of the loop throws *)

(** The [catch] of the loop has run for the item at [i], in a run that
    nobody stops, over items with distinct URLs that all have a result in
    the list the loop searches, the rows having the URLs of that list. *)
Lemma catch_contained c id (t : Task) it rest i msg (r : ScanResult)
    (w : World) :
  alone id t w ->
  indexIn c it = Some i ->
  allFound c rest ->
  NoDup (item_url <$> it :: rest) ->
  url <$> scanResults (state w) = url <$> c ->
  stopScanningRef (state w) = false ->
  scanResults (state w) !! i = Some r ->
  let w1 := continue w id (loopCatch c rest i msg (state w)) in
  match rest with
  | [] => tasks w1 = [] /\ log w1 = log w
  | it2 :: rest2 =>
      exists i2, indexIn c it2 = Some i2
        /\ alone id (LoopMobile c it2 rest2 i2) w1
        /\ log w1 = log w ++ [EvCall (item_url it2) Route.mobile]
  end
  /\ (exists (ins : list Input) (w' : World),
        forallb unstopped ins = true /\ steps w1 ins = Some w'
        /\ tasks w' = [])
  /\ forall (ins : list Input) (w' : World),
       forallb unstopped ins = true ->
       steps w1 ins = Some w' ->
       (exists r', scanResults (state w') !! i = Some r'
          /\ url r' = item_url it
          /\ status r' = failed /\ error r' = Some msg
          /\ mobile r' = mobile r /\ desktop r' = desktop r)
       /\ exists evs, log w' = log w ++ evs
            /\ (forall d, EvCall (item_url it) d ∉ evs)
            /\ (tasks w' = [] -> mobileCalls evs = item_url <$> rest).
Proof.
  intros Hal Hi Hfound Hnd Hu Hs Hr w1.
  assert (Hprog : match rest with
    | [] => tasks w1 = [] /\ log w1 = log w
    | it2 :: rest2 =>
        exists i2, indexIn c it2 = Some i2
          /\ alone id (LoopMobile c it2 rest2 i2) w1
          /\ log w1 = log w ++ [EvCall (item_url it2) Route.mobile]
    end).
  { subst w1. unfold loopCatch. destruct rest as [|it2 rest2].
    - rewrite loopFrom_nil, (continue_alone id t w) by done. simpl.
      by rewrite app_nil_r.
    - inversion Hfound as [|? ? [i2 Hi2] Hfound']; subst.
      exists i2. rewrite (loopFrom_found c it2 rest2 i2) by done.
      by rewrite (continue_alone id t w) by done. }
  split; [exact Hprog|]. split.
  { destruct rest as [|it2 rest2].
    - exists [], w1. destruct Hprog as [Hend _]. done.
    - destruct Hprog as (i2 & Hi2 & Hal1 & _).
      inversion Hfound as [|? ? _ Hfound']; subst.
      assert (Hs1 : stopScanningRef (state w1) = false).
      { subst w1. unfold loopCatch.
        rewrite (loopFrom_found c it2 rest2 i2) by done.
        by rewrite (continue_alone id t w) by done. }
      destruct (smooth_turns_complete c id anyResult rest2 it2 i2 w1
                  Hal1 Hs1 Hfound') as (w' & Hw' & Hend).
      exists (smoothInputs id anyResult (it2 :: rest2)), w'.
      split; [|done]. apply smooth_all_unstopped, smoothInputs_smooth. }
  intros ins w' Hun Hsteps.
  set (s1 := setScanResults (updateAt i (markError msg)) (state w)).
  assert (HF : Frame c id rest (scanResults s1) (log w) w').
  { eapply Frame_steps; [|by apply unstopped_all_passive|exact Hsteps].
    eapply Frame_of_ran; [done|]. by apply loopFrom_frame. }
  assert (HS : serving c id (mobileCalls (log w) ++ (item_url <$> rest)) w').
  { eapply serving_steps; [|done|exact Hsteps].
    by eapply loopFrom_serving. }
  destruct HF as [_ Hst (evs & Hlog & Hev)]. split.
  - exists (markError msg r). rewrite Hst.
    + subst s1. simpl. unfold updateAt.
      rewrite list_lookup_alter_eq, Hr. split; [done|]. split; [|done].
      simpl. apply indexIn_url in Hi as (rc & Hrc & <-).
      assert (H1 : (url <$> scanResults (state w)) !! i = Some (url r))
        by (by rewrite list_lookup_fmap, Hr).
      rewrite Hu, list_lookup_fmap, Hrc in H1. simpl in H1. congruence.
    + by apply (not_touches_current c it rest i).
  - exists evs. split; [done|]. split.
    + intros d Hin. destruct (Hev _ _ Hin) as (it' & Hit' & Hu').
      rewrite fmap_cons in Hnd. apply NoDup_cons in Hnd as [Hnotin _].
      apply Hnotin. rewrite <- Hu'. apply list_elem_of_fmap. eauto.
    + intros Hend. destruct HS as [[_ Hm]|(t' & Ht' & _)].
      * rewrite Hlog, mobileCalls_app in Hm. by apply app_inv_head in Hm.
      * unfold alone in Ht'. by rewrite Hend in Ht'.
Qed.


(** X5.  The desktop call of an item throws, in a run that nobody stops,
    over items with distinct URLs that all have a result in the list the
    loop searches, the rows having the URLs of that list.  The loop takes
    the step and in it goes on to the next item: it issues the mobile call
    of the next item of the queue at once, or ends the run when there is
    none; and the run can end.  From then on, whatever the later calls
    answer: the row at the index of the item is the item's own (it has the
    URL of the item), it is failed with the thrown message, and its device
    results are those it had before the turn, so the mobile result the
    turn had obtained is not stored; no call is issued for this item any
    more; and when the run has ended, the mobile call of every later item
    of the queue has been issued, in queue order. *)
Theorem desktop_failure_is_contained (c : list ScanResult) (id : nat)
    (it : UrlItem) (rest : list UrlItem) (i : nat) (m : DeviceResult)
    (msg : string) (r : ScanResult) (w : World) :
  alone id (LoopDesktop c it rest i m) w ->
  indexIn c it = Some i ->
  allFound c rest ->
  NoDup (item_url <$> it :: rest) ->
  url <$> scanResults (state w) = url <$> c ->
  stopScanningRef (state w) = false ->
  scanResults (state w) !! i = Some r ->
  exists w1, step w (Respond id (Throws msg)) = Some w1
    /\ match rest with
       | [] => tasks w1 = [] /\ log w1 = log w
       | it2 :: rest2 =>
           exists i2, indexIn c it2 = Some i2
             /\ alone id (LoopMobile c it2 rest2 i2) w1
             /\ log w1 = log w ++ [EvCall (item_url it2) Route.mobile]
       end
    /\ (exists (ins : list Input) (w' : World),
          forallb unstopped ins = true /\ steps w1 ins = Some w'
          /\ tasks w' = [])
    /\ forall (ins : list Input) (w' : World),
         forallb unstopped ins = true ->
         steps w1 ins = Some w' ->
         (exists r', scanResults (state w') !! i = Some r'
            /\ url r' = item_url it
            /\ status r' = failed /\ error r' = Some msg
            /\ mobile r' = mobile r /\ desktop r' = desktop r)
         /\ exists evs, log w' = log w ++ evs
              /\ (forall d, EvCall (item_url it) d ∉ evs)
              /\ (tasks w' = [] -> mobileCalls evs = item_url <$> rest).
Proof.
  intros Hal Hi Hfound Hnd Hu Hs Hr.
  exists (continue w id (loopCatch c rest i msg (state w))).
  split; [exact (step_throws_desktop c id it rest i m msg w Hal)|].
  exact (catch_contained c id _ it rest i msg r w Hal Hi Hfound Hnd Hu Hs Hr).
Qed.

(** X25.  The mobile call of an item throws, in a run that nobody stops,
    over items with distinct URLs that all have a result in the list the
    loop searches, the rows having the URLs of that list.  The loop takes
    the step and in it goes on to the next item: it issues the mobile call
    of the next item of the queue at once, or ends the run when there is
    none; and the run can end.  From then on, whatever the later calls
    answer: no call at all is issued for this item any more, its desktop
    call in particular; the row at the index of the item is the item's own
    (it has the URL of the item), it is failed with the thrown message, and
    its device results are those it had before the turn; and when the run
    has ended, the mobile call of every later item of the queue has been
    issued, in queue order. *)
Theorem mobile_failure_is_contained (c : list ScanResult) (id : nat)
    (it : UrlItem) (rest : list UrlItem) (i : nat) (msg : string)
    (r : ScanResult) (w : World) :
  alone id (LoopMobile c it rest i) w ->
  indexIn c it = Some i ->
  allFound c rest ->
  NoDup (item_url <$> it :: rest) ->
  url <$> scanResults (state w) = url <$> c ->
  stopScanningRef (state w) = false ->
  scanResults (state w) !! i = Some r ->
  exists w1, step w (Respond id (Throws msg)) = Some w1
    /\ match rest with
       | [] => tasks w1 = [] /\ log w1 = log w
       | it2 :: rest2 =>
           exists i2, indexIn c it2 = Some i2
             /\ alone id (LoopMobile c it2 rest2 i2) w1
             /\ log w1 = log w ++ [EvCall (item_url it2) Route.mobile]
       end
    /\ (exists (ins : list Input) (w' : World),
          forallb unstopped ins = true /\ steps w1 ins = Some w'
          /\ tasks w' = [])
    /\ forall (ins : list Input) (w' : World),
         forallb unstopped ins = true ->
         steps w1 ins = Some w' ->
         (exists r', scanResults (state w') !! i = Some r'
            /\ url r' = item_url it
            /\ status r' = failed /\ error r' = Some msg
            /\ mobile r' = mobile r /\ desktop r' = desktop r)
         /\ exists evs, log w' = log w ++ evs
              /\ (forall d, EvCall (item_url it) d ∉ evs)
              /\ (tasks w' = [] -> mobileCalls evs = item_url <$> rest).
Proof.
  intros Hal Hi Hfound Hnd Hu Hs Hr.
  exists (continue w id (loopCatch c rest i msg (state w))).
  split; [exact (step_throws_mobile c id it rest i msg w Hal)|].
  exact (catch_contained c id _ it rest i msg r w Hal Hi Hfound Hnd Hu Hs Hr).
Qed.

(** *** The Stop button after the mobile call of an item *)


End WithNumber.

End LoopEndFacts.

(* ===================================================================== *)
(** ** One run at a time, as long as nobody presses Stop *)
(* ===================================================================== *)

Module ExclusionFacts.

Import Page JsFacts RunFacts.

Section WithNumber.

Context {number : Type}.

Local Abbreviation ScanResult := (ScanResult number).
Local Abbreviation State := (State number).
Local Abbreviation World := (World number).
Local Abbreviation Task := (Task number).
Local Abbreviation Ran := (Ran number).
Local Abbreviation Input := (Input number).

(** The controls whose handler starts a scan or replaces the lists while
    results are shown: "Rescan Errors", "Retry" and the two submits. *)
Definition starts (i : Input) : bool :=
  match i with
  | ClickRescanErrors | ClickRetry _ | SubmitManual _ _ | SubmitSitemap => true
  | _ => false
  end.

(** The loop is parked with [isScanning] set, or the run has ended. *)
Definition busy (c : list ScanResult) (id : nat) (w : World) : Prop :=
  tasks w = []
  \/ exists t, alone id t w /\ capturedOf t = Some c
       /\ isScanning (state w) = true.

(** What the loop leaves behind when it goes on with [isScanning] set. *)
Definition ranBusy (c : list ScanResult) (r : Ran) : Prop :=
  forall t, r.2 = Some t -> capturedOf t = Some c /\ isScanning (r.1.1) = true.

Lemma loopFrom_busy c rest (s : State) :
  isScanning s = true -> ranBusy c (loopFrom c rest s).
Proof.
  intros Hs.
  destruct (loopFrom_inv c rest s)
    as [->|(sk & it & rest' & i & -> & _ & _ & _ & ->)]; [done|].
  intros t [= <-]. done.
Qed.

Lemma resumeLoop_busy c nw t o (s : State) r :
  capturedOf t = Some c -> isScanning s = true ->
  resumeLoop nw t o s = Some r -> ranBusy c r.
Proof.
  intros Hc Hs.
  destruct t, o as [[m'|msg]|]; simpl; try done;
    simpl in Hc; injection Hc as ->.
  - intros [= <-] t [= <-]. done.
  - intros [= <-]. by apply loopFrom_busy.
  - destruct (stopScanningRef s); intros [= <-]; [done|].
    intros t [= <-]. done.
  - destruct rest as [|it2 rest]; intros [= <-]; [done|].
    intros t [= <-]. done.
  - intros [= <-]. by apply loopFrom_busy.
  - intros [= <-]. by apply loopFrom_busy.
Qed.

Lemma busy_continue c id t (w : World) r :
  alone id t w -> ranBusy c r -> busy c id (continue w id r).
Proof.
  intros Hal Hr. destruct r as [[s evs] [t'|]];
    rewrite (continue_alone id t w) by done.
  - right. exists t'. destruct (Hr t' eq_refl). done.
  - by left.
Qed.

Lemma busy_step c id (w w' : World) (i : Input) :
  busy c id w -> unstopped i = true -> step w i = Some w' -> busy c id w'.
Proof.
  intros [Hidle|(t & Hal & Hc & Hs)] Hun Hstep.
  - left. by destruct (idle_step w w' i Hidle (unstopped_passive i Hun) Hstep).
  - pose proof (alone_step id t w w' i Hal (unstopped_passive i Hun) Hstep)
      as Hcase.
    destruct i as [| | | | | | | | | |k o| |k|ms]; try done.
    + destruct Hcase as (-> & r & Hr & ->).
      assert (resumeLoop (now w) t (Some o) (state w) = Some r)
        by (by destruct t).
      eapply busy_continue; [done|]. by eapply resumeLoop_busy.
    + destruct Hcase as (-> & d & r & _ & _ & Hr & ->).
      assert (resumeLoop (now w) t None (state w) = Some r)
        by (by destruct t).
      eapply busy_continue; [done|]. by eapply resumeLoop_busy.
    + subst w'. right. by exists t.
Qed.

Lemma busy_steps c id (ins : list Input) :
  forall (w w' : World),
    busy c id w -> forallb unstopped ins = true ->
    steps w ins = Some w' -> busy c id w'.
Proof.
  induction ins as [|i ins IH]; intros w w' HB Hp; simpl.
  - by intros [= <-].
  - simpl in Hp. apply andb_prop in Hp as [Hp1 Hp2].
    destruct (step w i) as [w1|] eqn:H1; [|done]. simpl.
    apply IH; [|done]. by eapply busy_step.
Qed.

(** X7.  A run of the loop, started from any handler on a page with no
    task parked, that nobody has stopped: as long as it is in progress (its
    task is still parked), [isScanning] is set and the page refuses every
    control that would start another scan: "Rescan Errors", "Retry" of any
    row, and the submit of either form. *)
Theorem no_second_run_unless_stopped (c : list ScanResult)
    (queue : list UrlItem) (w w' : World) (s : State) (ins : list Input)
    (i : Input) :
  tasks w = [] ->
  forallb unstopped ins = true ->
  steps (spawn w (startPerformanceScanWithUrls c queue s)) ins = Some w' ->
  tasks w' <> [] ->
  starts i = true ->
  isScanning (state w') = true /\ step w' i = None.
Proof.
  intros Hidle Hun Hsteps Hpark Hi.
  assert (HB : busy c (nextId w) w').
  { eapply busy_steps; [|done|exact Hsteps].
    unfold startPerformanceScanWithUrls.
    pose proof (loopFrom_busy c queue
                  (setStopScanningRef false (setIsScanning true s)) eq_refl)
      as Hr.
    destruct (loopFrom c queue _) as [[s1 evs] [t|]];
      rewrite spawn_idle by done.
    - right. exists t. destruct (Hr t eq_refl). done.
    - by left. }
  destruct HB as [Hend|(t & _ & _ & Hs)]; [done|].
  split; [done|].
  destruct i; simpl in Hi; try done; simpl;
    unfold rescanErrorsOffered, retryOffered, submitOffered; rewrite Hs.
  - done.
  - destruct (scanResults (state w') !! index); [|done].
    by rewrite andb_false_r.
  - by rewrite andb_false_r.
  - by rewrite andb_false_r.
Qed.

End WithNumber.

End ExclusionFacts.

(* ===================================================================== *)
(** ** What holds of every row the page can show *)
(* ===================================================================== *)

Module ReachFacts.

Import Page.

Section Invariant.

Context {number : Type}.

Local Abbreviation ScanResult := (ScanResult number).
Local Abbreviation State := (State number).
Local Abbreviation World := (World number).
Local Abbreviation Ran := (Ran number).
Local Abbreviation Input := (Input number).

(** A property of a row that a fresh row has and every update of the
    handlers keeps. *)
Variable P : ScanResult -> Prop.

Hypothesis P_pending : forall u, P (pendingResult u).
Hypothesis P_scanning : forall r, P r -> P (markScanning r).
Hypothesis P_completed : forall m d r, P r -> P (markCompleted m d r).
Hypothesis P_error : forall msg r, P r -> P (markError msg r).
Hypothesis P_reset : forall r, P r -> P (resetIfError r).
Hypothesis P_flip : forall r, P r -> P (flipIssues r).

Definition rowsOk (s : State) : Prop := Forall P (scanResults s).

Definition leavesOk (r : Ran) : Prop := rowsOk (r.1.1).

Lemma rowsOk_updateAt i f (s : State) :
  (forall r, P r -> P (f r)) ->
  rowsOk s -> rowsOk (setScanResults (updateAt i f) s).
Proof.
  unfold rowsOk, updateAt. simpl. intros Hf H.
  apply Forall_alter; [done|]. intros x _. apply Hf.
Qed.

Lemma rowsOk_initialResults items (s : State) :
  rowsOk (setScanResults (fun _ => initialResults items) s).
Proof.
  unfold rowsOk, initialResults. simpl. apply Forall_fmap, Forall_forall.
  intros item _. apply P_pending.
Qed.

Lemma loopFrom_rows c rest (s : State) :
  rowsOk s -> leavesOk (loopFrom c rest s).
Proof.
  revert s. induction rest as [|urlItem rest IH]; intros s Hs; simpl.
  - done.
  - destruct (stopScanningRef s); [done|].
    destruct (Js.findIndex _ c) as [i|]; [|by apply IH].
    unfold leavesOk. simpl.
    by apply (rowsOk_updateAt i markScanning
                (setCurrentScanIndex (Some i) s)).
Qed.

Lemma loopCatch_rows c rest i msg (s : State) :
  rowsOk s -> leavesOk (loopCatch c rest i msg s).
Proof.
  intros Hs. apply loopFrom_rows, rowsOk_updateAt; [|done]. apply P_error.
Qed.

Lemma resumeLoop_rows nw t o (s : State) r :
  rowsOk s -> resumeLoop nw t o s = Some r -> leavesOk r.
Proof.
  intros Hs. destruct t, o as [[m'|msg]|]; simpl; try done.
  - by intros [= <-].
  - intros [= <-]. by apply loopCatch_rows.
  - destruct (stopScanningRef s); by intros [= <-].
  - assert (rowsOk (setScanResults
              (updateAt resultIndex (markCompleted mobileResult m')) s)).
    { apply rowsOk_updateAt; [|done]. apply P_completed. }
    destruct rest; intros [= <-]; exact H.
  - intros [= <-]. by apply loopCatch_rows.
  - intros [= <-]. by apply loopFrom_rows.
Qed.

Lemma resumeSingle_rows nw t o (s : State) r :
  rowsOk s -> resumeSingle nw t o s = Some r -> leavesOk r.
Proof.
  intros Hs. destruct t, o as [[m'|msg]|]; simpl; try done.
  - by intros [= <-].
  - intros [= <-]. unfold singleCatch, leavesOk. simpl.
    apply (rowsOk_updateAt index (markError msg) s); [|done]. apply P_error.
  - destruct (stopScanningRef s); by intros [= <-].
  - intros [= <-]. unfold leavesOk. simpl.
    apply (rowsOk_updateAt index (markCompleted mobileResult m') s); [|done].
    apply P_completed.
  - intros [= <-]. unfold singleCatch, leavesOk. simpl.
    apply (rowsOk_updateAt index (markError msg) s); [|done]. apply P_error.
Qed.

Lemma rescanSingleUrl_rows i (s : State) r :
  rowsOk s -> rescanSingleUrl i s = Some r -> leavesOk r.
Proof.
  intros Hs. unfold rescanSingleUrl. destruct (scanResults s !! i); [|done].
  intros [= <-]. unfold leavesOk, rowsOk, updateAt. simpl.
  apply Forall_alter; [|intros; by apply P_scanning].
  apply Forall_alter; [done|intros; apply P_pending].
Qed.

Lemma rescanErrorUrls_rows (s : State) r :
  rowsOk s -> rescanErrorUrls s = Some r -> leavesOk r.
Proof.
  intros Hs. unfold rescanErrorUrls. destruct (filter _ _); [done|].
  intros [= <-]. apply loopFrom_rows.
  unfold rowsOk. simpl. apply Forall_fmap.
  eapply Forall_impl; [exact Hs|]. intros x. apply P_reset.
Qed.

Lemma startPerformanceScan_rows (s : State) r :
  startPerformanceScan s = Some r -> leavesOk r.
Proof.
  unfold startPerformanceScan. destruct (filter _ _) as [|it its]; [done|].
  intros [= <-]. apply loopFrom_rows.
  apply (rowsOk_initialResults (it :: its)).
Qed.

Lemma handleManualUrlsSubmit_rows nw k v (s : State) r :
  handleManualUrlsSubmit nw k v s = Some r -> leavesOk r.
Proof.
  unfold handleManualUrlsSubmit.
  destruct (negb _); [done|]. destruct (negb _); [done|].
  destruct (parseManualUrls v); [done|]. intros [= <-].
  unfold leavesOk, rowsOk. simpl. constructor.
Qed.

Lemma resumeTimer_rows nw t (s : State) r :
  rowsOk s -> resumeTimer nw t s = Some r -> leavesOk r.
Proof.
  intros Hs. destruct t; simpl; try done.
  - destruct (stopScanningRef s); by intros [= <-].
  - intros [= <-]. by apply loopFrom_rows.
  - destruct (stopScanningRef s); by intros [= <-].
  - intros [= <-]. apply loopFrom_rows, rowsOk_initialResults.
Qed.

Lemma resumeCall_rows nw t o (s : State) r :
  rowsOk s -> resumeCall nw t o s = Some r -> leavesOk r.
Proof.
  intros Hs H. destruct t; unfold resumeCall in H; try done;
    first [ by apply (resumeLoop_rows _ _ _ _ _ Hs H)
          | by apply (resumeSingle_rows _ _ _ _ _ Hs H) ].
Qed.

Lemma resumeSitemap_rows t reply (s : State) r :
  rowsOk s -> resumeSitemap t reply s = Some r -> leavesOk r.
Proof.
  intros Hs. destruct t; simpl; try done.
  destruct reply as [[|u us]|]; by intros [= <-].
Qed.

Lemma state_spawn (w : World) r : state (spawn w r) = r.1.1.
Proof. by destruct r as [[s evs] ot]. Qed.

Lemma state_continue (w : World) id r : state (continue w id r) = r.1.1.
Proof. by destruct r as [[s evs] ot]. Qed.

Lemma step_rows (w w' : World) (i : Input) :
  rowsOk (state w) -> step w i = Some w' -> rowsOk (state w').
Proof.
  intros Hs. destruct i; simpl.
  - destruct (startOffered _); [|done].
    destruct (startPerformanceScan _) as [r|] eqn:Hr; [|done].
    intros [= <-]. rewrite state_spawn.
    by eapply startPerformanceScan_rows.
  - destruct (stopOffered _); [|done]. by intros [= <-].
  - destruct (rescanErrorsOffered _); [|done].
    destruct (rescanErrorUrls _) as [r|] eqn:Hr; [|done].
    intros [= <-]. rewrite state_spawn.
    by eapply rescanErrorUrls_rows.
  - destruct (retryOffered _ _); [|done].
    destruct (rescanSingleUrl _ _) as [r|] eqn:Hr; [|done].
    intros [= <-]. rewrite state_spawn.
    by eapply rescanSingleUrl_rows.
  - destruct (toggleIssuesOffered _ _); [|done]. intros [= <-]. simpl.
    by apply rowsOk_updateAt.
  - destruct (_ && _); [|done].
    destruct (handleManualUrlsSubmit _ _ _ _) as [r|] eqn:Hr; [|done].
    intros [= <-]. rewrite state_spawn.
    by eapply handleManualUrlsSubmit_rows.
  - destruct (_ && _); [|done]. intros [= <-]. simpl.
    unfold rowsOk. simpl. constructor.
  - destruct (modeOffered _); [|done]. by intros [= <-].
  - destruct (selectionShown _); [|done]. by intros [= <-].
  - destruct (selectionShown _); [|done]. by intros [= <-].
  - destruct (lookupTask _ _) as [t|]; [|done]. simpl.
    destruct (resumeCall _ _ _ _) as [r|] eqn:Hr; [|done].
    intros [= <-]. rewrite state_continue.
    by eapply resumeCall_rows.
  - destruct (lookupTask _ _) as [t|]; [|done]. simpl.
    destruct (resumeSitemap _ _ _) as [r|] eqn:Hr; [|done].
    intros [= <-]. rewrite state_continue.
    by eapply resumeSitemap_rows.
  - destruct (lookupTask _ _) as [t|]; [|done]. simpl.
    destruct (deadlineOf t) as [d|]; [|done]. simpl.
    destruct (d <=? now w)%N; [|done].
    destruct (resumeTimer _ _ _) as [r|] eqn:Hr; [|done].
    intros [= <-]. rewrite state_continue.
    by eapply resumeTimer_rows.
  - by intros [= <-].
Qed.

Lemma steps_rows (w w' : World) (ins : list Input) :
  rowsOk (state w) -> steps w ins = Some w' -> rowsOk (state w').
Proof.
  revert w. induction ins as [|i ins IH]; intros w Hs; simpl.
  - by intros [= <-].
  - destruct (step w i) as [w1|] eqn:H1; [|done]. simpl.
    apply IH. by eapply step_rows.
Qed.

End Invariant.

Section WithNumber.

Context {number : Type}.

Local Abbreviation ScanResult := (ScanResult number).
Local Abbreviation World := (World number).
Local Abbreviation Input := (Input number).

(** The status and the error message of a row agree, and the two device
    results come together. *)
Definition coherent (r : ScanResult) : Prop :=
  (status r = failed -> is_Some (error r))
  /\ (status r = pending -> error r = None)
  /\ (is_Some (error r) -> status r = failed \/ status r = scanning)
  /\ (is_Some (mobile r) <-> is_Some (desktop r)).

Ltac row_cases :=
  unfold coherent; simpl; repeat split; intros;
  try done; try tauto; eauto;
  try (by match goal with H : is_Some None |- _ => destruct H end).

Lemma coherent_pending u : coherent (pendingResult u).
Proof. row_cases. Qed.

Lemma coherent_markScanning r : coherent r -> coherent (markScanning r).
Proof. row_cases. Qed.

Lemma coherent_markCompleted m d r :
  coherent r -> coherent (markCompleted m d r).
Proof. row_cases. Qed.

Lemma coherent_markError msg r : coherent r -> coherent (markError msg r).
Proof. row_cases. Qed.

Lemma coherent_resetIfError r : coherent r -> coherent (resetIfError r).
Proof. unfold resetIfError. destruct (isError r); [|done]. row_cases. Qed.

Lemma coherent_flipIssues r : coherent r -> coherent (flipIssues r).
Proof. row_cases. Qed.

(** X8.  In every state the page reaches from its first render, by any
    sequence of user actions interleaved in any way with the ends of
    backend calls and timers, every row of the result list is coherent: a
    failed row has an error message; a pending row has none; a row with an
    error message is failed or, while it is scanned again, scanning; and a
    row has a mobile result exactly when it has a desktop result. *)
Theorem rows_are_coherent (ins : list Input) (w : World) :
  steps initialWorld ins = Some w ->
  forall r, r ∈ scanResults (state w) ->
    (status r = failed -> is_Some (error r))
    /\ (status r = pending -> error r = None)
    /\ (is_Some (error r) -> status r = failed \/ status r = scanning)
    /\ (is_Some (mobile r) <-> is_Some (desktop r)).
Proof.
  intros Hsteps r Hr.
  assert (Hok : rowsOk coherent (state w)).
  { apply (steps_rows coherent coherent_pending coherent_markScanning
             coherent_markCompleted coherent_markError
             coherent_resetIfError coherent_flipIssues
             initialWorld w ins); [constructor|exact Hsteps]. }
  unfold rowsOk in Hok. rewrite Forall_forall in Hok. by apply Hok.
Qed.

End WithNumber.

End ReachFacts.

(* ===================================================================== *)
(** ** The result list a scan searches *)
(* ===================================================================== *)

Module CapturedFacts.

Import Page JsFacts RunFacts.

Section WithNumber.

Context {number : Type}.

Local Abbreviation DeviceResult := (DeviceResult number).
Local Abbreviation ScanResult := (ScanResult number).
Local Abbreviation State := (State number).
Local Abbreviation World := (World number).
Local Abbreviation Task := (Task number).
Local Abbreviation Ran := (Ran number).
Local Abbreviation Input := (Input number).

(** A loop that searches the empty list finds no item: it ends at once. *)
Lemma loopFrom_empty rest (s : State) :
  loopFrom [] rest s = (afterLoop s, [], None).
Proof.
  induction rest as [|it rest IH]; simpl; [done|].
  by destruct (stopScanningRef s).
Qed.

Lemma selectionShown_empty (s : State) :
  selectionShown s = true -> scanResults s = [].
Proof.
  unfold selectionShown. intros H.
  apply andb_prop in H as [H _]. apply andb_prop in H as [_ H].
  by destruct (scanResults s).
Qed.

(** X9.  The button "Start Performance Scan", whenever the page offers
    it: the handler creates one pending row per selected URL, in the order
    of the URL list, and that is all; the scan it starts searches the
    result list of the render of the button, which is empty (the button is
    shown only then), so it finds no URL: no backend call is issued, no
    task is parked, and [isScanning] is off when the handler returns. *)
Theorem start_button_issues_no_call (w w' : World) :
  step w ClickStart = Some w' ->
  log w' = log w
  /\ tasks w' = tasks w
  /\ isScanning (state w') = false
  /\ scanResults (state w')
     = initialResults (filter (fun item => selected item = true)
                         (urls (state w)))
  /\ scanResults (state w') <> [].
Proof.
  simpl. unfold startOffered.
  destruct (selectionShown (state w)) eqn:Hshown; [|done].
  apply selectionShown_empty in Hshown.
  unfold startPerformanceScan.
  destruct (filter _ (urls (state w))) as [|it its]; [done|].
  simpl. unfold startPerformanceScanWithUrls. rewrite Hshown.
  rewrite loopFrom_empty. intros [= <-]. simpl.
  by rewrite app_nil_r.
Qed.

(** *** The calls of a scan started by a manual submit *)

(** The calls among the events are for URLs of [c] and of the items [T]. *)
Definition callsShown (c : list ScanResult) (T : list UrlItem)
    (evs : list Event) : Prop :=
  forall u d, EvCall u d ∈ evs ->
    u ∈ url <$> c /\ u ∈ item_url <$> T.

Definition ranShown (c : list ScanResult) (T : list UrlItem) (r : Ran)
  : Prop :=
  callsShown c T (r.1.2)
  /\ (forall t', r.2 = Some t' -> loopOver c t' /\ todoOf t' ⊆ T).

Lemma callsShown_nil c T : callsShown c T [].
Proof. intros u d H. by apply elem_of_nil in H. Qed.

Lemma callsShown_pace c T : callsShown c T [EvPace].
Proof. intros u d H. apply list_elem_of_singleton in H. done. Qed.

Lemma callsShown_call (c : list ScanResult) T it i d :
  it ∈ T -> indexIn c it = Some i ->
  callsShown c T [EvCall (item_url it) d].
Proof.
  intros Hit Hi u d' H. apply list_elem_of_singleton in H.
  inversion H; subst. split.
  - apply indexIn_url in Hi as (r & Hr & <-).
    apply list_elem_of_fmap. exists r. split; [done|].
    by eapply list_elem_of_lookup_2.
  - apply list_elem_of_fmap. by exists it.
Qed.

Lemma callsShown_app c T evs evs' :
  callsShown c T evs -> callsShown c T evs' -> callsShown c T (evs ++ evs').
Proof.
  intros H H' u d Hin. apply elem_of_app in Hin as [?|?]; eauto.
Qed.

Lemma loopFrom_shown c T rest (s : State) :
  rest ⊆ T -> ranShown c T (loopFrom c rest s).
Proof.
  intros Hsub.
  destruct (loopFrom_inv c rest s)
    as [->|(sk & it & rest' & i & -> & Hi & _ & _ & ->)].
  - split; [apply callsShown_nil|done].
  - assert (Hit : it ∈ T).
    { apply Hsub, elem_of_app. right. apply list_elem_of_here. }
    split.
    + by eapply callsShown_call.
    + simpl. intros t' [= <-]. split.
      * split; [done|]. simpl. by intros ? ? [= <- <-].
      * unfold todoOf. simpl. intros x Hx. apply Hsub, elem_of_app. by right.
Qed.

Lemma resumeLoop_shown c T nw t o (s : State) r :
  loopOver c t -> todoOf t ⊆ T -> resumeLoop nw t o s = Some r ->
  ranShown c T r.
Proof.
  intros [Hc Hcur] Hsub.
  assert (Hrest : restOf t ⊆ T).
  { intros x Hx. apply Hsub. unfold todoOf.
    destruct (currentOf t) as [[it i]|]; [|done]. by apply list_elem_of_further. }
  destruct t, o as [[m'|msg]|]; simpl; try done;
    simpl in Hc; injection Hc as ->; simpl in Hrest.
  - intros [= <-]. split; [apply callsShown_pace|].
    simpl. intros t' [= <-]. split; [|done]. split; [done|]. apply Hcur.
  - intros [= <-]. by apply loopFrom_shown.
  - destruct (stopScanningRef s); intros [= <-].
    + split; [apply callsShown_nil|done].
    + split.
      * eapply callsShown_call; [|by apply Hcur].
        apply Hsub. unfold todoOf. simpl. apply list_elem_of_here.
      * simpl. intros t' [= <-]. split; [|done]. split; [done|]. apply Hcur.
  - destruct rest as [|it2 rest]; intros [= <-].
    + split; [apply callsShown_nil|done].
    + split; [apply callsShown_pace|].
      simpl. intros t' [= <-]. split; [|done]. split; [done|]. done.
  - intros [= <-]. by apply loopFrom_shown.
  - intros [= <-]. by apply loopFrom_shown.
Qed.

(** After a manual submit: the one task, if any, is the timer of the
    submit or the loop it started, and the calls since [log0] are for URLs
    of [c]. *)
Definition shown (c : list ScanResult) (T : list UrlItem) (id : nat)
    (log0 : list Event) (w : World) : Prop :=
  (exists evs, log w = log0 ++ evs /\ callsShown c T evs)
  /\ (tasks w = []
      \/ exists t, alone id t w
           /\ ((exists deadline, t = ManualTimer c T deadline)
               \/ (loopOver c t /\ todoOf t ⊆ T))).

Lemma shown_continue c T id log0 t (w : World) r :
  shown c T id log0 w -> alone id t w -> ranShown c T r ->
  shown c T id log0 (continue w id r).
Proof.
  intros [(evs & Hlog & Hev) _] Hal [Hev' Ht'].
  destruct r as [[s' evs'] ot]. rewrite (continue_alone id t w) by done.
  simpl in *. split; simpl.
  - exists (evs ++ evs'). rewrite Hlog, app_assoc. split; [done|].
    by apply callsShown_app.
  - destruct ot as [t'|]; [|by left]. right. exists t'.
    split; [done|]. right. by apply Ht'.
Qed.

Lemma shown_step c T id log0 (w w' : World) (i : Input) :
  shown c T id log0 w -> passive i = true -> step w i = Some w' ->
  shown c T id log0 w'.
Proof.
  intros HS Hp Hstep. pose proof HS as [Hlog [Hidle|(t & Hal & Ht)]].
  - destruct (idle_step w w' i Hidle Hp Hstep) as (Ht & Hl & _).
    split; [by rewrite Hl|by left].
  - pose proof (alone_step id t w w' i Hal Hp Hstep) as Hcase.
    destruct i as [| | | | | | | | | |k o| |k|ms]; try done.
    + subst w'. split; [done|]. right. by exists t.
    + destruct Hcase as (-> & r & Hr & ->).
      destruct Ht as [[dl ->]|[Hover Hsub]]; [done|].
      destruct (resume_loopOver c (now w) t (state w) Hover) as [Hcall _].
      rewrite Hcall in Hr.
      eapply shown_continue; [done..|]. by eapply resumeLoop_shown.
    + destruct Hcase as (-> & d & r & _ & _ & Hr & ->).
      destruct Ht as [[dl ->]|[Hover Hsub]].
      * simpl in Hr. injection Hr as <-.
        eapply shown_continue; [done..|]. by apply loopFrom_shown.
      * destruct (resume_loopOver c (now w) t (state w) Hover) as [_ Htimer].
        rewrite Htimer in Hr.
        eapply shown_continue; [done..|]. by eapply resumeLoop_shown.
    + subst w'. split; [done|]. right. by exists t.
Qed.

Lemma shown_steps c T id log0 (ins : list Input) :
  forall (w w' : World),
    shown c T id log0 w -> forallb passive ins = true ->
    steps w ins = Some w' -> shown c T id log0 w'.
Proof.
  induction ins as [|i ins IH]; intros w w' HS Hp; simpl.
  - by intros [= <-].
  - simpl in Hp. apply andb_prop in Hp as [Hp1 Hp2].
    destruct (step w i) as [w1|] eqn:H1; [|done]. simpl.
    apply IH; [|done]. by eapply shown_step.
Qed.

(** X10.  The user submits a manual URL list on a page with no task
    parked, and then starts no other handler.  Whatever the backend
    answers, every backend call that follows is for a URL of the submitted
    list that was also the URL of a row of the result list shown at the
    moment of the submit: the scan the submit starts searches that earlier
    list.  So the submit of a list on a page that shows no results issues
    no backend call at all. *)
Theorem manual_scan_calls_only_shown_urls (w w' : World)
    (apiKey text : string) (ins : list Input) :
  tasks w = [] ->
  forallb passive ins = true ->
  steps w (SubmitManual apiKey text :: ins) = Some w' ->
  exists evs, log w' = log w ++ evs
    /\ forall u d, EvCall u d ∈ evs ->
         u ∈ url <$> scanResults (state w) /\ u ∈ parseManualUrls text.
Proof.
  intros Hidle Hp. rewrite steps_cons.
  destruct (step w (SubmitManual apiKey text)) as [w1|] eqn:H1; [|done].
  rewrite bind_Some. intros Hsteps.
  simpl in H1. destruct (_ && _); [|done].
  unfold handleManualUrlsSubmit in H1.
  destruct (negb _); [done|]. destruct (negb _); [done|].
  destruct (parseManualUrls text) as [|u0 us] eqn:Hparse; [done|].
  simpl in H1. injection H1 as <-.
  set (c := scanResults (state w)) in *.
  set (T := selectedItem <$> u0 :: us) in *.
  assert (HS : shown c T (nextId w) (log w) w').
  { eapply shown_steps; [|done|exact Hsteps].
    split; simpl.
    - exists []. split; [by rewrite app_nil_r|apply callsShown_nil].
    - right. eexists. split; [unfold alone; simpl; by rewrite Hidle|].
      left. eexists. reflexivity. }
  destruct HS as [(evs & Hlog & Hev) _]. exists evs.
  split; [done|].
  intros u d Hin. destruct (Hev u d Hin) as [Hc HT]. split; [done|].
  subst T. rewrite <- list_fmap_compose in HT.
  by rewrite list_fmap_id in HT.
Qed.

End WithNumber.

End CapturedFacts.

(* ===================================================================== *)
(** ** The saved settings survive a reload *)
(* ===================================================================== *)

Module SettingsFacts.

Import Settings.

(** The storages agree with what the page shows: a key shown as saved is
    the stored key, and the switch is on exactly when the stored value is
    ["true"]. *)
Definition inSync (p : Browser * KeyState) : Prop :=
  (isApiKeySaved p.2 = true ->
   sessionStorage p.1 !! apiKeyItem = Some (apiKey p.2)
   /\ Js.truthy (apiKey p.2) = true)
  /\ (allowInsecure p.2 = true
      <-> localStorage p.1 !! allowInsecureItem = Some "true").

Lemma truthy_trim s : Js.truthy (Js.trim s) = true -> Js.truthy s = true.
Proof. by destruct s. Qed.

Lemma inSync_loadSaved b : inSync (b, loadSaved b firstRender).
Proof.
  unfold inSync, loadSaved. cbn [fst snd].
  destruct (sessionStorage b !! apiKeyItem) as [saved|] eqn:Hk;
    [destruct (Js.truthy saved) eqn:Ht|];
    (destruct (localStorage b !! allowInsecureItem) as [v|] eqn:Hv;
       [destruct (bool_decide_reflect (v = "true")) as [->|Hne]|]);
    cbn [apiKey isApiKeySaved allowInsecure firstRender];
    (split; [try done|]); (split; [try done|]); try done;
    intros [= ?]; done.
Qed.

Lemma inSync_act p a : inSync p -> inSync (act p a).
Proof.
  destruct p as [b k]. intros [Hkey Hsw]. cbn [fst snd] in *.
  destruct a as [value| | | |checked|]; cbn [act].
  - done.
  - unfold handleSaveApiKey.
    destruct (Js.truthy (Js.trim (apiKey k))) eqn:Ht; [|done].
    split; cbn [fst snd sessionStorage localStorage apiKey isApiKeySaved
                allowInsecure]; [|done].
    intros _. split; [apply lookup_insert_eq|by apply truthy_trim].
  - done.
  - done.
  - split; cbn [fst snd sessionStorage localStorage apiKey isApiKeySaved
                allowInsecure toggleAllowInsecure]; [done|].
    rewrite lookup_insert_eq. by destruct checked.
  - apply inSync_loadSaved.
Qed.

Lemma inSync_session b acts : inSync (session b acts).
Proof.
  unfold session. generalize (inSync_loadSaved b).
  generalize (b, loadSaved b firstRender).
  induction acts as [|a acts IH]; intros p Hp; simpl; [done|].
  apply IH. by apply inSync_act.
Qed.

(** X11.  The page is opened in a browser, with anything in its storages,
    and the user types, saves, replaces and removes the API key and sets
    the insecure-HTTPS switch, in any order, reloading at will.  If the
    page is then loaded again, the switch is as the user left it; a key
    the page showed as saved is in the key field again, shown as saved;
    and after "Remove Key" the reload finds no key. *)
Theorem settings_survive_reload (b : Browser) (acts : list Act) :
  let p := session b acts in
  allowInsecure (reload p).2 = allowInsecure p.2
  /\ (isApiKeySaved p.2 = true ->
      apiKey (reload p).2 = apiKey p.2
      /\ isApiKeySaved (reload p).2 = true)
  /\ (let q := reload (handleRemoveApiKey p) in
      apiKey q.2 = "" /\ isApiKeySaved q.2 = false).
Proof.
  intros p. destruct (inSync_session b acts) as [Hkey Hsw]. fold p in Hkey, Hsw.
  destruct p as [b' k]. cbn [fst snd] in *.
  unfold reload, loadSaved. cbn [fst snd].
  split; [|split].
  - destruct (localStorage b' !! allowInsecureItem) as [v|] eqn:Hv.
    + destruct (bool_decide_reflect (v = "true")) as [->|Hne].
      * cbn [allowInsecure]. symmetry. by apply Hsw.
      * destruct (allowInsecure k) eqn:Ha.
        -- exfalso. apply Hne. destruct Hsw as [Hsw _].
           specialize (Hsw eq_refl). congruence.
        -- by destruct (sessionStorage b' !! apiKeyItem) as [s|];
             [destruct (Js.truthy s)|].
    + destruct (allowInsecure k) eqn:Ha.
      * destruct Hsw as [Hsw _]. specialize (Hsw eq_refl). done.
      * by destruct (sessionStorage b' !! apiKeyItem) as [s|];
          [destruct (Js.truthy s)|].
  - intros Hsaved. destruct (Hkey Hsaved) as [-> ->].
    by destruct (localStorage b' !! allowInsecureItem) as [v|];
      [destruct (bool_decide (v = "true"))|].
  - cbn [handleRemoveApiKey fst snd sessionStorage localStorage].
    rewrite lookup_delete_eq.
    by destruct (localStorage b' !! allowInsecureItem) as [v|];
      [destruct (bool_decide (v = "true"))|].
Qed.

End SettingsFacts.

(* ===================================================================== *)
(** ** From the sitemap route to the URL list of the page *)
(* ===================================================================== *)

Module SitemapFacts.

Import Page SitemapRoute.

Section WithNumber.

Context {number : Type}.

Local Abbreviation State := (State number).
Local Abbreviation World := (World number).
Local Abbreviation Input := (Input number).

Variable parsesAsUrl : string -> bool.
Variable fetch : Config -> Fetched.

(** The route answers with URLs only for a request whose [sitemapUrl] is
    present and parses, when the Sitemapper fetched, with the certificate
    check the request asks for, a list that is not empty. *)
Lemma POST_urls req sites n :
  POST parsesAsUrl fetch req = RespUrls sites n ->
  n = length sites /\ sites <> []
  /\ exists u, sitemapUrl req = Some u /\ Js.truthy u = true
       /\ parsesAsUrl u = true
       /\ fetch {| cfg_url := u; cfg_timeout := 30000;
                   cfg_rejectUnauthorized := negb (allowInsecure req) |}
          = FetchSites (Some sites).
Proof.
  unfold POST. destruct (sitemapUrl req) as [u|]; [|done].
  destruct (Js.truthy u) eqn:Hu; [|done]. simpl.
  destruct (parsesAsUrl u) eqn:Hp; [|done]. simpl.
  destruct (fetch _) as [msg|[[|s sites']|]] eqn:Hf; try done.
  intros [= <- <-]. split; [done|]. split; [done|]. by exists u.
Qed.

Lemma POST_error req st err :
  POST parsesAsUrl fetch req = RespError st err ->
  st = 400 \/ st = 404 \/ st = 500.
Proof.
  unfold POST. destruct (sitemapUrl req) as [u|]; [|intros [= <- _]; auto].
  destruct (Js.truthy u); simpl; [|intros [= <- _]; auto].
  destruct (parsesAsUrl u); simpl; [|intros [= <- _]; auto].
  destruct (fetch _) as [msg|[[|s sites']|]]; try done;
    intros [= <- _]; auto.
Qed.

(** X12.  The user submits the sitemap form on a page with no task
    parked, and the sitemap route answers the request.  The page takes the
    answer, parks no task, issues no PageSpeed call, has no results, and is
    no longer loading.  If the route found URLs (which it reports only
    when the Sitemapper gave a list that is not empty, and then with
    [count] their number), the URL list of the page is that list, in
    order, every URL selected, and "Start Performance Scan" is offered;
    for every error reply of the route (400, 404, 500) the URL list is
    empty and the selection is not shown. *)
Theorem sitemap_load_shows_the_urls (w w1 : World) (req : Request) :
  tasks w = [] ->
  step w SubmitSitemap = Some w1 ->
  exists w2,
    step w1 (SitemapReply (nextId w)
               (clientReply (POST parsesAsUrl fetch req))) = Some w2
    /\ tasks w2 = [] /\ log w2 = log w
    /\ scanResults (state w2) = []
    /\ isLoadingUrls (state w2) = false
    /\ match POST parsesAsUrl fetch req with
       | RespUrls sites count =>
           urls (state w2) = selectedItem <$> sites
           /\ count = length (urls (state w2))
           /\ (0 < count)%nat
           /\ startOffered (state w2) = true
       | RespError status _ =>
           (status = 400 \/ status = 404 \/ status = 500)
           /\ urls (state w2) = []
           /\ selectionShown (state w2) = false
       end.
Proof.
  intros Hidle Hstep. cbn [step] in Hstep.
  destruct (submitOffered (state w) && isSitemap (urlInputMode (state w)))
    eqn:Hoff; [|done].
  apply andb_prop in Hoff as [_ Hmode].
  injection Hstep as <-. rewrite Hidle. cbn [app].
  destruct (POST parsesAsUrl fetch req) as [st err|sites n] eqn:HP.
  - eexists. split.
    { simpl. rewrite Nat.eqb_refl. simpl. reflexivity. }
    simpl. rewrite Nat.eqb_refl.
    repeat split; try done; try (by rewrite !app_nil_r).
    by eapply POST_error.
  - apply POST_urls in HP as (-> & Hne & _).
    destruct sites as [|u us]; [done|].
    eexists. split.
    { simpl. rewrite Nat.eqb_refl. simpl. reflexivity. }
    simpl. rewrite Nat.eqb_refl.
    repeat split; try done; try (by rewrite !app_nil_r).
    + by rewrite length_fmap.
    + lia.
    + unfold startOffered, selectionShown. simpl. by rewrite Hmode.
Qed.

End WithNumber.

End SitemapFacts.

(* ===================================================================== *)
(** ** Facts about the summary, the export and the selection *)
(* ===================================================================== *)

Module ReportFacts.

Import Page Report.

(** X13.  The three colourings of a score agree on every pair of integer
    scores: two scores get the same text colour on the page exactly when
    they get the same background colour, and exactly when they get the same
    colour in the HTML report; and the colour changes only at 50 and at
    90. *)
Theorem score_colours_agree (a b : Z) :
  (getScoreColor a = getScoreColor b
   <-> getScoreBgColor a = getScoreBgColor b)
  /\ (getScoreColor a = getScoreColor b
      <-> htmlScoreColor a = htmlScoreColor b)
  /\ (getScoreColor a = getScoreColor b
      <-> ((90 <= a <-> 90 <= b) /\ (50 <= a <-> 50 <= b))).
Proof.
  unfold getScoreColor, getScoreBgColor, htmlScoreColor.
  destruct (Z.leb_spec 90 a), (Z.leb_spec 50 a),
    (Z.leb_spec 90 b), (Z.leb_spec 50 b);
    repeat split; intros; try done; try lia.
Qed.

Section WithNumber.

Context {number : Type}.

Local Abbreviation DeviceResult := (DeviceResult number).
Local Abbreviation ScanResult := (ScanResult number).
Local Abbreviation State := (State number).

(** The rows that are neither completed nor failed. *)
Definition unfinished (r : ScanResult) : bool :=
  statusIs pending r || statusIs scanning r.

Lemma counts_partition (l : list ScanResult) :
  (length l
   = completedCount l + errorCount l
     + length (filter (fun r => unfinished r = true) l))%nat.
Proof.
  unfold completedCount, errorCount.
  induction l as [|r l IH]; [done|].
  assert (Hr : (statusIs completed r = true /\ statusIs failed r = false
                /\ unfinished r = false)
               \/ (statusIs completed r = false /\ statusIs failed r = true
                   /\ unfinished r = false)
               \/ (statusIs completed r = false /\ statusIs failed r = false
                   /\ unfinished r = true)).
  { unfold unfinished, statusIs, sameStatus. destruct (status r); auto. }
  rewrite !filter_cons.
  destruct Hr as [(-> & -> & ->)|[(-> & -> & ->)|(-> & -> & ->)]];
    repeat case_decide; try done; cbn [length]; lia.
Qed.

(** X14.  The header of the results: the number shown as "remaining" is
    the number of rows that are pending or being scanned; it is never
    negative, and the three numbers of the header add up to the number of
    rows. *)
Theorem remaining_counts_unfinished_rows (l : list ScanResult) :
  remainingShown l
  = Z.of_nat (length (filter (fun r => unfinished r = true) l))
  /\ 0 <= remainingShown l
  /\ Z.of_nat (completedCount l) + Z.of_nat (errorCount l) + remainingShown l
     = Z.of_nat (length l).
Proof.
  unfold remainingShown. pose proof (counts_partition l). lia.
Qed.

Lemma count_exported (st : ScanStatus) (l : list ScanResult) :
  length (filter (fun x => sameStatus st (x_status x) = true)
            (exportResult <$> l))
  = length (filter (fun r => statusIs st r = true) l).
Proof.
  induction l as [|r l IH]; [done|].
  rewrite fmap_cons, !filter_cons.
  change (x_status (exportResult r)) with (status r).
  unfold statusIs at 1.
  destruct (decide (sameStatus st (status r) = true)); cbn [length];
    by rewrite IH.
Qed.

(** X15.  The object [exportToJSON] writes, for any result list: its
    [results] are the rows in order, each with its URL, status and error
    message, and with each device result as it is, or [null] when the row
    has none; and its summary is that of its own [results]:
    [totalScanned] is their number, [completedScans] the number of them
    with status completed, [failedScans] the number with status error. *)
Theorem export_summary_matches_results (date scannedSitemapUrl : string)
    (l : list ScanResult) :
  let d := exportToJSON date scannedSitemapUrl l in
  totalScanned d = length (results d)
  /\ completedScans d
     = length (filter (fun x => sameStatus completed (x_status x) = true)
                 (results d))
  /\ failedScans d
     = length (filter (fun x => sameStatus failed (x_status x) = true)
                 (results d))
  /\ (forall i, results d !! i
        = (fun r => {| x_url := url r; x_status := status r;
                       x_mobile := mobile r; x_desktop := desktop r;
                       x_error := error r |}) <$> l !! i).
Proof.
  cbv zeta. unfold exportToJSON.
  cbn [totalScanned completedScans failedScans results].
  split; [by rewrite length_fmap|]. split; [|split].
  - symmetry. apply (count_exported completed).
  - symmetry. apply (count_exported failed).
  - intros i. rewrite list_lookup_fmap. destruct (l !! i) as [r|]; [|done].
    simpl. unfold exportResult. f_equal. f_equal.
    + by destruct (mobile r) as [[]|].
    + by destruct (desktop r) as [[]|].
Qed.

Lemma forallb_selectedCount (l : list UrlItem) :
  forallb selected l = (selectedCount l =? length l)%nat.
Proof.
  unfold selectedCount. induction l as [|it l IH]; [done|].
  rewrite filter_cons. cbn [forallb length].
  case_decide as Hsel.
  - rewrite Hsel. cbn [length andb]. exact IH.
  - destruct (selected it); [done|]. cbn [andb].
    pose proof (length_filter (fun item => selected item = true) l).
    symmetry. apply Nat.eqb_neq. lia.
Qed.

Lemma selectedCount_set (b : bool) (l : list UrlItem) :
  selectedCount ((fun item => {| item_url := item_url item;
                                 selected := b |}) <$> l)
  = if b then length l else 0%nat.
Proof.
  unfold selectedCount. induction l as [|it l IH]; [by destruct b|].
  rewrite fmap_cons, filter_cons. cbn [selected].
  case_decide as Hb; subst; cbn [length]; [by rewrite IH|].
  destruct b; [done|]. exact IH.
Qed.

(** X16.  The two selection controls keep the URLs of the list and their
    order.  "Select All / Deselect All" leaves every URL selected, unless
    every URL was selected already (or the list is empty): then it leaves
    none selected.  The checkbox of a row changes the flag of that row
    only, and a second click restores the list. *)
Theorem selection_toggles (s : State) (index : nat) :
  (item_url <$> urls (toggleSelectAll s) = item_url <$> urls s
   /\ selectedCount (urls (toggleSelectAll s))
      = if (selectedCount (urls s) =? length (urls s))%nat then 0%nat
        else length (urls s))
  /\ (item_url <$> urls (toggleUrlSelection index s) = item_url <$> urls s
      /\ (forall j, j <> index ->
            urls (toggleUrlSelection index s) !! j = urls s !! j)
      /\ (selected <$> urls (toggleUrlSelection index s) !! index)
         = (negb ∘ selected <$> urls s !! index)
      /\ urls (toggleUrlSelection index (toggleUrlSelection index s))
         = urls s).
Proof.
  split.
  - unfold toggleSelectAll. simpl. split.
    + rewrite <- list_fmap_compose. by apply list_fmap_ext.
    + rewrite selectedCount_set, <- forallb_selectedCount.
      by destruct (forallb selected (urls s)).
  - unfold toggleUrlSelection. simpl. split; [|split; [|split]].
    + apply list_eq. intros j. rewrite !list_lookup_fmap.
      destruct (decide (index = j)) as [->|Hne].
      * rewrite list_lookup_alter_eq. by destruct (urls s !! j).
      * by rewrite list_lookup_alter_ne.
    + intros j Hj. by rewrite list_lookup_alter_ne.
    + rewrite list_lookup_alter_eq. by destruct (urls s !! index).
    + apply list_eq. intros j.
      destruct (decide (index = j)) as [->|Hne].
      * rewrite !list_lookup_alter_eq. destruct (urls s !! j) as [[u b]|]; [|done].
        simpl. by rewrite negb_involutive.
      * by rewrite !list_lookup_alter_ne.
Qed.

End WithNumber.

End ReportFacts.

(* ===================================================================== *)
(** ** The URLs of the manual field: [parseManualUrls] *)
(* ===================================================================== *)

Module ParseFacts.

Import Js Page JsFacts.

(** Every character of [s] satisfies [p]. *)
Fixpoint all_chars (p : ascii -> bool) (s : string) : bool :=
  match s with
  | EmptyString => true
  | String c s' => p c && all_chars p s'
  end.

(** The text holds white space only. *)
Definition blank (s : string) : bool := all_chars is_space s.

(** The text holds white space and separators (commas, line feeds)
    only. *)
Definition noUrl (s : string) : bool :=
  all_chars (fun c => is_space c || is_sep c) s.

(** The text holds no separator. *)
Definition noSep (s : string) : bool :=
  all_chars (fun c => negb (is_sep c)) s.

(** The text does not begin with white space. *)
Definition headOk (s : string) : bool :=
  match s with
  | EmptyString => true
  | String c _ => negb (is_space c)
  end.

Lemma all_chars_snoc p s c :
  all_chars p (snoc s c) = all_chars p s && p c.
Proof.
  induction s as [|d s IH]; simpl.
  - by rewrite andb_true_r.
  - by rewrite IH, andb_assoc.
Qed.

Lemma all_chars_rev p s : all_chars p (rev s) = all_chars p s.
Proof.
  induction s as [|d s IH]; simpl; [done|].
  by rewrite all_chars_snoc, IH, andb_comm.
Qed.

Lemma all_chars_trim_start p s :
  all_chars p s = true -> all_chars p (trim_start s) = true.
Proof.
  induction s as [|d s IH]; simpl; [done|].
  intros H. apply andb_prop in H as [Hd Hs].
  destruct (is_space d); [by apply IH|]. simpl. by rewrite Hd, Hs.
Qed.

Lemma all_chars_trim p s : all_chars p s = true -> all_chars p (trim s) = true.
Proof.
  intros H. unfold trim. rewrite all_chars_rev.
  apply all_chars_trim_start. rewrite all_chars_rev.
  by apply all_chars_trim_start.
Qed.

Lemma rev_snoc s c : rev (snoc s c) = String c (rev s).
Proof.
  induction s as [|d s IH]; simpl; [done|]. by rewrite IH.
Qed.

Lemma rev_rev s : rev (rev s) = s.
Proof.
  induction s as [|d s IH]; simpl; [done|]. by rewrite rev_snoc, IH.
Qed.

Lemma headOk_trim_start s : headOk (trim_start s) = true.
Proof.
  induction s as [|d s IH]; simpl; [done|].
  destruct (is_space d) eqn:Hd; [done|]. simpl. by rewrite Hd.
Qed.

Lemma trim_start_headOk s : headOk s = true -> trim_start s = s.
Proof.
  destruct s as [|d s]; simpl; [done|]. by destruct (is_space d).
Qed.

Lemma trim_start_snoc s c :
  trim_start (snoc s c)
  = match trim_start s with
    | EmptyString => if is_space c then EmptyString else String c EmptyString
    | String d t => snoc (String d t) c
    end.
Proof.
  induction s as [|d s IH]; simpl; [done|].
  destruct (is_space d); [exact IH|done].
Qed.

(** Trimming the end of a text that does not begin with white space
    leaves its first character in place. *)
Lemma trim_end_head c s :
  is_space c = false ->
  exists t, rev (trim_start (rev (String c s))) = String c t.
Proof.
  intros Hc. simpl. rewrite trim_start_snoc, Hc.
  destruct (trim_start (rev s)) as [|d t].
  - by exists EmptyString.
  - rewrite rev_snoc. by eexists.
Qed.

Lemma headOk_trim s : headOk (trim s) = true.
Proof.
  unfold trim. pose proof (headOk_trim_start s) as H.
  destruct (trim_start s) as [|c a]; [done|]. simpl in H.
  apply negb_true_iff in H.
  destruct (trim_end_head c a H) as [t ->]. simpl. by rewrite H.
Qed.

Lemma trim_trim s : trim (trim s) = trim s.
Proof.
  unfold trim at 1. rewrite (trim_start_headOk (trim s)) by apply headOk_trim.
  unfold trim. rewrite rev_rev.
  by rewrite (trim_start_headOk (trim_start _)) by apply headOk_trim_start.
Qed.

Lemma trim_start_empty s : trim_start s = EmptyString <-> blank s = true.
Proof.
  unfold blank. induction s as [|d s IH]; simpl; [done|].
  destruct (is_space d); simpl; [exact IH|]. split; done.
Qed.

Lemma trim_empty s : trim s = EmptyString <-> blank s = true.
Proof.
  rewrite <- trim_start_empty. unfold trim. split.
  - intros H. pose proof (headOk_trim_start s) as Hh.
    destruct (trim_start s) as [|c a]; [done|]. simpl in Hh.
    apply negb_true_iff in Hh.
    destruct (trim_end_head c a Hh) as [t Ht]. congruence.
  - by intros ->.
Qed.

Lemma truthy_false s : truthy s = false <-> s = EmptyString.
Proof. destruct s; split; done. Qed.

(** The pieces of a split hold no separator. *)
Lemma split_go_noSep b cur s :
  noSep cur = true -> Forall (fun p => noSep p = true) (split_go b cur s).
Proof.
  revert b cur. induction s as [|c s IH]; intros b cur Hcur; simpl.
  - by constructor.
  - destruct (is_sep c) eqn:Hc.
    + destruct b; [by apply IH|]. constructor; [done|]. by apply IH.
    + apply IH. unfold noSep. rewrite all_chars_snoc. fold (noSep cur).
      by rewrite Hcur, Hc.
Qed.

(** Every piece of a split is blank exactly when the text holds white
    space and separators only. *)
Lemma split_go_blank b cur s :
  (b = true -> cur = EmptyString) ->
  Forall (fun p => blank p = true) (split_go b cur s)
  <-> blank cur = true /\ noUrl s = true.
Proof.
  revert b cur. induction s as [|c s IH]; intros b cur Hb; simpl.
  - rewrite Forall_singleton. tauto.
  - change (noUrl (String c s)) with ((is_space c || is_sep c) && noUrl s).
    destruct (is_sep c) eqn:Hc.
    + rewrite orb_true_r. simpl. destruct b.
      * rewrite (IH true EmptyString) by done. rewrite (Hb eq_refl).
        simpl. tauto.
      * rewrite Forall_cons, (IH true EmptyString) by done. simpl. tauto.
    + rewrite orb_false_r. rewrite (IH false (snoc cur c)) by done.
      unfold blank. rewrite all_chars_snoc, !andb_true_iff. tauto.
Qed.

Lemma array_from_set_nil us : array_from_set us = [] <-> us = [].
Proof.
  split; [|by intros ->]. intros H. destruct us as [|u us]; [done|].
  assert (Hu : u ∈ array_from_set (u :: us)).
  { apply array_from_set_elem, list_elem_of_here. }
  rewrite H in Hu. by apply elem_of_nil in Hu.
Qed.

Lemma parseManualUrls_nil value :
  parseManualUrls value = [] <-> noUrl value = true.
Proof.
  unfold parseManualUrls. rewrite array_from_set_nil. split.
  - intros Hnil.
    assert (H : Forall (fun p => blank p = true) (split_seps value)).
    { apply Forall_forall. intros p Hp. apply trim_empty.
      destruct (trim p) as [|c t] eqn:Ht; [done|]. exfalso.
      assert (Hin : trim p ∈ filter (fun u => truthy u = true)
                                (trim <$> split_seps value)).
      { apply list_elem_of_filter. split; [by rewrite Ht|].
        apply list_elem_of_fmap. eauto. }
      rewrite Hnil in Hin. by apply elem_of_nil in Hin. }
    by apply (split_go_blank false EmptyString value) in H as [_ ?].
  - intros Hno.
    assert (H : Forall (fun p => blank p = true) (split_seps value)).
    { by apply split_go_blank. }
    destruct (filter _ _) as [|u us] eqn:Hf; [done|]. exfalso.
    assert (Hu : u ∈ filter (fun u => truthy u = true)
                       (trim <$> split_seps value)).
    { rewrite Hf. apply list_elem_of_here. }
    apply list_elem_of_filter in Hu as [Ht Hu].
    apply list_elem_of_fmap in Hu as (p & -> & Hp).
    rewrite Forall_forall in H. apply H, trim_empty in Hp.
    rewrite Hp in Ht. done.
Qed.

(** X17.  Every URL that [parseManualUrls] gives for a text of the manual
    field is not empty, has no white space at its start or end (trimming
    it changes nothing), and holds no comma and no line feed. *)
Theorem parsed_urls_are_clean (value u : string) :
  u ∈ parseManualUrls value ->
  u <> EmptyString /\ trim u = u /\ noSep u = true.
Proof.
  unfold parseManualUrls. rewrite array_from_set_elem.
  intros H. apply list_elem_of_filter in H as [Ht H].
  apply list_elem_of_fmap in H as (p & -> & Hp).
  split; [by destruct (trim p)|]. split; [apply trim_trim|].
  apply all_chars_trim.
  pose proof (split_go_noSep false EmptyString value eq_refl) as Hall.
  rewrite Forall_forall in Hall. by apply Hall.
Qed.

(** X18.  The submit of the manual form, [handleManualUrlsSubmit] (the
    confirmation dialog accepted): the handler goes on, past its three
    alerts, exactly when the API key holds a character that is not white
    space and the text holds a character that is neither white space nor a
    separator; it then shows one selected URL per parsed URL and no
    result. *)
Theorem manual_submit_accepted_iff {number} (nw : N) (apiKey text : string)
    (s : State number) :
  (is_Some (handleManualUrlsSubmit nw apiKey text s)
   <-> blank apiKey = false /\ noUrl text = false)
  /\ forall r, handleManualUrlsSubmit nw apiKey text s = Some r ->
       urls (r.1.1) = selectedItem <$> parseManualUrls text
       /\ scanResults (r.1.1) = [] /\ r.1.2 = []
       /\ r.2 = Some (ManualTimer (scanResults s)
                        (selectedItem <$> parseManualUrls text)
                        (nw + manualDelayMs)%N).
Proof.
  unfold handleManualUrlsSubmit.
  destruct (truthy (trim apiKey)) eqn:Hk; simpl.
  2:{ apply truthy_false, trim_empty in Hk. rewrite Hk. split; [|done].
      split; [by intros [? ?]|by intros [? _]]. }
  assert (Hkey : blank apiKey = false).
  { destruct (blank apiKey) eqn:Hb; [|done].
    apply trim_empty in Hb. rewrite Hb in Hk. done. }
  destruct (parseManualUrls text) as [|u us] eqn:Hparse.
  - apply parseManualUrls_nil in Hparse. rewrite Hparse.
    destruct (negb (truthy (trim text))); (split; [|done]);
      (split; [by intros [? ?]|by intros [_ ?]]).
  - assert (Hno : noUrl text = false).
    { destruct (noUrl text) eqn:Hn; [|done].
      apply parseManualUrls_nil in Hn. congruence. }
    assert (Hblank : blank text = false).
    { destruct (blank text) eqn:Hb; [|done]. exfalso.
      assert (noUrl text = true); [|congruence].
      clear -Hb. unfold blank, noUrl in *.
      induction text as [|c t IH]; simpl in *; [done|].
      apply andb_prop in Hb as [-> Ht]. simpl. by apply IH. }
    assert (Htext : truthy (trim text) = true).
    { destruct (truthy (trim text)) eqn:Ht; [done|].
      apply truthy_false, trim_empty in Ht. congruence. }
    rewrite Htext. simpl. split.
    + split; [done|]. intros _. by eexists.
    + by intros r [= <-].
Qed.

End ParseFacts.

(* ===================================================================== *)
(** ** A retry, end to end *)
(* ===================================================================== *)

Module ScanCallFacts.

Import Page JsFacts RunFacts ScanCall.

Section WithNumber.

Context {number : Type}.
Variable lt_0_9 : number -> bool.

Local Abbreviation DeviceResult := (DeviceResult number).
Local Abbreviation ScanResult := (ScanResult number).
Local Abbreviation State := (State number).
Local Abbreviation World := (World number).
Local Abbreviation Task := (Task number).
Local Abbreviation Input := (Input number).

(** What [scanUrl] returns when the PageSpeed API gave data. *)
Definition deviceResult (sc : Route.PageSpeedMetrics)
    (fd : Route.FieldData number) (audits : gmap string (Route.Audit number))
  : DeviceResult :=
  {| scores := sc; fieldData := fd;
     issues := Route.extractIssues lt_0_9 audits |}.

Lemma scanUrl_data apiKey u strategy sc fd audits :
  Js.truthy u = true -> Js.truthy apiKey = true ->
  scanUrl (Route.POST lt_0_9 (requestOf apiKey u strategy)
             (Route.UpData sc fd audits))
  = Some (Returns (deviceResult sc fd audits)).
Proof.
  intros Hu Hk. unfold Route.POST, requestOf.
  cbn [Route.req_url Route.req_apiKey Route.req_strategy].
  rewrite Hu, Hk. reflexivity.
Qed.

Lemma scanUrl_failure apiKey u strategy up msg :
  Js.truthy u = true -> Js.truthy apiKey = true ->
  upstreamSound up = true -> upstreamMessage up = Some msg ->
  Js.truthy msg = true ->
  scanUrl (Route.POST lt_0_9 (requestOf apiKey u strategy) up)
  = Some (Throws msg).
Proof.
  intros Hu Hk Hs Hm Ht. unfold Route.POST, requestOf.
  cbn [Route.req_url Route.req_apiKey Route.req_strategy].
  rewrite Hu, Hk. cbn [negb orb].
  destruct up as [st m|m|m|m|sc fd audits]; simpl in Hm; try done;
    injection Hm as ->; cbn [scanUrl].
  - simpl in Hs. apply negb_true_iff in Hs. by rewrite Ht, Hs, Ht.
  - by rewrite Ht.
  - by rewrite Ht.
  - by rewrite !Ht.
Qed.

Lemma retry_parks (w w1 : World) index :
  tasks w = [] ->
  step w (ClickRetry index) = Some w1 ->
  exists r, scanResults (state w) !! index = Some r
    /\ alone (nextId w) (SingleMobile index r) w1
    /\ stopScanningRef (state w1) = false
    /\ now w1 = now w
    /\ log w1 = log w ++ [EvCall (url r) Route.mobile]
    /\ scanResults (state w1)
       = updateAt index markScanning
           (updateAt index resetResult (scanResults (state w))).
Proof.
  intros Hidle Hstep. simpl in Hstep. unfold retryOffered in Hstep.
  unfold rescanSingleUrl in Hstep.
  destruct (scanResults (state w) !! index) as [r|] eqn:Hr; [|done].
  destruct (isError r && negb (isScanning (state w))); [|done].
  simpl in Hstep. injection Hstep as <-. exists r.
  unfold alone. simpl. by rewrite Hidle.
Qed.

(** X19.  "Retry" of a failed row on a page with no task parked, the
    backend being the PageSpeed route, called with the URL of the row and
    a key that are not empty.  When the PageSpeed API gives data for the
    mobile request and, after the pause, for the desktop request, the
    retry ends with the row completed, without error, holding for each
    device the scores and field data of that reply and, as issues, the
    failing relevant audits of that reply; its events are the mobile call,
    one pause and the desktop call, and [isScanning] is off. *)
Theorem retry_with_data_completes_the_row (w w1 : World) (index : nat)
    (r : ScanResult) (apiKey : string)
    (scm scd : Route.PageSpeedMetrics) (fdm fdd : Route.FieldData number)
    (am ad : gmap string (Route.Audit number)) :
  tasks w = [] ->
  scanResults (state w) !! index = Some r ->
  Js.truthy (url r) = true ->
  Js.truthy apiKey = true ->
  step w (ClickRetry index) = Some w1 ->
  exists om od w',
    scanUrl (Route.POST lt_0_9 (requestOf apiKey (url r) Route.mobile)
               (Route.UpData scm fdm am)) = Some om
    /\ scanUrl (Route.POST lt_0_9 (requestOf apiKey (url r) Route.desktop)
                  (Route.UpData scd fdd ad)) = Some od
    /\ steps w1 [Respond (nextId w) om; Advance paceMs; Fire (nextId w);
                 Respond (nextId w) od] = Some w'
    /\ tasks w' = []
    /\ isScanning (state w') = false
    /\ log w' = log w ++ [EvCall (url r) Route.mobile; EvPace;
                          EvCall (url r) Route.desktop]
    /\ scanResults (state w') !! index
       = Some {| url := url r; status := completed; showIssues := None;
                 mobile := Some (deviceResult scm fdm am);
                 desktop := Some (deviceResult scd fdd ad);
                 error := None |}.
Proof.
  intros Hidle Hr Hu Hk Hstep.
  destruct (retry_parks w w1 index Hidle Hstep)
    as (r' & Hr' & Hal & Hs & Hnow & Hlog & Hres).
  rewrite Hr in Hr'. injection Hr' as <-.
  set (id := nextId w) in *.
  set (m := deviceResult scm fdm am). set (d := deviceResult scd fdd ad).
  exists (Returns m), (Returns d).
  set (w2 := continue w1 id
               (state w1, [EvPace],
                Some (SinglePace index r m (now w1 + paceMs)%N))).
  assert (H2 : step w1 (Respond id (Returns m)) = Some w2)
    by (by eapply step_respond_alone).
  assert (Hw2 : w2 = {| state := state w1;
                        tasks := [(id, SinglePace index r m
                                         (now w1 + paceMs)%N)];
                        nextId := Page.nextId w1; now := now w1;
                        log := log w1 ++ [EvPace] |})
    by (subst w2;
        by rewrite (continue_alone id (SingleMobile index r) w1) by exact Hal).
  set (w3 := advance w2 paceMs).
  assert (Hal3 : alone id (SinglePace index r m (now w1 + paceMs)%N) w3)
    by (subst w3; by rewrite Hw2).
  set (w4 := continue w3 id
               (setCurrentScanDevice (Some Route.desktop) (state w3),
                [EvCall (url r) Route.desktop],
                Some (SingleDesktop index r m))).
  assert (H4 : step w3 (Fire id) = Some w4).
  { eapply step_fire_alone; [exact Hal3|done| |].
    - subst w3. rewrite Hw2. simpl. lia.
    - subst w3. rewrite Hw2. simpl. by rewrite Hs. }
  assert (Hw4 : w4 = {| state := setCurrentScanDevice (Some Route.desktop)
                                   (state w1);
                        tasks := [(id, SingleDesktop index r m)];
                        nextId := Page.nextId w1;
                        now := (now w1 + paceMs)%N;
                        log := (log w1 ++ [EvPace])
                               ++ [EvCall (url r) Route.desktop] |}).
  { subst w4.
    rewrite (continue_alone id (SinglePace index r m (now w1 + paceMs)%N) w3)
      by exact Hal3.
    subst w3. by rewrite Hw2. }
  set (w5 := continue w4 id
               (afterLoop
                  (setScanResults (updateAt index (markCompleted m d))
                     (state w4)), [], None)).
  assert (H5 : step w4 (Respond id (Returns d)) = Some w5).
  { eapply step_respond_alone; [by rewrite Hw4|done]. }
  exists w5. split; [by apply scanUrl_data|]. split; [by apply scanUrl_data|].
  split.
  { rewrite steps_cons, H2, bind_Some, steps_cons, step_advance, bind_Some.
    fold w3. by rewrite steps_cons, H4, bind_Some, steps_cons, H5. }
  subst w5. rewrite (continue_alone id (SingleDesktop index r m) w4)
    by (by rewrite Hw4).
  rewrite Hw4. simpl. split; [done|]. split; [done|]. split.
  - rewrite Hlog, !app_nil_r, <- !app_assoc. done.
  - rewrite Hres. unfold updateAt.
    by rewrite !list_lookup_alter_eq, Hr.
Qed.

(** X20.  The same retry, when the PageSpeed API fails on the mobile
    request: it answers with a status that is not [ok], or with an [error]
    or a Lighthouse [runtimeError], or the request throws, with a message
    that is not empty.  The row then ends failed with exactly that message
    as its error and no device result, the desktop call is never issued,
    and the retry is over. *)
Theorem upstream_error_reaches_the_row (w w1 : World) (index : nat)
    (r : ScanResult) (apiKey msg : string) (up : Route.Upstream number) :
  tasks w = [] ->
  scanResults (state w) !! index = Some r ->
  Js.truthy (url r) = true ->
  Js.truthy apiKey = true ->
  upstreamSound up = true ->
  upstreamMessage up = Some msg ->
  Js.truthy msg = true ->
  step w (ClickRetry index) = Some w1 ->
  exists o w',
    scanUrl (Route.POST lt_0_9 (requestOf apiKey (url r) Route.mobile) up)
    = Some o
    /\ step w1 (Respond (nextId w) o) = Some w'
    /\ tasks w' = []
    /\ isScanning (state w') = false
    /\ log w' = log w ++ [EvCall (url r) Route.mobile]
    /\ scanResults (state w') !! index
       = Some {| url := url r; status := failed; showIssues := None;
                 mobile := None; desktop := None; error := Some msg |}.
Proof.
  intros Hidle Hr Hu Hk Hsound Hmsg Ht Hstep.
  destruct (retry_parks w w1 index Hidle Hstep)
    as (r' & Hr' & Hal & Hs & Hnow & Hlog & Hres).
  rewrite Hr in Hr'. injection Hr' as <-.
  exists (Throws msg),
    (continue w1 (nextId w) (singleCatch index msg (state w1))).
  split; [by apply scanUrl_failure|]. split.
  { by eapply step_respond_alone. }
  unfold singleCatch.
  rewrite (continue_alone (nextId w) (SingleMobile index r) w1) by done.
  simpl. split; [done|]. split; [done|]. split.
  - by rewrite app_nil_r.
  - rewrite Hres. unfold updateAt.
    by rewrite !list_lookup_alter_eq, Hr.
Qed.

End WithNumber.

End ScanCallFacts.

(* ===================================================================== *)
(** ** How long a run lasts *)
(* ===================================================================== *)

Module DurationFacts.

Import Page JsFacts RunFacts.

Section WithNumber.

Context {number : Type}.

Local Abbreviation ScanResult := (ScanResult number).
Local Abbreviation State := (State number).
Local Abbreviation World := (World number).
Local Abbreviation Task := (Task number).
Local Abbreviation Ran := (Ran number).
Local Abbreviation Input := (Input number).

(** The number of pauses among the events. *)
Fixpoint pauses (evs : list Event) : N :=
  match evs with
  | [] => 0
  | EvPace :: evs' => 1 + pauses evs'
  | EvCall _ _ :: evs' => pauses evs'
  end.

Lemma pauses_app evs evs' :
  pauses (evs ++ evs') = (pauses evs + pauses evs')%N.
Proof.
  induction evs as [|[u d|] evs IH]; simpl pauses; simpl app; [done|done|].
  change (pauses (EvPace :: evs ++ evs')) with (1 + pauses (evs ++ evs'))%N.
  change (pauses (EvPace :: evs)) with (1 + pauses evs)%N.
  rewrite IH. lia.
Qed.

(** What a resumption at time [nw] leaves behind, [k] pauses having been
    started before it: the pauses started so far fit between [t0] and the
    deadline of the timer, if the loop parks on one, and between [t0] and
    [nw] otherwise. *)
Definition ranTimed (t0 nw k : N) (r : Ran) : Prop :=
  match r.2 with
  | None => (t0 + paceMs * (k + pauses (r.1.2)) <= nw)%N
  | Some t =>
      is_Some (capturedOf t)
      /\ match deadlineOf t with
         | Some d => (t0 + paceMs * (k + pauses (r.1.2)) <= d)%N
                     /\ (d <= nw + paceMs)%N
         | None => (t0 + paceMs * (k + pauses (r.1.2)) <= nw)%N
         end
  end.

Lemma loopFrom_timed c rest (s : State) t0 nw k :
  (t0 + paceMs * k <= nw)%N -> ranTimed t0 nw k (loopFrom c rest s).
Proof.
  intros H.
  destruct (loopFrom_inv c rest s)
    as [->|(sk & it & rest' & i & _ & _ & _ & _ & ->)];
    unfold ranTimed; simpl.
  - by rewrite N.add_0_r.
  - split; [done|]. by rewrite N.add_0_r.
Qed.

Lemma resumeLoop_timed nw t o (s : State) r t0 k :
  is_Some (capturedOf t) -> (t0 + paceMs * k <= nw)%N ->
  resumeLoop nw t o s = Some r -> ranTimed t0 nw k r.
Proof.
  intros Hc H.
  destruct t, o as [[m'|msg]|]; simpl; try done.
  - intros [= <-]. unfold ranTimed. simpl. split; [done|].
    unfold paceMs in *. lia.
  - intros [= <-]. by apply loopFrom_timed.
  - destruct (stopScanningRef s); intros [= <-]; unfold ranTimed; simpl.
    + by rewrite N.add_0_r.
    + split; [done|]. by rewrite N.add_0_r.
  - destruct rest as [|it2 rest]; intros [= <-].
    + by apply (loopFrom_timed captured []).
    + unfold ranTimed. simpl. split; [done|]. unfold paceMs in *. lia.
  - intros [= <-]. by apply loopFrom_timed.
  - intros [= <-]. by apply loopFrom_timed.
Qed.

(** The run that began at [t0] with the log [log0]: the pauses it has
    started fit between [t0] and now, the one in progress up to its
    deadline. *)
Definition timed (id : nat) (t0 : N) (log0 : list Event) (w : World)
  : Prop :=
  exists evs, log w = log0 ++ evs
    /\ ((tasks w = [] /\ (t0 + paceMs * pauses evs <= now w)%N)
        \/ exists t, alone id t w /\ is_Some (capturedOf t)
             /\ match deadlineOf t with
                | Some d => (t0 + paceMs * pauses evs <= d)%N
                            /\ (d <= now w + paceMs)%N
                | None => (t0 + paceMs * pauses evs <= now w)%N
                end).

Lemma timed_continue id t0 log0 evs t (w : World) r :
  alone id t w -> log w = log0 ++ evs ->
  ranTimed t0 (now w) (pauses evs) r ->
  timed id t0 log0 (continue w id r).
Proof.
  intros Hal Hlog Hr. destruct r as [[s' evs'] ot'].
  rewrite (continue_alone id t w) by done.
  exists (evs ++ evs'). simpl. split; [by rewrite Hlog, app_assoc|].
  rewrite pauses_app. unfold ranTimed in Hr. simpl in Hr.
  destruct ot' as [t'|].
  - right. exists t'. destruct Hr as [Hc Hd]. done.
  - by left.
Qed.

Lemma timed_step id t0 log0 (w w' : World) (i : Input) :
  timed id t0 log0 w -> passive i = true -> step w i = Some w' ->
  timed id t0 log0 w'.
Proof.
  intros (evs & Hlog & [(Hidle & Hb)|(t & Hal & Hc & Hb)]) Hp Hstep.
  - destruct i as [| | | | | | | | | |k o| |k|ms]; try done;
      simpl in Hstep.
    + destruct (stopOffered _); [|done]. injection Hstep as <-.
      exists evs. split; [done|]. by left.
    + by rewrite Hidle in Hstep.
    + by rewrite Hidle in Hstep.
    + injection Hstep as <-. exists evs. split; [done|]. left.
      split; [done|]. simpl. lia.
  - pose proof (alone_step id t w w' i Hal Hp Hstep) as Hcase.
    destruct i as [| | | | | | | | | |k o| |k|ms]; try done.
    + subst w'. exists evs. split; [done|]. right. by exists t.
    + destruct Hcase as (-> & r & Hr & ->).
      assert (Hr' : resumeLoop (now w) t (Some o) (state w) = Some r).
      { destruct Hc as [c Hc]. by destruct t. }
      assert (Hd : deadlineOf t = None).
      { destruct t; simpl in Hr'; try done; by destruct o. }
      rewrite Hd in Hb.
      eapply timed_continue; [done|done|]. by eapply resumeLoop_timed.
    + destruct Hcase as (-> & d & r & Hd & Hle & Hr & ->).
      assert (Hr' : resumeLoop (now w) t None (state w) = Some r).
      { destruct Hc as [c Hc]. by destruct t. }
      rewrite Hd in Hb. destruct Hb as [Hb _].
      eapply timed_continue; [done|done|].
      eapply resumeLoop_timed; [done| |done]. lia.
    + subst w'. exists evs. split; [done|]. right. exists t.
      split; [done|]. split; [done|]. simpl.
      destruct (deadlineOf t); lia.
Qed.

Lemma timed_steps id t0 log0 (ins : list Input) :
  forall (w w' : World),
    timed id t0 log0 w -> forallb passive ins = true ->
    steps w ins = Some w' -> timed id t0 log0 w'.
Proof.
  induction ins as [|i ins IH]; intros w w' HT Hp; simpl.
  - by intros [= <-].
  - simpl in Hp. apply andb_prop in Hp as [Hp1 Hp2].
    destruct (step w i) as [w1|] eqn:H1; [|done]. simpl.
    apply IH; [|done]. by eapply timed_step.
Qed.

Lemma timed_start c queue (w : World) (s : State) :
  tasks w = [] ->
  timed (nextId w) (now w) (log w)
    (spawn w (startPerformanceScanWithUrls c queue s)).
Proof.
  intros Hidle. unfold startPerformanceScanWithUrls.
  pose proof (loopFrom_timed c queue
                (setStopScanningRef false (setIsScanning true s))
                (now w) (now w) 0) as Hr.
  destruct (loopFrom c queue _) as [[s1 evs] ot].
  rewrite spawn_idle by done. exists evs. split; [done|].
  unfold ranTimed in Hr. simpl in Hr. rewrite N.add_0_l in Hr.
  destruct ot as [t|].
  - right. exists t. split; [done|]. apply Hr. lia.
  - left. split; [done|]. apply Hr. lia.
Qed.

(** X21.  A run of the loop, started from any handler on a page with no
    task parked, whatever the backend answers and whether or not Stop is
    pressed: each pause the run has started takes its 3000 ms of the time
    of the run.  With [k] pauses among the events of the run so far, at
    least [3000 * k] ms have passed since the start when no timer is
    pending (a call is in flight, or the run has ended), and at least
    [3000 * (k - 1)] ms in any case. *)
Theorem run_lasts_3000ms_per_pause (c : list ScanResult)
    (queue : list UrlItem) (w w' : World) (s : State) (ins : list Input) :
  tasks w = [] ->
  forallb passive ins = true ->
  steps (spawn w (startPerformanceScanWithUrls c queue s)) ins = Some w' ->
  exists evs, log w' = log w ++ evs
    /\ (now w + paceMs * pauses evs <= now w' + paceMs)%N
    /\ ((forall k t, (k, t) ∈ tasks w' -> deadlineOf t = None) ->
        (now w + paceMs * pauses evs <= now w')%N).
Proof.
  intros Hidle Hp Hsteps.
  destruct (timed_steps (nextId w) (now w) (log w) ins _ w'
              (timed_start c queue w s Hidle) Hp Hsteps)
    as (evs & Hlog & [(Hend & Hb)|(t & Hal & _ & Hb)]).
  - exists evs. split; [done|]. split; [lia|done].
  - exists evs. split; [done|]. split.
    + destruct (deadlineOf t); lia.
    + intros Hno. rewrite (Hno (nextId w) t) in Hb; [done|].
      rewrite Hal. apply list_elem_of_here.
Qed.

Lemma pauses_expectedEvents (queue : list UrlItem) :
  pauses (expectedEvents queue) = (2 * N.of_nat (length queue) - 1)%N.
Proof.
  induction queue as [|it rest IH]; [done|].
  change (pauses (expectedEvents (it :: rest)))
    with (1 + pauses (paceBefore rest (expectedEvents rest)))%N.
  destruct rest as [|it2 rest]; [done|].
  change (pauses (paceBefore (it2 :: rest) (expectedEvents (it2 :: rest))))
    with (1 + pauses (expectedEvents (it2 :: rest)))%N.
  rewrite IH. cbn [length]. lia.
Qed.

(** X22.  A run of the loop over a queue of [n] items that all have a
    result in the list the loop searches, that nobody stops and in which
    every backend call returns: when the run has ended, at least
    [3000 * (2 * n - 1)] ms have passed since its start; for one item,
    3 seconds; for ten, 57 seconds. *)
Theorem smooth_run_duration (c : list ScanResult)
    (queue : list UrlItem) (w w' : World) (s : State) (ins : list Input) :
  tasks w = [] ->
  allFound c queue ->
  forallb smooth ins = true ->
  steps (spawn w (startPerformanceScanWithUrls c queue s)) ins = Some w' ->
  tasks w' = [] ->
  (now w + paceMs * (2 * N.of_nat (length queue) - 1) <= now w')%N.
Proof.
  intros Hidle Hfound Hsm Hsteps Hend.
  assert (Hp : forallb passive ins = true).
  { clear -Hsm. induction ins as [|i ins IH]; simpl in *; [done|].
    apply andb_prop in Hsm as [H1 H2].
    by rewrite (smooth_passive i H1), IH. }
  destruct (timed_steps (nextId w) (now w) (log w) ins _ w'
              (timed_start c queue w s Hidle) Hp Hsteps)
    as (evs & Hlog & [(_ & Hb)|(t & Hal & _)]).
  2:{ unfold alone in Hal. by rewrite Hend in Hal. }
  destruct (onTrack_steps c (nextId w) _ _ w' ins
              (onTrack_start c queue w s Hidle Hfound) Hsm Hsteps)
    as [[_ Hlog']|(t & Hal & _)].
  2:{ unfold alone in Hal. by rewrite Hend in Hal. }
  rewrite Hlog in Hlog'. apply app_inv_head in Hlog'. subst evs.
  by rewrite pauses_expectedEvents in Hb.
Qed.

End WithNumber.

End DurationFacts.

(* ===================================================================== *)
(** ** The progress indicator *)
(* ===================================================================== *)

Module IndicatorFacts.

Import Page JsFacts RunFacts.

Section WithNumber.

Context {number : Type}.

Local Abbreviation ScanResult := (ScanResult number).
Local Abbreviation State := (State number).
Local Abbreviation World := (World number).
Local Abbreviation Task := (Task number).
Local Abbreviation Ran := (Ran number).
Local Abbreviation Input := (Input number).

(** The backend call a task of the loop is parked on: its item, the index
    of the row, the device. *)
Definition callOf (t : Task) : option (UrlItem * nat * Route.Strategy) :=
  match t with
  | LoopMobile _ it _ i => Some (it, i, Route.mobile)
  | LoopDesktop _ it _ i _ => Some (it, i, Route.desktop)
  | _ => None
  end.

(** The row at [i] is marked as being scanned, with the marker of device
    [d]: [result.status === 'scanning' && idx === currentScanIndex &&
     currentScanDevice === d], for the row at [i], if there is one. *)
Definition markerAt (s : State) (i : nat) (d : Route.Strategy) : Prop :=
  currentScanIndex s = Some i /\ currentScanDevice s = Some d
  /\ forall r, scanResults s !! i = Some r -> status r = scanning.

(** The indicator follows the parked loop. *)
Definition following (c : list ScanResult) (id : nat) (w : World) : Prop :=
  (tasks w = [] /\ currentScanDevice (state w) = None
   /\ isScanning (state w) = false)
  \/ exists t, alone id t w /\ loopOver c t
       /\ match t with
          | LoopMobile _ it _ i =>
              markerAt (state w) i Route.mobile
              /\ last (log w) = Some (EvCall (item_url it) Route.mobile)
          | LoopPace1 _ _ _ i _ _ => markerAt (state w) i Route.mobile
          | LoopDesktop _ it _ i _ =>
              markerAt (state w) i Route.desktop
              /\ last (log w) = Some (EvCall (item_url it) Route.desktop)
          | _ => True
          end.

Lemma markerAt_picked (s : State) i :
  markerAt (picked i s) i Route.mobile.
Proof.
  split; [done|]. split; [done|]. intros r. simpl. unfold updateAt.
  rewrite list_lookup_alter_eq. destruct (scanResults s !! i); [|done].
  by intros [= <-].
Qed.

(** The loop goes on from the top of a turn. *)
Lemma loopFrom_following c id t rest (w : World) (s : State) :
  alone id t w -> following c id (continue w id (loopFrom c rest s)).
Proof.
  intros Hal.
  destruct (loopFrom_inv c rest s)
    as [->|(sk & it & rest' & i & _ & Hi & _ & _ & ->)];
    rewrite (continue_alone id t) by done.
  - by left.
  - right. exists (LoopMobile c it rest' i). split; [done|]. split.
    { split; [done|]. simpl. by intros ? ? [= <- <-]. }
    split; [apply markerAt_picked|]. simpl. by rewrite last_snoc.
Qed.

Lemma following_step c id (w w' : World) (i : Input) :
  following c id w -> passive i = true -> step w i = Some w' ->
  following c id w'.
Proof.
  intros [(Hidle & Hd & Hs)|(t & Hal & Hover & Hsp)] Hp Hstep.
  - left. destruct i as [| | | | | | | | | |k o| |k|ms]; try done;
      simpl in Hstep.
    + destruct (stopOffered _); [|done]. by injection Hstep as <-.
    + by rewrite Hidle in Hstep.
    + by rewrite Hidle in Hstep.
    + by injection Hstep as <-.
  - pose proof (alone_step id t w w' i Hal Hp Hstep) as Hcase.
    destruct (resume_loopOver c (now w) t (state w) Hover) as [Hcall Htimer].
    destruct i as [| | | | | | | | | |k o| |k|ms]; try done.
    + subst w'. right. exists t. split; [done|]. split; [done|].
      by destruct t.
    + destruct Hcase as (-> & r & Hr & ->). rewrite Hcall in Hr.
      destruct Hover as [Hc Hcur].
      destruct t, o as [m'|msg]; simpl in Hr; try done;
        simpl in Hc; injection Hc as ->.
      * injection Hr as <-. rewrite (continue_alone id _ w) by done.
        right. eexists. split; [reflexivity|]. split; [by split|].
        by destruct Hsp.
      * injection Hr as <-. by eapply loopFrom_following.
      * destruct rest as [|it2 rest]; injection Hr as <-.
        -- by apply (loopFrom_following c id _ [] w _ Hal).
        -- rewrite (continue_alone id _ w) by done.
           right. eexists. split; [reflexivity|]. split; [|done].
           split; [done|]. done.
      * injection Hr as <-. by eapply loopFrom_following.
    + destruct Hcase as (-> & d & r & _ & _ & Hr & ->). rewrite Htimer in Hr.
      destruct Hover as [Hc Hcur].
      destruct t; simpl in Hr; try done; simpl in Hc; injection Hc as ->.
      * destruct (stopScanningRef (state w)); injection Hr as <-;
          rewrite (continue_alone id _ w) by done.
        -- by left.
        -- right. eexists. split; [reflexivity|]. split; [by split|].
           split; [|simpl; by rewrite last_snoc].
           destruct Hsp as (Hi & _ & Hrow). done.
      * injection Hr as <-. by eapply loopFrom_following.
    + subst w'. right. by exists t.
Qed.

Lemma following_steps c id (ins : list Input) :
  forall (w w' : World),
    following c id w -> forallb passive ins = true ->
    steps w ins = Some w' -> following c id w'.
Proof.
  induction ins as [|i ins IH]; intros w w' HF Hp; simpl.
  - by intros [= <-].
  - simpl in Hp. apply andb_prop in Hp as [Hp1 Hp2].
    destruct (step w i) as [w1|] eqn:H1; [|done]. simpl.
    apply IH; [|done]. by eapply following_step.
Qed.

(** X23.  A run of the loop, started from any handler on a page with no
    task parked, whatever the backend answers and whether or not Stop is
    pressed.  Whenever the loop waits for a backend call, that call is the
    last request the page has sent, for the URL of the item in progress and
    one device; [currentScanIndex] is the index the loop found for that URL
    and [currentScanDevice] is that device, and the row at that index, if
    there is one, has status scanning: the page marks that row, and in it
    the device of the call in flight.  When the run has ended,
    [currentScanDevice] is [null] and [isScanning] is off. *)
Theorem indicator_follows_the_call (c : list ScanResult)
    (queue : list UrlItem) (w w' : World) (s : State) (ins : list Input) :
  tasks w = [] ->
  forallb passive ins = true ->
  steps (spawn w (startPerformanceScanWithUrls c queue s)) ins = Some w' ->
  (tasks w' = [] /\ currentScanDevice (state w') = None
   /\ isScanning (state w') = false)
  \/ exists t, tasks w' = [(nextId w, t)]
       /\ forall it i d, callOf t = Some (it, i, d) ->
            last (log w') = Some (EvCall (item_url it) d)
            /\ indexIn c it = Some i
            /\ currentScanIndex (state w') = Some i
            /\ currentScanDevice (state w') = Some d
            /\ forall r, scanResults (state w') !! i = Some r ->
                 status r = scanning.
Proof.
  intros Hidle Hp Hsteps.
  assert (HF : following c (nextId w) w').
  { eapply following_steps; [|done|exact Hsteps].
    unfold startPerformanceScanWithUrls.
    destruct (loopFrom_inv c queue
                (setStopScanningRef false (setIsScanning true s)))
      as [->|(sk & it & rest' & i & _ & Hi & _ & _ & ->)];
      rewrite spawn_idle by done.
    - by left.
    - right. exists (LoopMobile c it rest' i). split; [done|]. split.
      { split; [done|]. simpl. by intros ? ? [= <- <-]. }
      split; [apply markerAt_picked|]. simpl. by rewrite last_snoc. }
  destruct HF as [H|(t & Hal & [Hc Hcur] & Hsp)]; [by left|].
  right. exists t. split; [done|]. intros it i d Hcall.
  destruct t; simpl in Hcall; try done; injection Hcall as <- <- <-.
  - destruct Hsp as [(Hi & Hd & Hrow) Hlast].
    split; [done|]. split; [by apply Hcur|]. done.
  - destruct Hsp as [(Hi & Hd & Hrow) Hlast].
    split; [done|]. split; [by apply Hcur|]. done.
Qed.

End WithNumber.

End IndicatorFacts.

(* ===================================================================== *)
(** ** A run in which every call returns completes its queue *)
(* ===================================================================== *)

Module CompletionFacts.

Import Page JsFacts RunFacts RowFacts LoopEndFacts.

Section WithNumber.

Context {number : Type}.

Local Abbreviation DeviceResult := (DeviceResult number).
Local Abbreviation ScanResult := (ScanResult number).
Local Abbreviation State := (State number).
Local Abbreviation World := (World number).
Local Abbreviation Task := (Task number).
Local Abbreviation Ran := (Ran number).
Local Abbreviation Input := (Input number).

(** X24.  The loop can always finish its queue.  On a page with no task
    parked, for a queue whose items all have a result in the list the loop
    searches (the results of the state having the URLs of that list), and
    for any device result [r0]: there are inputs, in which every call
    returns [r0] and every timer fires when it is due, that take the run
    to its end; and at the end of any run in which every call returns and
    nobody presses Stop, [isScanning] is off and the row of every item of
    the queue is completed, with the URL of the item, a mobile and a
    desktop result and no error. *)
Theorem returning_calls_complete_the_queue (c : list ScanResult)
    (queue : list UrlItem) (w : World) (s : State) (r0 : DeviceResult) :
  tasks w = [] ->
  allFound c queue ->
  url <$> scanResults s = url <$> c ->
  (exists ins w',
     forallb smooth ins = true
     /\ steps (spawn w (startPerformanceScanWithUrls c queue s)) ins
        = Some w'
     /\ tasks w' = [])
  /\ forall ins w',
       forallb smooth ins = true ->
       steps (spawn w (startPerformanceScanWithUrls c queue s)) ins
       = Some w' ->
       tasks w' = [] ->
       isScanning (state w') = false
       /\ forall it j, it ∈ queue -> indexIn c it = Some j ->
            exists r, scanResults (state w') !! j = Some r
              /\ url r = item_url it /\ status r = completed
              /\ is_Some (mobile r) /\ is_Some (desktop r)
              /\ error r = None.
Proof.
  intros Hidle Hfound Hu. split.
  { by apply smooth_run_completes. }
  intros ins w' Hsm Hsteps Hend.
  destruct (closing_steps c queue (nextId w) ins [] _ w'
              (closing_start c queue w s Hidle Hfound Hu)
              (smooth_all_unstopped ins Hsm) Hsteps)
    as (_ & Hu' & [(_ & Hsc & Hfin)|(t & Hal & _)]).
  2:{ unfold alone in Hal. by rewrite Hend in Hal. }
  split; [done|]. intros it j Hit Hj.
  destruct (Hfin j) as (r & Hr & H); [by exists it|].
  exists r. split; [done|]. split.
  { apply indexIn_url in Hj as (rc & Hrc & <-).
    assert (H1 : (url <$> scanResults (state w')) !! j = Some (url r))
      by (by rewrite list_lookup_fmap, Hr).
    rewrite Hu', list_lookup_fmap, Hrc in H1. simpl in H1. congruence. }
  destruct H as [H|(_ & msg & _ & Hin)]; [done|].
  simpl in Hin. by apply smooth_no_throw in Hin.
Qed.

End WithNumber.

End CompletionFacts.

(* ===================================================================== *)
(** ** The rows a manual submit creates *)
(* ===================================================================== *)

Module SubmitFacts.

Import Js Page JsFacts RunFacts RowFacts StoreFacts CapturedFacts.

Section WithNumber.

Context {number : Type}.

Local Abbreviation ScanResult := (ScanResult number).
Local Abbreviation State := (State number).
Local Abbreviation World := (World number).
Local Abbreviation Task := (Task number).
Local Abbreviation Ran := (Ran number).
Local Abbreviation Input := (Input number).

(** A row as the timer callback of the submit creates it, pending with no
    result and no error, or such a row marked as being scanned by the loop
    the callback starts. *)
Definition fresh (r : ScanResult) : Prop :=
  r = pendingResult (url r) \/ r = markScanning (pendingResult (url r)).

(** The rows the loop leaves when it starts on the list [l]. *)
Lemma loopFrom_marks_one_row c rest (s : State) :
  scanResults ((loopFrom c rest s).1.1) = scanResults s
  \/ exists i, scanResults ((loopFrom c rest s).1.1)
               = updateAt i markScanning (scanResults s).
Proof.
  destruct (loopFrom_inv c rest s)
    as [->|(sk & it & rest' & i & _ & _ & _ & _ & ->)]; [by left|].
  right. by exists i.
Qed.

Lemma fresh_initialResults (items : list UrlItem) :
  Forall (fun r : ScanResult => r = pendingResult (url r))
    (initialResults items).
Proof.
  unfold initialResults. apply Forall_forall. intros r Hr.
  apply list_elem_of_fmap in Hr as (item & -> & _). reflexivity.
Qed.

Lemma fresh_updateAt i (l : list ScanResult) :
  Forall (fun r : ScanResult => r = pendingResult (url r)) l ->
  Forall fresh (updateAt i markScanning l).
Proof.
  intros Hl. apply Forall_forall. intros r Hr.
  apply list_elem_of_lookup in Hr as [j Hj]. unfold updateAt in Hj.
  rewrite Forall_forall in Hl.
  destruct (decide (i = j)) as [->|Hne].
  - rewrite list_lookup_alter_eq in Hj.
    destruct (l !! j) as [r0|] eqn:H0; [|done]. injection Hj as <-.
    right. simpl. f_equal. apply Hl. by eapply list_elem_of_lookup_2.
  - rewrite list_lookup_alter_ne in Hj by done.
    left. apply Hl. by eapply list_elem_of_lookup_2.
Qed.

(** X26.  The submit of the manual form on a page with no task parked, the
    handler going on past its alerts: the submit empties the result list,
    and when its timer fires (100 ms later, or more) the callback creates
    the rows and starts the loop.  The result list then holds exactly one
    row per distinct URL string of the text, in the order of the first
    occurrence of each URL in the text; every row has no result, no error
    and status pending, but for the one row the loop may already have
    marked as being scanned; and when the page showed no results at the
    submit, every row is pending. *)
Theorem manual_submit_creates_one_row_per_url (w w1 : World)
    (apiKey text : string) (ms : N) :
  tasks w = [] ->
  step w (SubmitManual apiKey text) = Some w1 ->
  (manualDelayMs <= ms)%N ->
  exists w2,
    steps w1 [Advance ms; Fire (nextId w)] = Some w2
    /\ scanResults (state w1) = []
    /\ scanResults (state w2) <> []
    /\ Forall fresh (scanResults (state w2))
    /\ NoDup (url <$> scanResults (state w2))
    /\ (forall u, u ∈ url <$> scanResults (state w2)
                  <-> u ∈ manualTokens text)
    /\ (forall i j ri rj,
          scanResults (state w2) !! i = Some ri ->
          scanResults (state w2) !! j = Some rj ->
          (i < j)%nat ->
          exists a b, firstIndex (url ri) (manualTokens text) = Some a
                      /\ firstIndex (url rj) (manualTokens text) = Some b
                      /\ (a < b)%nat)
    /\ (scanResults (state w) = [] ->
        Forall (fun r => r = pendingResult (url r))
          (scanResults (state w2))).
Proof.
  intros Hidle Hstep Hms.
  cbn [step] in Hstep.
  destruct (submitOffered (state w) && negb (isSitemap (urlInputMode (state w))));
    [|done].
  unfold handleManualUrlsSubmit in Hstep.
  destruct (negb (truthy (trim apiKey))); [done|].
  destruct (negb (truthy (trim text))); [done|].
  destruct (parseManualUrls text) as [|u us] eqn:Hparse; [done|].
  rewrite <- Hparse in Hstep.
  cbn [fmap option_fmap option_map] in Hstep.
  rewrite spawn_idle in Hstep by done. injection Hstep as <-.
  set (items := selectedItem <$> parseManualUrls text).
  set (s3 := setUrls items
               (setCurrentScanIndex None
                  (setScanResults (fun _ => []) (state w)))).
  set (timer := ManualTimer (scanResults (state w)) items
                  (now w + manualDelayMs)%N : Task).
  set (w1 := {| state := s3; tasks := [(nextId w, timer)];
                nextId := S (nextId w); now := now w;
                log := log w ++ [] |} : World).
  set (r := startPerformanceScanWithUrls (scanResults (state w)) items
              (setScanResults (fun _ => initialResults items) s3)).
  exists (continue (advance w1 ms) (nextId w) r).
  split.
  { rewrite steps_cons, step_advance, bind_Some, steps_cons.
    rewrite (step_fire_alone (nextId w) timer (advance w1 ms)
               (now w + manualDelayMs)%N r); [done|done|done| |done].
    simpl. lia. }
  split; [done|].
  assert (Hstore : @manualStore number text = initialResults items) by done.
  pose proof (@manual_store_one_pending_item_per_url number text)
    as (Hpend & Hnd & Hin & Hord).
  rewrite Hstore in Hpend, Hnd, Hin, Hord.
  assert (Hne : initialResults items <> ([] : list ScanResult)).
  { subst items. rewrite Hparse. done. }
  assert (Hrows : scanResults (state (continue (advance w1 ms) (nextId w) r))
                  = initialResults items
                  \/ exists i,
                       scanResults (state (continue (advance w1 ms)
                                             (nextId w) r))
                       = updateAt i markScanning (initialResults items)).
  { subst r. unfold startPerformanceScanWithUrls.
    match goal with
    | |- context [loopFrom ?c ?q ?s0] =>
        pose proof (loopFrom_marks_one_row c q s0) as Hl;
        destruct (loopFrom c q s0) as [[s' evs'] ot']
    end.
    rewrite (continue_alone (nextId w) timer (advance w1 ms)) by done.
    exact Hl. }
  assert (Hurls : url <$> scanResults
                    (state (continue (advance w1 ms) (nextId w) r))
                  = url <$> (initialResults items : list ScanResult)).
  { destruct Hrows as [->|[i ->]]; [done|]. by apply urls_updateAt. }
  split.
  { intros Hnil. rewrite Hnil in Hurls. symmetry in Hurls.
    apply fmap_nil_inv in Hurls. done. }
  split.
  { destruct Hrows as [->|[i ->]].
    - eapply Forall_impl; [exact Hpend|]. intros x Hx. by left.
    - by apply fresh_updateAt. }
  rewrite Hurls. split; [done|]. split; [done|]. split.
  { intros i j ri rj Hi Hj Hlt.
    assert (Hi' : (url <$> initialResults items) !! i = Some (url ri))
      by (by rewrite <- Hurls, list_lookup_fmap, Hi).
    assert (Hj' : (url <$> initialResults items) !! j = Some (url rj))
      by (by rewrite <- Hurls, list_lookup_fmap, Hj).
    rewrite list_lookup_fmap in Hi', Hj'.
    destruct (initialResults items !! i) as [xi|] eqn:Exi; [|done].
    destruct (initialResults items !! j) as [xj|] eqn:Exj; [|done].
    simpl in Hi', Hj'. injection Hi' as <-. injection Hj' as <-.
    by apply (Hord i j xi xj). }
  intros Hempty. subst r. rewrite Hempty.
  unfold startPerformanceScanWithUrls. rewrite loopFrom_empty.
  rewrite (continue_alone (nextId w) timer (advance w1 ms)) by done.
  exact Hpend.
Qed.

End WithNumber.

End SubmitFacts.

(* ===================================================================== *)
(** ** Runs of the page on three URLs *)
(* ===================================================================== *)

Module Scenarios.

Import Page RunFacts.

Definition urlA : string := "https://a.test/".
Definition urlB : string := "https://b.test/".
Definition urlC : string := "https://c.test/".

Definition itemA : UrlItem := selectedItem urlA.
Definition itemB : UrlItem := selectedItem urlB.
Definition itemC : UrlItem := selectedItem urlC.

(** The text of the manual URL field. *)
Definition threeUrls : string :=
  "https://a.test/,https://b.test/,https://c.test/".

(** A device result, with scores in percent. *)
Definition okResult : DeviceResult Z :=
  {| scores := {| Route.performance := 95; Route.accessibility := 100;
                  Route.bestPractices := 92; Route.seo := 100 |};
     fieldData := {| Route.fcp := None; Route.fid := None;
                     Route.lcp := None; Route.cls := None |};
     issues := [] |}.

Definition threePending : list (ScanResult Z) :=
  [pendingResult urlA; pendingResult urlB; pendingResult urlC].

Definition statuses (w : World Z) : list ScanStatus :=
  status <$> scanResults (state w).

(** *** From the first render to a running scan *)

(** The world after the inputs [ins] from the first render. *)
Definition worldAfter (ins : list (Input Z)) : World Z :=
  default initialWorld (steps initialWorld ins).

(** The user submits the manual list. *)
Definition firstSubmit : list (Input Z) :=
  [SelectMode manual; SubmitManual "key" threeUrls; Advance 100; Fire 0].

(** The user submits the same list again. *)
Definition secondSubmit : list (Input Z) :=
  [SubmitManual "key" threeUrls; Advance 100; Fire 1].

(** The page with three pending results and no run in progress, at time
    100, one task identifier used. *)
Definition idleThree : World Z :=
  {| state := {| urls := [itemA; itemB; itemC]; urlInputMode := manual;
                 isLoadingUrls := false; isScanning := false;
                 scanResults := threePending; currentScanIndex := None;
                 currentScanDevice := None; stopScanningRef := false |};
     tasks := []; nextId := 1; now := 100; log := [] |}.

(** The scan that the timer of the first submit starts searches the
    results of the render of the submit, which are empty: it skips every
    URL and ends at once, without a call.  The page is then [idleThree]. *)
Example first_submit_scans_nothing :
  steps initialWorld firstSubmit = Some idleThree.
Proof. vm_compute. reflexivity. Qed.

(** The scan of the second submit searches the pending results of the
    first: the loop parks on the mobile call of the first URL, as task
    1. *)
Example second_submit_starts_the_loop :
  exists w, steps idleThree secondSubmit = Some w
    /\ tasks w = [(1%nat, LoopMobile threePending itemA [itemB; itemC] 0)]
    /\ log w = [EvCall urlA Route.mobile]
    /\ statuses w = [scanning; pending; pending]
    /\ isScanning (state w) = true.
Proof. eexists. vm_compute. repeat split. Qed.

(** The page after the two submits and the inputs [ins]. *)
Definition pageAfter (ins : list (Input Z)) : World Z :=
  worldAfter (firstSubmit ++ secondSubmit ++ ins).

(** The loop called directly on [idleThree] over the three items, with the
    three pending results as the list it searches; it is task 1. *)
Definition loopThree : World Z :=
  spawn idleThree
    (startPerformanceScanWithUrls threePending [itemA; itemB; itemC]
       (state idleThree)).

(** That loop after the inputs [ins]. *)
Definition runThree (ins : list (Input Z)) : World Z :=
  default idleThree (steps loopThree ins).

(** Both calls of the item in progress return. *)
Definition turnOk : list (Input Z) :=
  [Respond 1 (Returns okResult); Advance 3000; Fire 1;
   Respond 1 (Returns okResult)].

(** The pause before the next item ends. *)
Definition nextItem : list (Input Z) := [Advance 3000; Fire 1].

(** *** A whole run (C3) *)

Definition wholeRun : list (Input Z) :=
  turnOk ++ nextItem ++ turnOk ++ nextItem ++ turnOk.

(** The events the claim announces: a pause after each call. *)
Definition claimedEvents (queue : list UrlItem) : list Event :=
  flat_map (fun it => [EvCall (item_url it) Route.mobile; EvPace;
                       EvCall (item_url it) Route.desktop; EvPace]) queue.

Definition wholeRunEvents : list Event :=
  [EvCall urlA Route.mobile; EvPace; EvCall urlA Route.desktop; EvPace;
   EvCall urlB Route.mobile; EvPace; EvCall urlB Route.desktop; EvPace;
   EvCall urlC Route.mobile; EvPace; EvCall urlC Route.desktop].

(** C3 (as amended) on the three URLs, every call returning. *)
Lemma smooth_run_events_witness :
  log (runThree wholeRun)
  = log idleThree ++ expectedEvents [itemA; itemB; itemC].
Proof.
  apply (smooth_run_events threePending [itemA; itemB; itemC] idleThree
           (runThree wholeRun) (state idleThree) wholeRun).
  - reflexivity.
  - repeat constructor; vm_compute; eauto.
  - reflexivity.
  - vm_compute. reflexivity.
  - vm_compute. reflexivity.
Defined.

(** C3, as stated, fails on the queue of three URLs: after the desktop call
    of the last item the run ends, the page starts no pause there, so the
    events are not those with a pause after each call.  So it is for the
    loop called on the three pending results, and for the page from its
    first render. *)
Lemma whole_run_has_no_last_pause :
  (steps loopThree wholeRun = Some (runThree wholeRun)
   /\ tasks (runThree wholeRun) = []
   /\ statuses (runThree wholeRun) = [completed; completed; completed]
   /\ log (runThree wholeRun) = wholeRunEvents)
  /\ (steps initialWorld (firstSubmit ++ secondSubmit ++ wholeRun)
      = Some (pageAfter wholeRun)
      /\ tasks (pageAfter wholeRun) = []
      /\ log (pageAfter wholeRun) = wholeRunEvents)
  /\ wholeRunEvents <> claimedEvents [itemA; itemB; itemC].
Proof. vm_compute. repeat split. discriminate. Qed.

(** *** A stop during the pause after a mobile call (C2) *)

(** The first item is completed and the mobile call of the second
    returns. *)
Definition untilSecondMobile : list (Input Z) :=
  turnOk ++ nextItem ++ [Respond 1 (Returns okResult)].

(** Then the user presses Stop during the pause, and the pause ends. *)
Definition stopInPause : list (Input Z) :=
  untilSecondMobile ++ [ClickStop; Advance 3000; Fire 1].



(** When Stop is pressed during the desktop call instead, the item is
    completed, or failed if that call throws. *)
Example stop_during_desktop_call :
  statuses (runThree (untilSecondMobile ++
              [Advance 3000; Fire 1; ClickStop; Respond 1 (Returns okResult);
               Advance 3000; Fire 1]))
  = [completed; completed; pending]
  /\ statuses (runThree (untilSecondMobile ++
                 [Advance 3000; Fire 1; ClickStop; Respond 1 (Throws "boom")]))
     = [completed; failed; pending].
Proof. vm_compute. repeat split. Qed.

(** *** A failing mobile call (X25, C8) *)

(** The first item is completed and the mobile call of the second is in
    flight. *)
Definition secondMobileInFlight : World Z :=
  runThree (turnOk ++ nextItem).

(** X25 on the three URLs, when the mobile call of the second throws. *)
Lemma mobile_failure_witness :
  exists w1, step secondMobileInFlight (Respond 1 (Throws "boom")) = Some w1
    /\ (exists i2, indexIn threePending itemC = Some i2
           /\ alone 1 (LoopMobile threePending itemC [] i2) w1
           /\ log w1 = log secondMobileInFlight
                        ++ [EvCall (item_url itemC) Route.mobile])
    /\ (exists (ins : list (Input Z)) (w' : World Z),
          forallb unstopped ins = true /\ steps w1 ins = Some w'
          /\ tasks w' = [])
    /\ forall (ins : list (Input Z)) (w' : World Z),
         forallb unstopped ins = true ->
         steps w1 ins = Some w' ->
         (exists r', scanResults (state w') !! 1%nat = Some r'
            /\ url r' = item_url itemB
            /\ status r' = failed /\ error r' = Some "boom"
            /\ mobile r' = mobile (markScanning (pendingResult urlB))
            /\ desktop r' = desktop (markScanning (pendingResult urlB)))
         /\ exists evs, log w' = log secondMobileInFlight ++ evs
              /\ (forall d, EvCall (item_url itemB) d ∉ evs)
              /\ (tasks w' = [] -> mobileCalls evs = item_url <$> [itemC]).
Proof.
  apply (LoopEndFacts.mobile_failure_is_contained threePending 1 itemB
           [itemC] 1 "boom" (markScanning (pendingResult urlB))
           secondMobileInFlight).
  - vm_compute. reflexivity.
  - vm_compute. reflexivity.
  - repeat constructor; vm_compute; eauto.
  - apply (bool_decide_unpack _). vm_compute. exact I.
  - vm_compute. reflexivity.
  - vm_compute. reflexivity.
  - reflexivity.
Defined.

(** The whole run when the mobile call of the second URL throws. *)
Example run_with_failed_second_item :
  let w := runThree (turnOk ++ nextItem ++ [Respond 1 (Throws "boom")]
                     ++ turnOk) in
  tasks w = []
  /\ statuses w = [completed; failed; completed]
  /\ (desktop <$> scanResults (state w)) !! 1%nat = Some None
  /\ log w = [EvCall urlA Route.mobile; EvPace; EvCall urlA Route.desktop;
              EvPace; EvCall urlB Route.mobile;
              EvCall urlC Route.mobile; EvPace; EvCall urlC Route.desktop].
Proof. vm_compute. repeat split. Qed.

(** *** A failing mobile call after the list was submitted again (C4) *)

(** After the list a, b, c the user submits the list b, a. *)
Definition resubmitBA : list (Input Z) :=
  [SubmitManual "key" "https://b.test/,https://a.test/"; Advance 100;
   Fire 1].

(** C4, on the code: the user submits the list a, b, c and then the list
    b, a; the mobile call of b throws, the two calls of a return.  The loop
    looks [findIndex] up in the [scanResults] of the render of the submit,
    the rows a, b, c, and writes at that index in the rows b, a: the
    failure of b is written to the row of a, and the results of a to the
    row of b.  When the run has ended, the row of b, the item whose mobile
    call threw, is completed with a desktop result and without error, and
    no desktop call was issued for b. *)
Lemma mobile_failure_is_written_to_another_row :
  exists w : World Z,
    steps initialWorld
      (firstSubmit ++ resubmitBA ++ [Respond 1 (Throws "boom")] ++ turnOk)
    = Some w
    /\ tasks w = []
    /\ log w = [EvCall urlB Route.mobile; EvCall urlA Route.mobile; EvPace;
                EvCall urlA Route.desktop]
    /\ url <$> scanResults (state w) = [urlB; urlA]
    /\ statuses w = [completed; failed]
    /\ desktop <$> scanResults (state w) = [Some okResult; None]
    /\ error <$> scanResults (state w) = [None; Some "boom"].
Proof. eexists. vm_compute. repeat split. Qed.

(** On the same two lists, Stop pressed during the pause after the mobile
    call of b: the run halts with the row of a marked as being scanned and
    the row of b pending. *)
Example stop_after_resubmit_marks_another_row :
  exists w : World Z,
    steps initialWorld
      (firstSubmit ++ resubmitBA
       ++ [Respond 1 (Returns okResult); ClickStop; Advance 3000; Fire 1])
    = Some w
    /\ tasks w = []
    /\ url <$> scanResults (state w) = [urlB; urlA]
    /\ statuses w = [pending; scanning].
Proof. eexists. vm_compute. repeat split. Qed.

(** C8, on the code: the mobile call of the first URL throws, and the
    mobile call of the second URL is issued in the same step, with no pause
    before it; so it is for the loop called on the three pending results,
    and for the page from its first render.  After a successful item the
    page does pause before the next item. *)
Lemma failed_call_is_followed_by_no_pause :
  log (runThree [Respond 1 (Throws "boom")])
  = [EvCall urlA Route.mobile; EvCall urlB Route.mobile]
  /\ statuses (runThree [Respond 1 (Throws "boom")])
     = [failed; scanning; pending]
  /\ steps initialWorld (firstSubmit ++ secondSubmit
                         ++ [Respond 1 (Throws "boom")])
     = Some (pageAfter [Respond 1 (Throws "boom")])
  /\ log (pageAfter [Respond 1 (Throws "boom")])
     = [EvCall urlA Route.mobile; EvCall urlB Route.mobile]
  /\ log (runThree (turnOk ++ nextItem))
     = [EvCall urlA Route.mobile; EvPace; EvCall urlA Route.desktop; EvPace;
        EvCall urlB Route.mobile].
Proof. vm_compute. repeat split. Qed.

(** *** Retry of the failed items (C1) *)

(** A run in which the mobile call of the second URL throws: the first and
    third items are completed, the second is failed. *)
Definition mixedRun : list (Input Z) :=
  firstSubmit ++ secondSubmit ++ turnOk ++ nextItem
  ++ [Respond 1 (Throws "boom")] ++ turnOk.

Example mixedRun_statuses :
  steps initialWorld mixedRun = Some (worldAfter mixedRun)
  /\ tasks (worldAfter mixedRun) = []
  /\ statuses (worldAfter mixedRun) = [completed; failed; completed].
Proof. vm_compute. repeat split. Qed.

(** The retry is task 2. *)
Definition retryTurn : list (Input Z) :=
  [Respond 2 (Returns okResult); Advance 3000; Fire 2;
   Respond 2 (Returns okResult)].

Definition afterRetry : World Z :=
  worldAfter (mixedRun ++ [ClickRescanErrors] ++ retryTurn).

Example retry_calls_only_failed_item :
  tasks afterRetry = []
  /\ statuses afterRetry = [completed; completed; completed]
  /\ drop (length (log (worldAfter mixedRun))) (log afterRetry)
     = [EvCall urlB Route.mobile; EvPace; EvCall urlB Route.desktop].
Proof. vm_compute. repeat split. Qed.

(** C1 on the results completed, failed, completed. *)
Lemma retry_failed_witness :
  (forall j r, scanResults (state (worldAfter mixedRun)) !! j = Some r ->
     status r <> failed ->
     scanResults (state afterRetry) !! j = Some r)
  /\ exists evs,
       log afterRetry = log (worldAfter mixedRun) ++ evs
       /\ forall u d, EvCall u d ∈ evs ->
            exists r, r ∈ scanResults (state (worldAfter mixedRun))
                      /\ status r = failed /\ url r = u.
Proof.
  apply (retry_failed_leaves_other_items (worldAfter mixedRun)
           (worldAfter (mixedRun ++ [ClickRescanErrors])) afterRetry
           retryTurn).
  - vm_compute. reflexivity.
  - apply (bool_decide_unpack _). vm_compute. exact I.
  - vm_compute. reflexivity.
  - reflexivity.
  - vm_compute. reflexivity.
Defined.

(** *** The pause and the Stop button (C5) *)

(** The mobile call of the first URL returns at time 100 and the pause
    begins; the user presses Stop 10 ms later. *)
Definition stopDuringPause : list (Input Z) :=
  [Respond 1 (Returns okResult); Advance 10; ClickStop].

Definition firstPause : Task Z :=
  LoopPace1 threePending itemA [itemB; itemC] 0 okResult 3100.

(** C5, as stated, fails on this run: the flag is set, and 2989 ms later the
    task is still parked on its pause, whose timer is not due: the pause
    does not end at once. *)
Lemma stop_does_not_end_the_pause :
  steps loopThree (stopDuringPause ++ [Advance 2989])
  = Some (runThree (stopDuringPause ++ [Advance 2989]))
  /\ stopScanningRef (state (runThree stopDuringPause)) = true
  /\ now (runThree stopDuringPause) = 110%N
  /\ tasks (runThree stopDuringPause) = [(1%nat, firstPause)]
  /\ step (runThree stopDuringPause) (Fire 1) = None
  /\ now (runThree (stopDuringPause ++ [Advance 2989])) = 3099%N
  /\ tasks (runThree (stopDuringPause ++ [Advance 2989]))
     = [(1%nat, firstPause)]
  /\ step (runThree (stopDuringPause ++ [Advance 2989])) (Fire 1) = None.
Proof. vm_compute. repeat split. Qed.

(** C5 (as amended) on the pause after the first mobile call, with Stop
    pressed 10 ms into it. *)
Lemma pace_wait_witness :
  3100%N = (now (runThree [Respond 1 (Returns okResult)]) + paceMs)%N
  /\ (lookupTask 1 (tasks (runThree (stopDuringPause ++ [Advance 2989])))
      = Some firstPause
      \/ (now (runThree [Respond 1 (Returns okResult)]) + paceMs
          <= now (runThree (stopDuringPause ++ [Advance 2989])))%N).
Proof.
  apply (PaceFacts.pace_wait_lasts_3000ms
           loopThree
           (runThree [Respond 1 (Returns okResult)])
           (runThree (stopDuringPause ++ [Advance 2989]))
           (Respond 1 (Returns okResult))
           [Advance 10; ClickStop; Advance 2989] 1).
  - vm_compute. reflexivity.
  - vm_compute. discriminate.
  - vm_compute. reflexivity.
  - reflexivity.
  - vm_compute. reflexivity.
Defined.

(** *** Two runs at once (C6) *)

(** The mobile call of the first URL throws and the loop goes on to the
    second; the user presses Stop, which clears [isScanning] while the loop
    is parked on that call; the Retry link of the failed row is offered and
    the user clicks it. *)
Definition retryAfterStop : list (Input Z) :=
  [Respond 1 (Throws "boom"); ClickStop; ClickRetry 0].

(** The stopped loop then gets its mobile result and its pause ends. *)
Definition stoppedLoopGoesOn : list (Input Z) :=
  retryAfterStop ++ [Respond 1 (Returns okResult); Advance 3000; Fire 1].

(** C6, on the code, from the first render of the page: two handlers are
    parked on a backend call at the same time, with [isScanning] set again,
    and since the retry cleared the flag, the stopped loop goes on to its
    desktop call. *)
Lemma second_run_starts_while_first_is_parked :
  steps initialWorld (firstSubmit ++ secondSubmit ++ stoppedLoopGoesOn)
  = Some (pageAfter stoppedLoopGoesOn)
  /\ tasks (pageAfter retryAfterStop)
     = [ (1%nat, LoopMobile threePending itemB [itemC] 1);
         (2%nat, SingleMobile 0 (markError "boom"
                                   (markScanning (pendingResult urlA)))) ]
  /\ isScanning (state (pageAfter [Respond 1 (Throws "boom"); ClickStop]))
     = false
  /\ isScanning (state (pageAfter retryAfterStop)) = true
  /\ stopScanningRef (state (pageAfter retryAfterStop)) = false
  /\ log (pageAfter retryAfterStop)
     = [EvCall urlA Route.mobile; EvCall urlB Route.mobile;
        EvCall urlA Route.mobile]
  /\ log (pageAfter stoppedLoopGoesOn)
     = [EvCall urlA Route.mobile; EvCall urlB Route.mobile;
        EvCall urlA Route.mobile; EvPace; EvCall urlB Route.desktop].
Proof. vm_compute. repeat split. Qed.

(** The same defect reaches the other operations.  The second item has
    failed and the loop is parked on the mobile call of the third; the user
    presses Stop and then "Rescan Errors", which is offered at once: the
    retry clears the flag, and the stopped loop completes the third item
    while the retry of the second is under way. *)
Example retry_of_failed_items_beside_a_stopped_loop :
  let before := runThree (turnOk ++ nextItem ++ [Respond 1 (Throws "boom");
                          ClickStop]) in
  let after := runThree (turnOk ++ nextItem ++ [Respond 1 (Throws "boom");
                         ClickStop; ClickRescanErrors] ++ turnOk) in
  statuses before = [completed; failed; scanning]
  /\ (fst <$> tasks before) = [1%nat]
  /\ isScanning (state before) = false
  /\ statuses after = [completed; scanning; completed]
  /\ (fst <$> tasks after) = [2%nat].
Proof. vm_compute. repeat split. Qed.

(** *** A completed item (C9) *)

Definition completedA : ScanResult Z :=
  markCompleted okResult okResult (markScanning (pendingResult urlA)).

(** C9 on the first item after both its calls returned. *)
Lemma completed_items_witness :
  is_Some (mobile completedA) /\ is_Some (desktop completedA)
  /\ error completedA = None.
Proof.
  apply (CompletedFacts.completed_items_have_both_results
           (firstSubmit ++ secondSubmit ++ turnOk) (pageAfter turnOk)).
  - vm_compute. reflexivity.
  - vm_compute. apply list_elem_of_here.
  - reflexivity.
Defined.

End Scenarios.

(* ===================================================================== *)
(** ** More runs of the page on the three URLs *)
(* ===================================================================== *)

Module MoreScenarios.

Import Page RunFacts Scenarios.

(** *** The retry of one row (X1, X2) *)

(** The page after the run with the second row failed, the click on its
    "Retry", and the retry with both calls returning. *)
Definition beforeRetryOne : World Z := worldAfter mixedRun.

Definition retryOneClicked : World Z :=
  worldAfter (mixedRun ++ [ClickRetry 1]).

Definition afterRetryOne : World Z :=
  worldAfter (mixedRun ++ [ClickRetry 1] ++ retryTurn).

(** X1 on the results completed, failed, completed. *)
Lemma retry_one_leaves_other_rows_witness :
  exists r, scanResults (state beforeRetryOne) !! 1%nat = Some r
    /\ status r = failed
    /\ (forall j, j <> 1%nat ->
          scanResults (state afterRetryOne) !! j
          = scanResults (state beforeRetryOne) !! j)
    /\ length (scanResults (state afterRetryOne))
       = length (scanResults (state beforeRetryOne))
    /\ exists evs, log afterRetryOne = log beforeRetryOne ++ evs
         /\ evs `prefix_of` [EvCall (url r) Route.mobile; EvPace;
                             EvCall (url r) Route.desktop].
Proof.
  apply (RetryOneFacts.retry_one_leaves_other_rows beforeRetryOne
           retryOneClicked afterRetryOne 1 retryTurn).
  - vm_compute. reflexivity.
  - vm_compute. reflexivity.
  - reflexivity.
  - vm_compute. reflexivity.
Defined.

(** X2 on the same retry. *)
Lemma retry_one_outcome_witness :
  exists r r', scanResults (state beforeRetryOne) !! 1%nat = Some r
    /\ scanResults (state afterRetryOne) !! 1%nat = Some r'
    /\ url r' = url r /\ showIssues r' = None
    /\ ((exists m d, Respond (nextId beforeRetryOne) (Returns m) ∈ retryTurn
           /\ Respond (nextId beforeRetryOne) (Returns d) ∈ retryTurn
           /\ status r' = completed /\ mobile r' = Some m
           /\ desktop r' = Some d /\ error r' = None)
        \/ (exists msg, Respond (nextId beforeRetryOne) (Throws msg) ∈ retryTurn
              /\ status r' = failed /\ mobile r' = None
              /\ desktop r' = None /\ error r' = Some msg)
        \/ (ClickStop ∈ retryTurn /\ status r' = scanning /\ mobile r' = None
            /\ desktop r' = None /\ error r' = None)).
Proof.
  apply (RetryOneFacts.retry_one_outcome beforeRetryOne retryOneClicked
           afterRetryOne 1 retryTurn).
  - vm_compute. reflexivity.
  - vm_compute. reflexivity.
  - reflexivity.
  - vm_compute. reflexivity.
  - vm_compute. reflexivity.
Defined.

(** The retry when its mobile call throws, and when Stop is pressed during
    its pause: the row is failed without results, or left scanning. *)
Example retry_one_failed_or_stopped :
  statuses (worldAfter (mixedRun ++ [ClickRetry 1; Respond 2 (Throws "again")]))
  = [completed; failed; completed]
  /\ statuses (worldAfter (mixedRun ++ [ClickRetry 1;
                 Respond 2 (Returns okResult); ClickStop; Advance 3000;
                 Fire 2]))
     = [completed; scanning; completed]
  /\ tasks (worldAfter (mixedRun ++ [ClickRetry 1;
              Respond 2 (Returns okResult); ClickStop; Advance 3000;
              Fire 2])) = [].
Proof. vm_compute. repeat split. Qed.

(** *** Stop (X3) *)

(** After Stop the mobile call of the first URL returns and the pause
    passes. *)
Definition afterStop : list (Input Z) :=
  [Respond 1 (Returns okResult); Advance 3000; Fire 1].

(** X3 on the loop parked on its first mobile call. *)
Lemma no_call_after_stop_witness :
  log (runThree (ClickStop :: afterStop)) = log loopThree
  \/ log (runThree (ClickStop :: afterStop)) = log loopThree ++ [EvPace].
Proof.
  apply (StopFacts.no_call_after_stop 1
           (LoopMobile threePending itemA [itemB; itemC] 0)
           loopThree (runThree [ClickStop])
           (runThree (ClickStop :: afterStop)) afterStop).
  - vm_compute. reflexivity.
  - reflexivity.
  - vm_compute. reflexivity.
  - reflexivity.
  - vm_compute. reflexivity.
Defined.

(** *** The rows stay (X4) *)

(** X4 on the loop with, meanwhile, a failed call, a stop and the retry of
    a row. *)
Lemma rows_are_kept_witness :
  url <$> scanResults (state (runThree stoppedLoopGoesOn))
  = url <$> scanResults (state loopThree).
Proof.
  apply (RowFacts.rows_are_kept loopThree (runThree stoppedLoopGoesOn)
           stoppedLoopGoesOn).
  - vm_compute. repeat constructor.
  - reflexivity.
  - vm_compute. reflexivity.
Defined.

(** *** A failing desktop call (X5) *)

(** The mobile call of the first URL has returned and its desktop call is
    in flight. *)
Definition firstDesktopInFlight : World Z :=
  runThree [Respond 1 (Returns okResult); Advance 3000; Fire 1].

(** X5 on the three URLs, when the desktop call of the first throws. *)
Lemma desktop_failure_witness :
  exists w1, step firstDesktopInFlight (Respond 1 (Throws "boom")) = Some w1
    /\ (exists i2, indexIn threePending itemB = Some i2
           /\ alone 1 (LoopMobile threePending itemB [itemC] i2) w1
           /\ log w1 = log firstDesktopInFlight
                        ++ [EvCall (item_url itemB) Route.mobile])
    /\ (exists (ins : list (Input Z)) (w' : World Z),
          forallb unstopped ins = true /\ steps w1 ins = Some w'
          /\ tasks w' = [])
    /\ forall (ins : list (Input Z)) (w' : World Z),
         forallb unstopped ins = true ->
         steps w1 ins = Some w' ->
         (exists r', scanResults (state w') !! 0%nat = Some r'
            /\ url r' = item_url itemA
            /\ status r' = failed /\ error r' = Some "boom"
            /\ mobile r' = mobile (markScanning (pendingResult urlA))
            /\ desktop r' = desktop (markScanning (pendingResult urlA)))
         /\ exists evs, log w' = log firstDesktopInFlight ++ evs
              /\ (forall d, EvCall (item_url itemA) d ∉ evs)
              /\ (tasks w' = [] ->
                  mobileCalls evs = item_url <$> [itemB; itemC]).
Proof.
  apply (LoopEndFacts.desktop_failure_is_contained threePending 1 itemA
           [itemB; itemC] 0 okResult "boom"
           (markScanning (pendingResult urlA)) firstDesktopInFlight).
  - vm_compute. reflexivity.
  - vm_compute. reflexivity.
  - repeat constructor; vm_compute; eauto.
  - apply (bool_decide_unpack _). vm_compute. exact I.
  - vm_compute. reflexivity.
  - vm_compute. reflexivity.
  - reflexivity.
Defined.

(** The mobile result of the failed turn is not in the row. *)
Example desktop_failure_drops_mobile_result :
  let w := runThree [Respond 1 (Returns okResult); Advance 3000; Fire 1;
                     Respond 1 (Throws "boom")] in
  statuses w = [failed; scanning; pending]
  /\ (mobile <$> scanResults (state w)) !! 0%nat = Some None.
Proof. vm_compute. repeat split. Qed.

(** *** The end of a run (X6, X7) *)

(** The run in which the mobile call of the second URL throws. *)
Definition runWithFailure : list (Input Z) :=
  turnOk ++ nextItem ++ [Respond 1 (Throws "boom")] ++ turnOk.

(** X6 on that run. *)
Lemma unstopped_run_witness :
  isScanning (state (runThree runWithFailure)) = false
  /\ forall it j, it ∈ [itemA; itemB; itemC] ->
       indexIn threePending it = Some j ->
       exists r, scanResults (state (runThree runWithFailure)) !! j = Some r
         /\ url r = item_url it
         /\ ((status r = completed /\ is_Some (mobile r)
              /\ is_Some (desktop r) /\ error r = None)
             \/ (status r = failed
                 /\ exists msg, error r = Some msg
                      /\ Respond (nextId idleThree) (Throws msg)
                         ∈ runWithFailure)).
Proof.
  apply (LoopEndFacts.unstopped_run_settles_every_item threePending
           [itemA; itemB; itemC] idleThree (runThree runWithFailure)
           (state idleThree) runWithFailure).
  - reflexivity.
  - repeat constructor; vm_compute; eauto.
  - reflexivity.
  - reflexivity.
  - vm_compute. reflexivity.
  - vm_compute. reflexivity.
Defined.

(** X7 while the second item of an unstopped run is scanned: "Rescan
    Errors" is refused although the first row is failed. *)
Lemma no_second_run_witness :
  isScanning (state (runThree [Respond 1 (Throws "boom")])) = true
  /\ step (runThree [Respond 1 (Throws "boom")]) ClickRescanErrors = None.
Proof.
  apply (ExclusionFacts.no_second_run_unless_stopped threePending
           [itemA; itemB; itemC] idleThree
           (runThree [Respond 1 (Throws "boom")]) (state idleThree)
           [Respond 1 (Throws "boom")] ClickRescanErrors).
  - reflexivity.
  - reflexivity.
  - vm_compute. reflexivity.
  - vm_compute. discriminate.
  - reflexivity.
Defined.

(** *** Coherent rows (X8) *)

(** X8 on the failed row of the run from the first render in which the
    mobile call of the second URL throws. *)
Lemma rows_are_coherent_witness :
  let r : ScanResult Z := markError "boom" (markScanning (pendingResult urlB)) in
  (status r = failed -> is_Some (error r))
  /\ (status r = pending -> error r = None)
  /\ (is_Some (error r) -> status r = failed \/ status r = scanning)
  /\ (is_Some (mobile r) <-> is_Some (desktop r)).
Proof.
  apply (ReachFacts.rows_are_coherent
           (firstSubmit ++ secondSubmit ++ turnOk ++ nextItem
            ++ [Respond 1 (Throws "boom")])
           (pageAfter (turnOk ++ nextItem ++ [Respond 1 (Throws "boom")]))).
  - vm_compute. reflexivity.
  - vm_compute. apply list_elem_of_further, list_elem_of_here.
Defined.

(** *** The list a scan searches (X9, X10) *)

(** The sitemap form is submitted, the route answers with two URLs, and
    the user deselects the second. *)
Definition sitemapLoaded : World Z :=
  worldAfter [SubmitSitemap; SitemapReply 0 (Some [urlA; urlB]); ToggleUrl 1].

(** X9 on that page: the button creates the pending row of the selected
    URL and calls nothing. *)
Lemma start_button_witness :
  log (worldAfter [SubmitSitemap; SitemapReply 0 (Some [urlA; urlB]);
                   ToggleUrl 1; ClickStart])
  = log sitemapLoaded
  /\ tasks (worldAfter [SubmitSitemap; SitemapReply 0 (Some [urlA; urlB]);
                        ToggleUrl 1; ClickStart])
     = tasks sitemapLoaded
  /\ isScanning (state (worldAfter [SubmitSitemap;
                          SitemapReply 0 (Some [urlA; urlB]);
                          ToggleUrl 1; ClickStart])) = false
  /\ scanResults (state (worldAfter [SubmitSitemap;
                           SitemapReply 0 (Some [urlA; urlB]);
                           ToggleUrl 1; ClickStart]))
     = initialResults (filter (fun item => selected item = true)
                         (urls (state sitemapLoaded)))
  /\ scanResults (state (worldAfter [SubmitSitemap;
                           SitemapReply 0 (Some [urlA; urlB]);
                           ToggleUrl 1; ClickStart])) <> [].
Proof.
  apply (CapturedFacts.start_button_issues_no_call sitemapLoaded).
  vm_compute. reflexivity.
Defined.

Example start_button_rows :
  statuses (worldAfter [SubmitSitemap; SitemapReply 0 (Some [urlA; urlB]);
                        ToggleUrl 1; ClickStart]) = [pending]
  /\ log (worldAfter [SubmitSitemap; SitemapReply 0 (Some [urlA; urlB]);
                      ToggleUrl 1; ClickStart]) = [].
Proof. vm_compute. repeat split. Qed.

(** A manual list with one URL the page shows and one it does not. *)
Definition twoUrls : string := "https://b.test/,https://d.test/".

Definition afterTwoUrls : list (Input Z) :=
  [Advance 100; Fire 1; Respond 1 (Returns okResult); Advance 3000; Fire 1;
   Respond 1 (Returns okResult); Advance 3000; Fire 1].

Definition twoUrlsScanned : World Z :=
  default idleThree (steps idleThree (SubmitManual "key" twoUrls :: afterTwoUrls)).

(** X10 on the page with the three pending rows. *)
Lemma manual_scan_witness :
  exists evs, log twoUrlsScanned = log idleThree ++ evs
    /\ forall u d, EvCall u d ∈ evs ->
         u ∈ url <$> scanResults (state idleThree)
         /\ u ∈ parseManualUrls twoUrls.
Proof.
  apply (CapturedFacts.manual_scan_calls_only_shown_urls idleThree
           twoUrlsScanned "key" twoUrls afterTwoUrls).
  - reflexivity.
  - reflexivity.
  - vm_compute. reflexivity.
Defined.

(** Only the URL the page showed before is called; its results are
    written to the row at the place it had in the earlier list, which now
    holds the other URL. *)
Example manual_scan_of_two_urls :
  tasks twoUrlsScanned = []
  /\ log twoUrlsScanned
     = [EvCall urlB Route.mobile; EvPace; EvCall urlB Route.desktop; EvPace]
  /\ url <$> scanResults (state twoUrlsScanned)
     = [urlB; "https://d.test/"]
  /\ statuses twoUrlsScanned = [pending; completed].
Proof. vm_compute. repeat split. Qed.

(** *** The sitemap route (X12) *)

Definition sitemapRequest : SitemapRoute.Request :=
  {| SitemapRoute.sitemapUrl := Some "https://a.test/sitemap.xml";
     SitemapRoute.allowInsecure := false |}.

(** Every text parses as a URL, and the Sitemapper finds the three
    URLs. *)
Definition anyUrl (s : string) : bool := true.

Definition fetchThree (cfg : SitemapRoute.Config) : SitemapRoute.Fetched :=
  SitemapRoute.FetchSites (Some [urlA; urlB; urlC]).

(** X12 on the first render. *)
Lemma sitemap_load_witness :
  exists w2 : World Z,
    step (worldAfter [SubmitSitemap])
      (SitemapReply (nextId (initialWorld : World Z))
         (SitemapRoute.clientReply
            (SitemapRoute.POST anyUrl fetchThree sitemapRequest))) = Some w2
    /\ tasks w2 = [] /\ log w2 = log (initialWorld : World Z)
    /\ scanResults (state w2) = []
    /\ isLoadingUrls (state w2) = false
    /\ match SitemapRoute.POST anyUrl fetchThree sitemapRequest with
       | SitemapRoute.RespUrls sites count =>
           urls (state w2) = selectedItem <$> sites
           /\ count = length (urls (state w2))
           /\ (0 < count)%nat
           /\ startOffered (state w2) = true
       | SitemapRoute.RespError status _ =>
           (status = 400 \/ status = 404 \/ status = 500)
           /\ urls (state w2) = []
           /\ selectionShown (state w2) = false
       end.
Proof.
  apply (SitemapFacts.sitemap_load_shows_the_urls anyUrl fetchThree
           initialWorld (worldAfter [SubmitSitemap]) sitemapRequest).
  - reflexivity.
  - vm_compute. reflexivity.
Defined.

(** *** A sitemap that lists a URL twice (C7) *)

Definition fetchTwice (cfg : SitemapRoute.Config) : SitemapRoute.Fetched :=
  SitemapRoute.FetchSites (Some [urlA; urlB; urlA]).

(** C7, on the code: the Sitemapper finds the URL a twice.  The route
    replies with the list as it is, the page shows it, and "Start
    Performance Scan" creates one pending row per entry: two rows for the
    URL a. *)
Lemma sitemap_duplicates_are_kept :
  SitemapRoute.clientReply
    (SitemapRoute.POST anyUrl fetchTwice sitemapRequest)
  = Some [urlA; urlB; urlA]
  /\ exists w : World Z,
       steps initialWorld
         [SubmitSitemap; SitemapReply 0 (Some [urlA; urlB; urlA]);
          ClickStart]
       = Some w
       /\ scanResults (state w)
          = [pendingResult urlA; pendingResult urlB; pendingResult urlA]
       /\ ~ NoDup (url <$> scanResults (state w)).
Proof.
  split; [vm_compute; reflexivity|]. eexists. split; [|split].
  - vm_compute. reflexivity.
  - reflexivity.
  - cbn. intros H. apply NoDup_cons in H as [H _]. apply H.
    apply list_elem_of_further, list_elem_of_here.
Qed.

(** *** The rows of a manual submit (X26) *)

(** A text with blanks, both separators and a repeated URL. *)
Definition repeatedUrls : string :=
  (" https://b.test/ ,https://a.test/" ++ String (ascii_of_nat 10) ""
   ++ ",, https://b.test/")%string.

(** X26 on the first render, the manual tab selected. *)
Lemma manual_submit_witness :
  exists w2 : World Z,
    steps (worldAfter [SelectMode manual; SubmitManual "key" repeatedUrls])
      [Advance 100; Fire (nextId (worldAfter [SelectMode manual]))]
    = Some w2
    /\ scanResults
         (state (worldAfter [SelectMode manual;
                             SubmitManual "key" repeatedUrls])) = []
    /\ scanResults (state w2) <> []
    /\ Forall SubmitFacts.fresh (scanResults (state w2))
    /\ NoDup (url <$> scanResults (state w2))
    /\ (forall u, u ∈ url <$> scanResults (state w2)
                  <-> u ∈ StoreFacts.manualTokens repeatedUrls)
    /\ (forall i j ri rj,
          scanResults (state w2) !! i = Some ri ->
          scanResults (state w2) !! j = Some rj ->
          (i < j)%nat ->
          exists a b,
            JsFacts.firstIndex (url ri) (StoreFacts.manualTokens repeatedUrls)
            = Some a
            /\ JsFacts.firstIndex (url rj)
                 (StoreFacts.manualTokens repeatedUrls) = Some b
            /\ (a < b)%nat)
    /\ (scanResults (state (worldAfter [SelectMode manual])) = [] ->
        Forall (fun r => r = pendingResult (url r))
          (scanResults (state w2))).
Proof.
  apply (SubmitFacts.manual_submit_creates_one_row_per_url
           (worldAfter [SelectMode manual])
           (worldAfter [SelectMode manual; SubmitManual "key" repeatedUrls])
           "key" repeatedUrls 100%N).
  - reflexivity.
  - vm_compute. reflexivity.
  - vm_compute. discriminate.
Defined.

(** The rows of that submit: the URL b comes once, before a. *)
Example manual_submit_rows :
  scanResults
    (state (worldAfter [SelectMode manual; SubmitManual "key" repeatedUrls;
                        Advance 100; Fire 0]))
  = [pendingResult urlB; pendingResult urlA].
Proof. vm_compute. reflexivity. Qed.

(** *** Parsed URLs (X17) *)

(** X17 on a text with blanks, both separators and a repeated URL. *)
Lemma parsed_urls_witness :
  urlA <> EmptyString /\ Js.trim urlA = urlA /\ ParseFacts.noSep urlA = true.
Proof.
  apply (ParseFacts.parsed_urls_are_clean
           (" https://b.test/ ,https://a.test/" ++ String (ascii_of_nat 10) ""
            ++ ",, https://b.test/")%string urlA).
  apply (bool_decide_unpack _). vm_compute. exact I.
Defined.

(** *** A retry against the route (X19, X20) *)

(** The failed second row of [beforeRetryOne]. *)
Definition failedB : ScanResult Z :=
  markError "boom" (markScanning (pendingResult urlB)).

Definition someScores : Route.PageSpeedMetrics :=
  {| Route.performance := 41; Route.accessibility := 88;
     Route.bestPractices := 100; Route.seo := 92 |}.

Definition noFieldData : Route.FieldData Z :=
  {| Route.fcp := None; Route.fid := None; Route.lcp := None;
     Route.cls := None |}.

(** X19 on that row: the PageSpeed API gives data for both requests. *)
Lemma retry_with_data_witness :
  exists om od w',
    ScanCall.scanUrl
      (Route.POST RouteFacts.lt90
         (ScanCall.requestOf "key" (url failedB) Route.mobile)
         (Route.UpData someScores noFieldData RouteFacts.sampleAudits))
    = Some om
    /\ ScanCall.scanUrl
         (Route.POST RouteFacts.lt90
            (ScanCall.requestOf "key" (url failedB) Route.desktop)
            (Route.UpData someScores noFieldData ∅))
       = Some od
    /\ steps retryOneClicked
         [Respond (nextId beforeRetryOne) om; Advance paceMs;
          Fire (nextId beforeRetryOne); Respond (nextId beforeRetryOne) od]
       = Some w'
    /\ tasks w' = []
    /\ isScanning (state w') = false
    /\ log w' = log beforeRetryOne
                ++ [EvCall (url failedB) Route.mobile; EvPace;
                    EvCall (url failedB) Route.desktop]
    /\ scanResults (state w') !! 1%nat
       = Some {| url := url failedB; status := completed; showIssues := None;
                 mobile := Some (ScanCallFacts.deviceResult RouteFacts.lt90
                                   someScores noFieldData
                                   RouteFacts.sampleAudits);
                 desktop := Some (ScanCallFacts.deviceResult RouteFacts.lt90
                                    someScores noFieldData ∅);
                 error := None |}.
Proof.
  apply (ScanCallFacts.retry_with_data_completes_the_row RouteFacts.lt90
           beforeRetryOne retryOneClicked 1 failedB "key"
           someScores someScores noFieldData noFieldData
           RouteFacts.sampleAudits ∅).
  - vm_compute. reflexivity.
  - vm_compute. reflexivity.
  - reflexivity.
  - reflexivity.
  - vm_compute. reflexivity.
Defined.

(** X20 on that row: the PageSpeed API answers the mobile request with
    status 429. *)
Lemma upstream_error_witness :
  exists o w',
    ScanCall.scanUrl
      (Route.POST RouteFacts.lt90
         (ScanCall.requestOf "key" (url failedB) Route.mobile)
         (Route.UpNotOk 429 "Quota exceeded"))
    = Some o
    /\ step retryOneClicked (Respond (nextId beforeRetryOne) o) = Some w'
    /\ tasks w' = []
    /\ isScanning (state w') = false
    /\ log w' = log beforeRetryOne ++ [EvCall (url failedB) Route.mobile]
    /\ scanResults (state w') !! 1%nat
       = Some {| url := url failedB; status := failed; showIssues := None;
                 mobile := None; desktop := None;
                 error := Some "Quota exceeded" |}.
Proof.
  apply (ScanCallFacts.upstream_error_reaches_the_row RouteFacts.lt90
           beforeRetryOne retryOneClicked 1 failedB "key" "Quota exceeded"
           (Route.UpNotOk 429 "Quota exceeded")).
  - vm_compute. reflexivity.
  - vm_compute. reflexivity.
  - reflexivity.
  - reflexivity.
  - reflexivity.
  - reflexivity.
  - reflexivity.
  - vm_compute. reflexivity.
Defined.

(** *** The time a run takes (X21, X22) *)

(** X21 on the run stopped during the pause of the second URL: three
    pauses were started, and the run ended 9000 ms after its start. *)
Lemma run_lasts_witness :
  exists evs, log (runThree stopInPause) = log idleThree ++ evs
    /\ (now idleThree + paceMs * DurationFacts.pauses evs
        <= now (runThree stopInPause) + paceMs)%N
    /\ ((forall k t, (k, t) ∈ tasks (runThree stopInPause) ->
           deadlineOf t = None) ->
        (now idleThree + paceMs * DurationFacts.pauses evs
         <= now (runThree stopInPause))%N).
Proof.
  apply (DurationFacts.run_lasts_3000ms_per_pause threePending
           [itemA; itemB; itemC] idleThree (runThree stopInPause)
           (state idleThree) stopInPause).
  - reflexivity.
  - reflexivity.
  - vm_compute. reflexivity.
Defined.

Example stopped_run_lasted_9000ms :
  now (runThree stopInPause) = (now idleThree + 9000)%N
  /\ DurationFacts.pauses (log (runThree stopInPause)) = 3%N.
Proof. vm_compute. done. Qed.

(** X22 on the whole run of the three URLs: five pauses, 15000 ms. *)
Lemma smooth_run_duration_witness :
  (now idleThree
   + paceMs * (2 * N.of_nat (length [itemA; itemB; itemC]) - 1)
   <= now (runThree wholeRun))%N.
Proof.
  apply (DurationFacts.smooth_run_duration threePending
           [itemA; itemB; itemC] idleThree (runThree wholeRun)
           (state idleThree) wholeRun).
  - reflexivity.
  - repeat constructor; vm_compute; eauto.
  - reflexivity.
  - vm_compute. reflexivity.
  - vm_compute. reflexivity.
Defined.

(** *** The progress indicator (X23) *)

(** The desktop call of the first URL is in flight, Stop pressed. *)
Definition desktopOfFirst : list (Input Z) :=
  [Respond 1 (Returns okResult); Advance 3000; Fire 1; ClickStop].

(** X23 on that run. *)
Lemma indicator_witness :
  (tasks (runThree desktopOfFirst) = []
   /\ currentScanDevice (state (runThree desktopOfFirst)) = None
   /\ isScanning (state (runThree desktopOfFirst)) = false)
  \/ exists t, tasks (runThree desktopOfFirst) = [(nextId idleThree, t)]
       /\ forall it i d, IndicatorFacts.callOf t = Some (it, i, d) ->
            last (log (runThree desktopOfFirst))
            = Some (EvCall (item_url it) d)
            /\ indexIn threePending it = Some i
            /\ currentScanIndex (state (runThree desktopOfFirst)) = Some i
            /\ currentScanDevice (state (runThree desktopOfFirst)) = Some d
            /\ forall r,
                 scanResults (state (runThree desktopOfFirst)) !! i = Some r ->
                 status r = scanning.
Proof.
  apply (IndicatorFacts.indicator_follows_the_call threePending
           [itemA; itemB; itemC] idleThree (runThree desktopOfFirst)
           (state idleThree) desktopOfFirst).
  - reflexivity.
  - reflexivity.
  - vm_compute. reflexivity.
Defined.

Example indicator_on_desktop_of_first :
  tasks (runThree desktopOfFirst)
  = [(1%nat, LoopDesktop threePending itemA [itemB; itemC] 0 okResult)]
  /\ currentScanIndex (state (runThree desktopOfFirst)) = Some 0%nat
  /\ currentScanDevice (state (runThree desktopOfFirst))
     = Some Route.desktop
  /\ statuses (runThree desktopOfFirst) = [scanning; pending; pending].
Proof. vm_compute. done. Qed.

(** *** A run that completes its queue (X24) *)

(** X24 on the three pending results. *)
Lemma returning_calls_witness :
  (exists ins w',
     forallb smooth ins = true
     /\ steps (spawn idleThree
                 (startPerformanceScanWithUrls threePending
                    [itemA; itemB; itemC] (state idleThree))) ins
        = Some w'
     /\ tasks w' = [])
  /\ forall ins w',
       forallb smooth ins = true ->
       steps (spawn idleThree
                (startPerformanceScanWithUrls threePending
                   [itemA; itemB; itemC] (state idleThree))) ins
       = Some w' ->
       tasks w' = [] ->
       isScanning (state w') = false
       /\ forall it j, it ∈ [itemA; itemB; itemC] ->
            indexIn threePending it = Some j ->
            exists r, scanResults (state w') !! j = Some r
              /\ url r = item_url it /\ status r = completed
              /\ is_Some (mobile r) /\ is_Some (desktop r)
              /\ error r = None.
Proof.
  apply (CompletionFacts.returning_calls_complete_the_queue threePending
           [itemA; itemB; itemC] idleThree (state idleThree) okResult).
  - reflexivity.
  - repeat constructor; vm_compute; eauto.
  - reflexivity.
Defined.

End MoreScenarios.
